(** * Channel relay and ephemeral media store of the walkie-talkie backends

    A shallow embedding of the two socket.io servers of the repository
    (the multi-channel backend that keeps a per-connection [userChannels]
    set, and the single-channel backend that keeps the global
    [activeChannels] table) and of the upload sweeper [cleanupOldFiles],
    together with the properties the specification states about them. *)

From stdpp Require Import gmap strings list fin_maps pretty sorting.
From Stdlib Require Import ZArith.

Set Warnings "-register-all,-clear-no-such-hyp".

Local Open Scope string_scope.
Local Open Scope list_scope.
Local Open Scope Z_scope.

Abbreviation SocketId := string (only parsing).

(** ** JavaScript values, as far as the handlers inspect them *)

Module JS.

(** Payloads arrive as arbitrary JSON-like values.  Numbers are the
    integral ones (time stamps, counters); that is all the handlers
    compute with. *)
Inductive value : Type :=
| Undefined
| Null
| Bool (b : bool)
| Num (n : Z)
| Str (s : string)
| Arr (items : list value)
| Obj (fields : list (string * value)).

(** [!v] is [negb (truthy v)]. *)
Definition truthy (v : value) : bool :=
  match v with
  | Undefined | Null => false
  | Bool b => b
  | Num n => negb (n =? 0)
  | Str s => negb (String.eqb s "")
  | Arr _ | Obj _ => true
  end.

(** [typeof v === 'string'] *)
Definition is_string (v : value) : bool :=
  match v with Str _ => true | _ => false end.

(** [v === false] *)
Definition is_false (v : value) : bool :=
  match v with Bool false => true | _ => false end.

Fixpoint assoc (k : string) (fs : list (string * value)) : value :=
  match fs with
  | [] => Undefined
  | (k', v) :: rest => if String.eqb k k' then v else assoc k rest
  end.

(** Property read [v.k] for the keys the handlers read ([channelId],
    [status], [data], [uri], [message]): primitives and arrays have no
    such property.  Reading a property of [undefined] or [null] throws
    in JavaScript; every use below is guarded by a truthiness test or
    handles that case before calling [get]. *)
Definition get (v : value) (k : string) : value :=
  match v with
  | Obj fs => assoc k fs
  | _ => Undefined
  end.

Fixpoint assoc_set (k : string) (x : value) (fs : list (string * value))
  : list (string * value) :=
  match fs with
  | [] => [(k, x)]
  | (k', v) :: rest =>
      if String.eqb k k' then (k', x) :: rest else (k', v) :: assoc_set k x rest
  end.

(** Property write [v.k = x] on an object. *)
Definition set (v : value) (k : string) (x : value) : value :=
  match v with
  | Obj fs => Obj (assoc_set k x fs)
  | _ => v
  end.

(** [Number::toString] on an integral number.  Up to [2^53] every
    integer prints as it is.  Above, a number prints the shortest digits
    that still round to it, followed by zeros while that gives at most 21
    digits, and in exponent notation otherwise. *)
Definition decimal_digits (x : Z) : Z := Z.of_nat (String.length (pretty x)).

(** Whether the real number [v] rounds to the double [x] (nearest, ties
    to the even mantissa). *)
Definition rounds_to (x v : Z) : bool :=
  let e := Z.log2 x - 52 in
  let m := x / 2 ^ e in
  let below := if m =? 2 ^ 52 then 2 ^ e else 2 ^ (e + 1) in
  let above := 2 ^ (e + 1) in
  if Z.even m then (4 * x - below <=? 4 * v) && (4 * v <=? 4 * x + above)
  else (4 * x - below <? 4 * v) && (4 * v <? 4 * x + above).

(** The value with [k] significant digits that rounds to [x] and is
    closest to it, if there is one. *)
Definition nearest (x k : Z) : option Z :=
  let scale := 10 ^ (decimal_digits x - k) in
  let s := x / scale in
  let down := s * scale in
  let up := (s + 1) * scale in
  match rounds_to x down, rounds_to x up with
  | true, true =>
      if x - down <? up - x then Some down
      else if up - x <? x - down then Some up
      else if Z.even s then Some down else Some up
  | true, false => Some down
  | false, true => Some up
  | false, false => None
  end.

Fixpoint shortest (x k : Z) (fuel : nat) : Z :=
  match fuel with
  | O => x
  | S fuel =>
      match nearest x k with
      | Some v => v
      | None => shortest x (k + 1) fuel
      end
  end.

Fixpoint strip_zeros (fuel : nat) (s : Z) : Z :=
  match fuel with
  | O => s
  | S fuel => if s mod 10 =? 0 then strip_zeros fuel (s / 10) else s
  end.

Definition unsigned_toString (x : Z) : string :=
  if x <? 2 ^ 53 then pretty x
  else
    let v := shortest x 1 17 in
    if decimal_digits v <=? 21 then pretty v
    else
      match pretty (strip_zeros 400 v) with
      | String d rest =>
          String d (if String.eqb rest "" then "" else "." +:+ rest)
          +:+ "e+" +:+ pretty (decimal_digits v - 1)
      | EmptyString => ""
      end.

Definition Number_toString (n : Z) : string :=
  if n <? 0 then "-" +:+ unsigned_toString (- n) else unsigned_toString n.

(** [String(v)], and the coercion of [v] inside a template literal;
    [None] when it raises a [TypeError].  An array prints its elements
    joined by commas, with [null] and [undefined] elements printed as the
    empty string.  An object prints through its [toString]: the inherited
    one gives ["[object Object]"]; an own property of that name, which in
    a decoded payload is never a function, leaves no way to a primitive
    value. *)
Fixpoint to_String (v : value) : option string :=
  match v with
  | Undefined => Some "undefined"
  | Null => Some "null"
  | Bool true => Some "true"
  | Bool false => Some "false"
  | Num n => Some (Number_toString n)
  | Str s => Some s
  | Arr items =>
      match
        (fix elements (l : list value) : option (list string) :=
           match l with
           | [] => Some []
           | x :: rest =>
               match match x with Undefined | Null => Some "" | _ => to_String x end,
                     elements rest with
               | Some s, Some ss => Some (s :: ss)
               | _, _ => None
               end
           end) items
      with
      | Some parts => Some (String.concat "," parts)
      | None => None
      end
  | Obj fields =>
      if existsb (λ f : string * value, String.eqb f.1 "toString") fields then None
      else Some "[object Object]"
  end.

Definition coercible (v : value) : bool :=
  match to_String v with Some _ => true | None => false end.

(** [a || b] *)
Definition or (a b : value) : value := if truthy a then a else b.

(** [a || b] on strings *)
Definition or_else (a b : string) : string :=
  if String.eqb a "" then b else a.

(** [s.startsWith(p)] *)
Definition startsWith (p s : string) : bool := String.prefix p s.

(** A [Set] of strings keeps insertion order and holds no element
    twice; an array used with [includes]/[push]/[filter] is the same
    list without the guard on [push]. *)
Definition has (x : string) (s : list string) : bool := bool_decide (x ∈ s).
Definition add (x : string) (s : list string) : list string :=
  if has x s then s else s ++ [x].
Definition remove (x : string) (s : list string) : list string :=
  filter (λ y, y ≠ x) s.

End JS.

(** ** The socket.io substrate the handlers call into *)

Module SocketIO.

(** [io.sockets.adapter.rooms] is a [Map] from room name to the [Set]
    of socket ids in it; [connected] are the live sockets.  A room with
    no member is deleted by the adapter. *)
Record state : Type := mk_state {
  rooms : gmap string (list string);
  connected : list string
}.

Definition empty : state := mk_state ∅ [].

Definition members (st : state) (room : string) : list string :=
  default [] (rooms st !! room).

(** [socket.join(room)] *)
Definition join (sid room : string) (st : state) : state :=
  mk_state (<[room := JS.add sid (members st room)]> (rooms st)) (connected st).

Definition prune (l : list string) : option (list string) :=
  match l with [] => None | _ => Some l end.

(** [socket.leave(room)]: the adapter removes the id and drops the room
    once it is empty. *)
Definition leave (sid room : string) (st : state) : state :=
  match rooms st !! room with
  | None => st
  | Some l =>
      mk_state
        (match prune (JS.remove sid l) with
         | None => delete room (rooms st)
         | Some l' => <[room := l']> (rooms st)
         end)
        (connected st)
  end.

(** Rooms are only ever created under string names (both servers
    validate [typeof channelId === 'string'] before [socket.join]), so
    [socket.leave(v)] for any other value finds no room. *)
Definition leave_value (sid : string) (v : JS.value) (st : state) : state :=
  match v with
  | JS.Str room => leave sid room st
  | _ => st
  end.

(** A new connection is put into the room named by its own id. *)
Definition connect (sid : string) (st : state) : state :=
  let st' := join sid sid st in
  mk_state (rooms st') (JS.add sid (connected st')).

(** On close the socket leaves every room before the ['disconnect']
    listeners run. *)
Definition disconnect (sid : string) (st : state) : state :=
  mk_state (omap (λ l, prune (JS.remove sid l)) (rooms st))
           (JS.remove sid (connected st)).

(** Where an [emit] goes: [socket.emit], [io.to(room).emit],
    [socket.to(room).emit]. *)
Inductive target : Type :=
| ToSocket (sid : string)
| ToRoom (room : JS.value)
| ToRoomExcept (room : JS.value) (sid : string).

Record emission : Type := Emit {
  target_of : target;
  event : string;
  payload : JS.value
}.

Fixpoint dedup (l : list string) : list string :=
  match l with
  | [] => []
  | x :: r => if JS.has x r then dedup r else x :: dedup r
  end.

(** The sockets selected by [to(v)]: the members of the named room; for
    an array the union of the named rooms, and every socket when the
    array names no room at all (the adapter then applies no room
    filter).  [socket.to(v)] is a broadcast that excepts the room named
    [socket.id]: whoever is in that room at the time is left out, which
    is the sender itself as long as it has not left that room and nobody
    else has joined it. *)
Definition room_names (items : list JS.value) : list string :=
  omap (λ v, match v with JS.Str r => Some r | _ => None end) items.

Definition in_rooms (st : state) (v : JS.value) : list string :=
  match v with
  | JS.Str room => members st room
  | JS.Arr [] => connected st
  | JS.Arr items => dedup (concat (map (members st) (room_names items)))
  | _ => []
  end.

Definition recipients (st : state) (t : target) : list string :=
  match t with
  | ToSocket sid => if JS.has sid (connected st) then [sid] else []
  | ToRoom v => in_rooms st v
  | ToRoomExcept v sid => filter (λ r, r ∉ members st sid) (in_rooms st v)
  end.

(** One packet handed to one socket. *)
Record delivery : Type := Deliver {
  recipient : string;
  d_event : string;
  d_payload : JS.value
}.

End SocketIO.

Import SocketIO.

(** ** Handlers as computations over the server state

    A listener runs to completion on the state of the process.  While it
    runs it mutates the state, hands packets to the transport (the
    receivers of a broadcast are fixed at the moment of the [emit]),
    registers [setTimeout] callbacks, and may end with an exception. *)

Record packet : Type := Packet {
  sent_as : emission;
  receivers : list string
}.

(** A registered callback: its delay in ms and what it emits, as a
    function of [Date.now()] at the time it fires.  No callback of the
    servers touches the state or registers further callbacks. *)
Definition callback : Type := Z * (Z → list emission).

Inductive completion (A : Type) : Type :=
| Normal (a : A)
| Thrown (message : string).
Arguments Normal {A}.
Arguments Thrown {A}.

Record outcome (St A : Type) : Type := Outcome {
  result : completion A;
  next : St;
  sent : list packet;
  timers : list callback
}.
Arguments Outcome {St A}.
Arguments result {St A}.
Arguments next {St A}.
Arguments sent {St A}.
Arguments timers {St A}.

Class HasIO (St : Type) : Type := {
  get_io : St → SocketIO.state;
  set_io : SocketIO.state → St → St
}.

Definition M (St A : Type) : Type := St → outcome St A.

Section handler_monad.
Context {St : Type} `{HasIO St}.

Definition ret {A} (a : A) : M St A := λ st, Outcome (Normal a) st [] [].

Definition bind {A B} (m : M St A) (k : A → M St B) : M St B := λ st,
  let o := m st in
  match result o with
  | Thrown msg => Outcome (Thrown msg) (next o) (sent o) (timers o)
  | Normal a =>
      let o' := k a (next o) in
      Outcome (result o') (next o') (sent o ++ sent o') (timers o ++ timers o')
  end.

(** A [TypeError] raised by the runtime; the message is kept for the
    handlers that report [error.message]. *)
Definition throw {A} (msg : string) : M St A := λ st, Outcome (Thrown msg) st [] [].

(** [try { m } catch (error) { h error.message }] *)
Definition try_catch {A} (m : M St A) (h : string → M St A) : M St A := λ st,
  let o := m st in
  match result o with
  | Normal a => o
  | Thrown msg =>
      let o' := h msg (next o) in
      Outcome (result o') (next o') (sent o ++ sent o') (timers o ++ timers o')
  end.

Definition get : M St St := λ st, Outcome (Normal st) st [] [].
Definition modify (f : St → St) : M St unit := λ st, Outcome (Normal tt) (f st) [] [].

Definition emit (t : target) (ev : string) (p : JS.value) : M St unit := λ st,
  let e := Emit t ev p in
  Outcome (Normal tt) st [Packet e (recipients (get_io st) t)] [].

Definition setTimeout (f : Z → list emission) (delay : Z) : M St unit := λ st,
  Outcome (Normal tt) st [] [(delay, f)].

(** [socket.join(room)], [socket.leave(v)] *)
Definition socket_join (sid room : string) : M St unit :=
  modify (λ st, set_io (SocketIO.join sid room (get_io st)) st).
Definition socket_leave (sid : string) (v : JS.value) : M St unit :=
  modify (λ st, set_io (SocketIO.leave_value sid v (get_io st)) st).

(** [Array.from(io.sockets.adapter.rooms.get(room) || [])] *)
Definition room_users (room : string) : M St (list string) := λ st,
  Outcome (Normal (members (get_io st) room)) st [] [].

(** [xs.forEach(body)] *)
Fixpoint forEach {A} (xs : list A) (body : A → M St unit) : M St unit :=
  match xs with
  | [] => ret tt
  | x :: rest => bind (body x) (λ _, forEach rest body)
  end.

(** A value placed in a template literal, [`..${v}..`], or handed to
    [String]: its string, or the [TypeError] of the coercion. *)
Definition coerce (v : JS.value) : M St string :=
  match JS.to_String v with
  | Some s => ret s
  | None => throw "Cannot convert object to primitive value"
  end.

(** [console.log(`..${v1}..${v2}..`)]: what is printed is not kept, but
    the values are coerced, left to right. *)
Fixpoint log (vs : list JS.value) : M St unit :=
  match vs with
  | [] => ret tt
  | v :: rest => bind (coerce v) (λ _, log rest)
  end.

End handler_monad.

Declare Scope handler_scope.
Delimit Scope handler_scope with handler.
Notation "x ← y ; z" := (bind y (λ x, z))
  (at level 20, y at level 100, z at level 200, only parsing) : handler_scope.
Notation "x ;; z" := (bind x (λ _, z))
  (at level 100, z at level 200, only parsing, right associativity) : handler_scope.
Local Open Scope handler_scope.

(** The packets of a run, one per receiving socket. *)
Definition deliveries (ps : list packet) : list delivery :=
  concat (map (λ p, map (λ r, Deliver r (event (sent_as p)) (payload (sent_as p)))
                        (receivers p)) ps).

Definition emissions (ps : list packet) : list emission := map sent_as ps.

Definition users_payload (users : list string) : JS.value :=
  JS.Arr (map JS.Str users).

(** The channel name when the guard
    [!channelId || typeof channelId !== 'string'] of both [joinChannel]
    listeners lets the request through. *)
Definition valid_channel (v : JS.value) : option string :=
  if negb (JS.truthy v) || negb (JS.is_string v) then None
  else match v with JS.Str c => Some c | _ => None end.

(** ** The event loop

    Listeners and timer callbacks run one at a time.  A callback
    registered with delay [d] while the clock shows [t] fires at [t + d],
    after every listener that was started before that instant; callbacks
    due at the same instant fire in registration order.  An exception no
    listener catches ends the process. *)

Inductive message : Type :=
| JoinChannel (channelId : JS.value)
| LeaveChannel (channelId : JS.value)
| PttStatus (data : JS.value)
| AudioData (data : JS.value)
| Ping.

(** The headers of a handshake request, by their lower-case names;
    each is a string. *)
Definition headers_of_request : Type := list (string * string).

Fixpoint header (k : string) (hs : headers_of_request) : option string :=
  match hs with
  | [] => None
  | (k', v) :: rest => if String.eqb k k' then Some v else header k rest
  end.

(** [hs[k] || otherwise] *)
Definition header_or (k : string) (hs : headers_of_request) (otherwise : string) : string :=
  match header k hs with
  | Some v => JS.or_else v otherwise
  | None => otherwise
  end.

Inductive input : Type :=
| Connect (sid : string) (handshake : headers_of_request)
| Message (sid : string) (m : message)
| Close (sid : string)
| Idle.

Record server : Type := Server {
  St : Type;
  St_io : HasIO St;
  on_connection : string → headers_of_request → M St unit;
  on_message : Z → string → message → M St unit;   (* first argument: [Date.now()] *)
  on_disconnect : string → M St unit
}.
#[export] Existing Instance St_io.

Record world (S : server) : Type := World {
  clock : Z;
  store : St S;
  pending : list (Z * (Z → list emission));   (* due time, callback; sorted by due time *)
  crashed : bool
}.
Arguments World {S}.
Arguments clock {S}.
Arguments store {S}.
Arguments pending {S}.
Arguments crashed {S}.

(** A packet on the wire, stamped with the instant it was emitted. *)
Definition trace : Type := list (Z * packet).

Section event_loop.
Variable S : server.

Definition boot (st : St S) : world S := World 0 st [] false.

Fixpoint schedule (due : Z) (f : Z → list emission)
    (q : list (Z * (Z → list emission))) : list (Z * (Z → list emission)) :=
  match q with
  | [] => [(due, f)]
  | (d, g) :: rest =>
      if d <=? due then (d, g) :: schedule due f rest else (due, f) :: (d, g) :: rest
  end.

Definition schedule_all (now : Z) (cs : list callback)
    (q : list (Z * (Z → list emission))) : list (Z * (Z → list emission)) :=
  foldl (λ q c, schedule (now + fst c) (snd c) q) q cs.

Definition fire (st : St S) (c : Z * (Z → list emission)) : trace :=
  map (λ e, (fst c, Packet e (recipients (get_io st) (target_of e)))) (snd c (fst c)).

(** The callbacks due by [now], and the ones that stay. *)
Definition due_by (now : Z) (q : list (Z * (Z → list emission))) :=
  (filter (λ c, fst c ≤ now) q, filter (λ c, ¬ fst c ≤ now) q).

Definition listener (now : Z) (i : input) (st : St S) : option (outcome (St S) unit) :=
  match i with
  | Connect sid hs =>
      if JS.has sid (connected (get_io st)) then None
      else Some (on_connection S sid hs (set_io (SocketIO.connect sid (get_io st)) st))
  | Message sid m =>
      if JS.has sid (connected (get_io st)) then Some (on_message S now sid m st) else None
  | Close sid =>
      if JS.has sid (connected (get_io st))
      then Some (on_disconnect S sid (set_io (SocketIO.disconnect sid (get_io st)) st))
      else None
  | Idle => None
  end.

Definition step (w : world S) (ti : Z * input) : world S * trace :=
  if crashed w then (w, [])
  else
    let now := Z.max (clock w) (fst ti) in
    let '(due, later) := due_by now (pending w) in
    let fired := concat (map (fire (store w)) due) in
    match listener now (snd ti) (store w) with
    | None => (World now (store w) later false, fired)
    | Some o =>
        (World now (next o) (schedule_all now (timers o) later)
               (match result o with Thrown _ => true | Normal _ => false end),
         fired ++ map (λ p, (now, p)) (sent o))
    end.

Fixpoint run (w : world S) (inputs : list (Z * input)) : world S * trace :=
  match inputs with
  | [] => (w, [])
  | ti :: rest =>
      let '(w1, tr1) := step w ti in
      let '(w2, tr2) := run w1 rest in
      (w2, tr1 ++ tr2)
  end.

End event_loop.

Arguments boot {S}.
Arguments step {S}.
Arguments run {S}.
Arguments listener {S}.
Arguments fire {S}.

(** What one socket sees, in order: instant, event name, payload. *)
Definition observed_by (sid : string) (tr : trace) : list (Z * string * JS.value) :=
  omap (λ tp, if JS.has sid (receivers tp.2)
              then Some (tp.1, event (sent_as tp.2), payload (sent_as tp.2))
              else None) tr.

(** ** The multi-channel backend

    Each connection keeps the set [userChannels] of the channels it has
    joined; rosters are read from the adapter's rooms. *)

Module VariantA.

Record state : Type := mk_state {
  io : SocketIO.state;
  userChannels : gmap string (list string);  (* one [Set] per connection *)
  headers : gmap string headers_of_request   (* [socket.handshake.headers] *)
}.

#[export] Instance state_io : HasIO state :=
  {| get_io := io;
     set_io := λ i st, mk_state i (userChannels st) (headers st) |}.

Definition init : state := mk_state SocketIO.empty ∅ ∅.

Definition channels_of (st : state) (sid : string) : list string :=
  default [] (userChannels st !! sid).

Definition set_channels (sid : string) (f : list string → list string) : M state unit :=
  modify (λ st, mk_state (io st)
                         (<[sid := f (channels_of st sid)]> (userChannels st))
                         (headers st)).

(** [userChannels.has(v)] and [userChannels.delete(v)] for an arbitrary
    value: the set only ever holds strings. *)
Definition has_value (v : JS.value) (s : list string) : bool :=
  match v with JS.Str c => JS.has c s | _ => false end.
Definition delete_value (v : JS.value) (s : list string) : list string :=
  match v with JS.Str c => JS.remove c s | _ => s end.

Section listeners.
Variable PORT : string.
(** [socket.id] of the connection the listeners are registered on. *)
Variable sid : string.

Definition joinChannel (channelId : JS.value) : M state unit :=
  match valid_channel channelId with
  | None =>
      log [channelId];;
      printed ← coerce channelId;
      emit (ToSocket sid) "joinConfirmation"
        (JS.Obj [("channelId", JS.Str (JS.or_else printed "unknown"));
                 ("success", JS.Bool false);
                 ("error", JS.Str "Invalid channel ID")])
  | Some c =>
      st ← get;
      if JS.has c (channels_of st sid) then
        users ← room_users c;
        emit (ToSocket sid) "joinConfirmation"
          (JS.Obj [("channelId", JS.Str c); ("success", JS.Bool true)]);;
        emit (ToSocket sid) "activeUsers" (users_payload users)
      else
        try_catch
          (socket_join sid c;;
           set_channels sid (JS.add c);;
           users ← room_users c;
           emit (ToSocket sid) "joinConfirmation"
             (JS.Obj [("channelId", JS.Str c); ("success", JS.Bool true)]);;
           setTimeout
             (λ _, [Emit (ToSocket sid) "activeUsers" (users_payload users);
                    Emit (ToRoomExcept (JS.Str c) sid) "userJoined" (JS.Str sid)])
             100)
          (λ msg,
             emit (ToSocket sid) "joinConfirmation"
               (JS.Obj [("channelId", JS.Str c);
                        ("success", JS.Bool false);
                        ("error", JS.Str msg)]))
  end.

Definition leaveChannel (channelId : JS.value) : M state unit :=
  log [channelId];;
  try_catch
    (socket_leave sid channelId;;
     set_channels sid (delete_value channelId);;
     emit (ToRoom channelId) "userLeft" (JS.Str sid))
    (λ _, ret tt).

Definition pttStatus (data : JS.value) : M state unit :=
  if negb (JS.truthy data) || negb (JS.truthy (JS.get data "channelId")) then ret tt
  else
    log [JS.get data "channelId"; JS.get data "status"];;
    st ← get;
    if negb (has_value (JS.get data "channelId") (channels_of st sid)) then ret tt
    else
      emit (ToRoom (JS.get data "channelId")) "pttStatus"
        (JS.Obj [("userId", JS.Str sid); ("status", JS.get data "status")]).

(** The rewrite of a bare [/uploads/..] path into a full URL.
    [uri.startsWith] exists only on strings. *)
Definition full_url (st : state) (u : string) : string :=
  let hs := default [] (headers st !! sid) in
  let protocol := header_or "x-forwarded-proto" hs "http" in
  let host := header_or "host" hs
                (header_or "x-forwarded-host" hs ("localhost:" +:+ PORT)) in
  protocol +:+ "://" +:+ host +:+ u.

Definition audioData (data : JS.value) : M state unit :=
  if negb (JS.truthy data) || negb (JS.truthy (JS.get data "channelId")) then ret tt
  else
    log [JS.get data "channelId"];;
    st ← get;
    if negb (has_value (JS.get data "channelId") (channels_of st sid)) then ret tt
    else
      inner ←
        (if JS.truthy (JS.get data "data")
            && JS.truthy (JS.get (JS.get data "data") "uri")
         then
           match JS.get (JS.get data "data") "uri" with
           | JS.Str u =>
               if JS.startsWith "/uploads/" u
               then ret (JS.set (JS.get data "data") "uri" (JS.Str (full_url st u)))
               else ret (JS.get data "data")
           | _ => throw "uri.startsWith is not a function"
           end
         else ret (JS.get data "data"));
      emit (ToRoomExcept (JS.get data "channelId") sid) "audioData"
        (JS.Obj [("userId", JS.Str sid); ("data", inner)]).

Definition ping : M state unit := emit (ToSocket sid) "pong" JS.Undefined.

(** The ['disconnect'] listener; the socket has left its rooms by
    then. *)
Definition disconnect : M state unit :=
  st ← get;
  forEach (channels_of st sid)
    (λ channelId, emit (ToRoom (JS.Str channelId)) "userLeft" (JS.Str sid));;
  set_channels sid (λ _, []).

(** The ['connection'] listener: a fresh empty set. *)
Definition connection (hs : headers_of_request) : M state unit :=
  modify (λ st, mk_state (io st) (<[sid := []]> (userChannels st))
                         (<[sid := hs]> (headers st))).

End listeners.

Definition dispatch (PORT : string) (now : Z) (sid : string) (m : message) : M state unit :=
  match m with
  | JoinChannel v => joinChannel sid v
  | LeaveChannel v => leaveChannel sid v
  | PttStatus v => pttStatus sid v
  | AudioData v => audioData PORT sid v
  | Ping => ping sid
  end.

Definition backend (PORT : string) : server :=
  Server state _ connection (dispatch PORT) disconnect.

End VariantA.

(** ** The single-channel backend

    Rosters are kept in the global object [activeChannels], next to the
    adapter's rooms.  The liveness timer and the ['test'] echo of this
    backend emit nothing to a channel and are left out. *)

Module VariantB.

(** [activeChannels] is a plain object: its own properties in creation
    order, on top of what every object inherits. *)
Record state : Type := mk_state {
  io : SocketIO.state;
  activeChannels : list (string * list string)
}.

#[export] Instance state_io : HasIO state :=
  {| get_io := io; set_io := λ i st, mk_state i (activeChannels st) |}.

Definition init : state := mk_state SocketIO.empty [].

Definition object_prototype : list string :=
  ["constructor"; "hasOwnProperty"; "isPrototypeOf"; "propertyIsEnumerable";
   "toLocaleString"; "toString"; "valueOf"; "__proto__";
   "__defineGetter__"; "__defineSetter__"; "__lookupGetter__"; "__lookupSetter__"].

Inductive slot : Type :=
| Own (ids : list string)
| Inherited          (* a truthy value that is no array *)
| Absent.

Fixpoint own (k : string) (o : list (string * list string)) : option (list string) :=
  match o with
  | [] => None
  | (k', v) :: rest => if String.eqb k k' then Some v else own k rest
  end.

(** [activeChannels[k]] *)
Definition lookup (k : string) (o : list (string * list string)) : slot :=
  match own k o with
  | Some ids => Own ids
  | None => if JS.has k object_prototype then Inherited else Absent
  end.

(** [activeChannels[k] = ids] *)
Fixpoint assign (k : string) (ids : list string) (o : list (string * list string))
  : list (string * list string) :=
  match o with
  | [] => [(k, ids)]
  | (k', v) :: rest =>
      if String.eqb k k' then (k', ids) :: rest else (k', v) :: assign k ids rest
  end.

Definition set_roster (k : string) (ids : list string) : M state unit :=
  modify (λ st, mk_state (io st) (assign k ids (activeChannels st))).

(** The array index a property name stands for, if it is one: the
    canonical decimal of an integer below [2^32 - 1]. *)
Definition digit (a : Ascii.ascii) : option N :=
  let n := Ascii.N_of_ascii a in
  if (48 <=? n)%N && (n <=? 57)%N then Some (n - 48)%N else None.

Fixpoint parse_digits (s : string) (acc : N) : option N :=
  match s with
  | EmptyString => Some acc
  | String a rest =>
      match digit a with
      | Some d => parse_digits rest (10 * acc + d)%N
      | None => None
      end
  end.

Definition array_index (k : string) : option N :=
  match k with
  | EmptyString => None
  | _ =>
      match parse_digits k 0%N with
      | Some n => if String.eqb (pretty n) k && (n <? 4294967295)%N then Some n else None
      | None => None
      end
  end.

(** [Object.keys(o)]: the array indices in ascending order, then the
    other names in the order they were created in. *)
Definition keys (o : list (string * list string)) : list string :=
  (pretty <$> merge_sort N.le (omap array_index o.*1))
  ++ filter (λ k, array_index k = None) o.*1.

Definition roster (k : string) : M state slot :=
  st ← get; ret (lookup k (activeChannels st)).

Section listeners.
(** [Object.keys(socket.rooms)], which depends on the release of the
    library: [socket.rooms] is a [Set] (no enumerable key) in the
    releases that export [Server]. *)
Variable rooms_keys : SocketIO.state → string → list string.
Variable sid : string.

Definition sendConfirmation (channelId : JS.value) (success : bool)
    (errorMsg : JS.value) : M state unit :=
  emit (ToSocket sid) "joinConfirmation"
    (JS.Obj [("channelId", channelId);
             ("success", JS.Bool success);
             ("error", JS.or errorMsg JS.Null)]).

Definition leave_other (room : string) : M state unit :=
  if bool_decide (room ≠ sid) then
    socket_leave sid (JS.Str room);;
    emit (ToRoom (JS.Str room)) "userLeft" (JS.Str sid);;
    r ← roster room;
    match r with
    | Own ids => set_roster room (JS.remove sid ids)
    | Inherited => throw "activeChannels[room].filter is not a function"
    | Absent => ret tt
    end
  else ret tt.

Definition joinChannel (channelId : JS.value) : M state unit :=
  try_catch
    (log [channelId];;
     match valid_channel channelId with
     | None => sendConfirmation channelId false (JS.Str "Invalid channel ID")
     | Some c =>
         st ← get;
         forEach (rooms_keys (io st) sid) leave_other;;
         socket_join sid c;;
         r ← roster c;
         match r with Absent => set_roster c [] | _ => ret tt end;;
         r ← roster c;
         match r with
         | Own ids => if negb (JS.has sid ids) then set_roster c (ids ++ [sid]) else ret tt
         | _ => throw "activeChannels[channelId].includes is not a function"
         end;;
         emit (ToRoom (JS.Str c)) "userJoined" (JS.Str sid);;
         r ← roster c;
         emit (ToSocket sid) "activeUsers"
           (match r with Own ids => users_payload ids | _ => JS.Undefined end);;
         sendConfirmation channelId true JS.Undefined
     end)
    (λ msg,
       emit (ToSocket sid) "joinConfirmation"
         (JS.Obj [("channelId", channelId);
                  ("success", JS.Bool false);
                  ("error", JS.Str msg)])).

Definition leaveChannel (channelId : JS.value) : M state unit :=
  socket_leave sid channelId;;
  name ← coerce channelId;
  emit (ToRoom channelId) "userLeft" (JS.Str sid);;
  r ← roster name;
  match r with
  | Own ids => set_roster name (JS.remove sid ids)
  | Inherited => throw "activeChannels[channelId].filter is not a function"
  | Absent => ret tt
  end.

(** A listener whose parameter is the pattern [{ .. }] throws when it
    is handed [undefined] or [null]. *)
Definition destructure (v : JS.value) (k : M state unit) : M state unit :=
  match v with
  | JS.Undefined | JS.Null => throw "Cannot destructure"
  | _ => k
  end.

Definition audioData (v : JS.value) : M state unit :=
  destructure v
    (let channelId := JS.get v "channelId" in
     let data := JS.get v "data" in
     log [channelId];;
     try_catch
       (if negb (JS.truthy data) || negb (JS.truthy (JS.get data "uri")) then
          emit (ToSocket sid) "audioAck"
            (JS.Obj [("success", JS.Bool false); ("error", JS.Str "Invalid audio data")])
        else
          emit (ToRoom channelId) "pttStatus"
            (JS.Obj [("userId", JS.Str sid); ("status", JS.Bool false)]);;
          setTimeout
            (λ now,
               [Emit (ToRoom channelId) "audioData"
                  (JS.Obj [("userId", JS.Str sid); ("data", data);
                           ("timestamp", JS.Num now)]);
                Emit (ToSocket sid) "audioAck"
                  (JS.Obj [("success", JS.Bool true); ("channelId", channelId);
                           ("timestamp", JS.Num now)])])
            200)
       (λ msg,
          emit (ToSocket sid) "audioAck"
            (JS.Obj [("success", JS.Bool false); ("error", JS.Str msg)]))).

Definition pttStatus (now : Z) (v : JS.value) : M state unit :=
  destructure v
    (let channelId := JS.get v "channelId" in
     let status := JS.get v "status" in
     let message := JS.get v "message" in
     log [channelId; status];;
     try_catch
       ((if JS.is_false status then
           emit (ToRoom channelId) "pttStatus"
             (JS.Obj [("userId", JS.Str sid); ("status", status); ("message", message)]);;
           setTimeout
             (λ later,
                [Emit (ToRoom channelId) "pttStatus"
                   (JS.Obj [("userId", JS.Str sid); ("status", status);
                            ("message", message); ("timestamp", JS.Num later)])])
             200
         else
           emit (ToRoom channelId) "pttStatus"
             (JS.Obj [("userId", JS.Str sid); ("status", status); ("message", message)]));;
        if JS.is_false status then
          emit (ToSocket sid) "pttAck"
            (JS.Obj [("channelId", channelId); ("status", JS.Bool false);
                     ("received", JS.Bool true); ("timestamp", JS.Num now)])
        else ret tt)
       (λ msg,
          emit (ToSocket sid) "pttAck"
            (JS.Obj [("channelId", channelId); ("status", status);
                     ("received", JS.Bool false); ("error", JS.Str msg)]))).

Definition ping : M state unit := emit (ToSocket sid) "pong" JS.Undefined.

Definition leave_roster (channelId : string) : M state unit :=
  r ← roster channelId;
  match r with
  | Own ids =>
      if JS.has sid ids then
        set_roster channelId (JS.remove sid ids);;
        emit (ToRoom (JS.Str channelId)) "userLeft" (JS.Str sid)
      else ret tt
  | _ => throw "activeChannels[channelId].includes is not a function"
  end.

(** The ['disconnect'] listener walks [Object.keys(activeChannels)]. *)
Definition disconnect : M state unit :=
  st ← get;
  forEach (keys (activeChannels st)) leave_roster.

Definition connection (hs : headers_of_request) : M state unit := ret tt.

Definition dispatch (now : Z) (m : message) : M state unit :=
  match m with
  | JoinChannel v => joinChannel v
  | LeaveChannel v => leaveChannel v
  | PttStatus v => pttStatus now v
  | AudioData v => audioData v
  | Ping => ping
  end.

End listeners.

Definition backend (rooms_keys : SocketIO.state → string → list string) : server :=
  Server state _ (λ sid, connection) (λ now sid, dispatch rooms_keys sid now)
         (λ sid, disconnect sid).

(** [Object.keys] of a [Set]. *)
Definition keys_of_set : SocketIO.state → string → list string := λ _ _, [].

End VariantB.

(** ** The media store and its sweeper *)

Module MediaStore.

Definition FILE_MAX_AGE_MS : Z := 4 * 60 * 1000.
Definition CLEANUP_INTERVAL_MS : Z := 60 * 1000.

(** A [Map] in insertion order; the directory listing is kept the same
    way, name and [mtimeMs]. *)
Fixpoint get (k : string) (m : list (string * Z)) : option Z :=
  match m with
  | [] => None
  | (k', v) :: rest => if String.eqb k k' then Some v else get k rest
  end.

Definition has (k : string) (m : list (string * Z)) : bool :=
  match get k m with Some _ => true | None => false end.

Fixpoint set (k : string) (v : Z) (m : list (string * Z)) : list (string * Z) :=
  match m with
  | [] => [(k, v)]
  | (k', v') :: rest =>
      if String.eqb k k' then (k', v) :: rest else (k', v') :: set k v rest
  end.

Fixpoint del (k : string) (m : list (string * Z)) : list (string * Z) :=
  match m with
  | [] => []
  | (k', v') :: rest =>
      if String.eqb k k' then del k rest else (k', v') :: del k rest
  end.

Record state : Type := mk_state {
  uploadedFiles : list (string * Z);   (* file name, tracked creation time *)
  uploads : list (string * Z)          (* the uploads directory: file name, mtimeMs *)
}.

(** What [GET /uploads/<name>] finds. *)
Definition resolve (name : string) (st : state) : option Z := get name (uploads st).

(** A finished upload: the file is on disk with modification time
    [written], and the route handler records [Date.now()]. *)
Definition upload (name : string) (written now : Z) (st : state) : state :=
  mk_state (set name now (uploadedFiles st)) (set name written (uploads st)).

Section sweeper.
(** The files whose [fs.unlinkSync] throws. *)
Variable unlink_fails : string → bool.

(** The body of the first loop, for one tracked entry. *)
Definition expire_tracked (now : Z) (acc : state * Z) (entry : string * Z) : state * Z :=
  let '(st, deletedCount) := acc in
  let '(filename, timestamp) := entry in
  let age := now - timestamp in
  if age >? FILE_MAX_AGE_MS then
    let '(disk, deletedCount) :=
      if has filename (uploads st) then
        if unlink_fails filename then (uploads st, deletedCount)
        else (del filename (uploads st), deletedCount + 1)
      else (uploads st, deletedCount) in
    (mk_state (del filename (uploadedFiles st)) disk, deletedCount)
  else acc.

(** The second loop over the listing [files]; a throwing [unlinkSync]
    leaves the loop through the enclosing [catch]. *)
Fixpoint scan_untracked (now : Z) (files : list string) (acc : state * Z) : state * Z :=
  match files with
  | [] => acc
  | file :: rest =>
      let '(st, deletedCount) := acc in
      if has file (uploadedFiles st) then scan_untracked now rest acc
      else
        match get file (uploads st) with
        | None => acc      (* [statSync] throws: the file is gone *)
        | Some mtimeMs =>
            let fileAge := now - mtimeMs in
            if fileAge >? FILE_MAX_AGE_MS then
              if unlink_fails file then acc
              else scan_untracked now rest
                     (mk_state (uploadedFiles st) (del file (uploads st)),
                      deletedCount + 1)
            else scan_untracked now rest
                   (mk_state (set file mtimeMs (uploadedFiles st)) (uploads st),
                    deletedCount)
        end
  end.

(** [cleanupOldFiles()] run while [Date.now()] is [now]: the state it
    leaves and its [deletedCount]. *)
Definition cleanupOldFiles (now : Z) (st : state) : state * Z :=
  let acc := foldl (expire_tracked now) (st, 0) (uploadedFiles st) in
  scan_untracked now (uploads acc.1).*1 acc.

Definition sweep (now : Z) (st : state) : state := (cleanupOldFiles now st).1.

(** The life of the store: uploads and timer-driven sweeps. *)
Inductive op : Type :=
| Upload (name : string) (written now : Z)
| Sweep (now : Z).

Definition apply (st : state) (o : op) : state :=
  match o with
  | Upload name written now => upload name written now st
  | Sweep now => sweep now st
  end.

Definition history (ops : list op) (st : state) : state := foldl apply st ops.

End sweeper.

(** The instants [first], [first + CLEANUP_INTERVAL_MS], .. at which
    the interval timer has run the sweeper by the instant [until]. *)
Definition ticks (first until : Z) : list Z :=
  map (λ k : nat, first + Z.of_nat k * CLEANUP_INTERVAL_MS)
      (seq 0 (Z.to_nat ((until - first) / CLEANUP_INTERVAL_MS + 1))).

End MediaStore.

(** ** Reachable states and their invariants *)

(** The states a server can be in: those some sequence of inputs leads
    to from the initial state. *)
Definition reachable (S : server) (init st : St S) : Prop :=
  ∃ inputs, store (run (boot init) inputs).1 = st.

Module InvA.
Import VariantA.

(** Bidirectional consistency of rooms and joined channels, and the
    shape of the adapter's tables. *)
Record wf (st : state) : Prop := Wf {
  wf_joined : ∀ sid c, c ∈ channels_of st sid → sid ∈ members (io st) c;
  wf_rooms : ∀ sid c, sid ∈ members (io st) c → c = sid ∨ c ∈ channels_of st sid;
  wf_nodup : ∀ c, NoDup (members (io st) c);
  wf_live : ∀ sid c, sid ∈ members (io st) c → sid ∈ connected (io st);
  wf_nonempty : ∀ c, rooms (io st) !! c ≠ Some [];
  wf_channels : ∀ sid, NoDup (channels_of st sid);
  wf_named : ∀ sid c, c ∈ channels_of st sid → c ≠ "";
  wf_entry : ∀ sid, sid ∈ connected (io st) → is_Some (userChannels st !! sid)
}.

(** The state right after a first join, and the payload of a success
    confirmation. *)
Definition joined_state (st : state) (sid c : string) : state :=
  mk_state (SocketIO.join sid c (io st))
    (<[sid := JS.add c (channels_of st sid)]> (userChannels st)) (headers st).

Definition confirmation (c : string) : JS.value :=
  JS.Obj [("channelId", JS.Str c); ("success", JS.Bool true)].

(** What a repeated join sends back to the connection. *)
Definition rejoin_reply (i : SocketIO.state) (sid c : string) : list packet :=
  [Packet (Emit (ToSocket sid) "joinConfirmation" (confirmation c)) [sid];
   Packet (Emit (ToSocket sid) "activeUsers" (users_payload (members i c))) [sid]].

End InvA.

(** A request is rejected when the listener returns normally and leaves
    the state as it was, with nothing sent and nothing scheduled. *)
Definition rejected {St : Type} (o : outcome St unit) (st : St) : Prop :=
  o = Outcome (Normal tt) st [] [].

Module InvB.
Import VariantB.

(** What the ['disconnect'] listener makes of the roster table: the
    closing connection is filtered out of every roster. *)
Definition purged (sid : string) (o : list (string * list string))
  : list (string * list string) :=
  map (λ e, (e.1, JS.remove sid e.2)) o.

(** The channels whose roster lists the connection, in the order in
    which [Object.keys] lists them. *)
Definition listed_in (sid : string) (o : list (string * list string)) : list string :=
  filter (λ k, sid ∈ default [] (own k o)) (keys o).

(** The table once the walk has visited the names [ks]. *)
Definition purged_at (sid : string) (ks : list string) (o : list (string * list string))
  : list (string * list string) :=
  map (λ e, if bool_decide (e.1 ∈ ks) then (e.1, JS.remove sid e.2) else e) o.

End InvB.

(** ** Vocabulary for the media store *)

Module StoreSpec.
Import MediaStore.

(** No name is listed twice, in the tracking map or in the directory. *)
Definition wf (st : state) : Prop :=
  NoDup (uploadedFiles st).*1 ∧ NoDup (uploads st).*1.

(** Whether one of the tracked entries [es] for [f] is past the
    maximal age at [now]. *)
Definition expired_in (now : Z) (f : string) (es : list (string * Z)) : bool :=
  existsb (λ e, String.eqb f e.1 && (now - e.2 >? FILE_MAX_AGE_MS)) es.

(** What a sweep at [now] decides for a file with modification time
    [mtime], tracked since [tracked] if at all: is it kept? *)
Definition kept (now : Z) (tracked : option Z) (mtime : Z) : bool :=
  match tracked with
  | Some timestamp => negb (now - timestamp >? FILE_MAX_AGE_MS)
  | None => negb (now - mtime >? FILE_MAX_AGE_MS)
  end.

(** The object [f], recorded at [t0] with modification time [mtime],
    is either still stored and tracked as it was, or gone for good. *)
Definition stored (f : string) (t0 mtime : Z) (st : state) : Prop :=
  get f (uploadedFiles st) = Some t0 ∧ resolve f st = Some mtime.
Definition gone (f : string) (st : state) : Prop :=
  get f (uploadedFiles st) = None ∧ resolve f st = None.

(** [f] is not uploaded a second time (names are unique). *)
Definition never_reuploaded (f : string) (ops : list op) : Prop :=
  ∀ written now, Upload f written now ∉ ops.

(** What the second loop decides for a listed file [f], given its
    tracked time and its modification time before the loop: the
    modification time if the file stays, the tracked time afterwards. *)
Definition if_young (now m : Z) : option Z :=
  if now - m >? FILE_MAX_AGE_MS then None else Some m.
Definition scanned_disk (now : Z) (tracked mtime : option Z) : option Z :=
  match tracked with
  | Some _ => mtime
  | None => mtime ≫= if_young now
  end.
Definition scanned_tracking (now : Z) (tracked mtime : option Z) : option Z :=
  match tracked with
  | Some timestamp => Some timestamp
  | None => mtime ≫= if_young now
  end.

End StoreSpec.

(** How often a listener emits the event [ev]: at once, and from the
    callbacks it registers (their emissions do not depend on the instant
    they fire at, only their time stamps do). *)
Definition times_emitted {St : Type} (ev : string) (o : outcome St unit) : nat :=
  length (filter (λ e, event e = ev)
            (emissions (sent o) ++ concat (map (λ c : callback, c.2 c.1) (timers o)))).

(** [n] [joinChannel] requests of one connection for one channel, one
    after the other: the state they lead to and all they send. *)
Fixpoint join_repeatedly (n : nat) (sid : string) (v : JS.value)
    (st : VariantA.state) : VariantA.state * list packet :=
  match n with
  | O => (st, [])
  | S n =>
      let o := VariantA.joinChannel sid v st in
      let '(st', ps) := join_repeatedly n sid v (next o) in
      (st', sent o ++ ps)
  end.

(** ** A small session used to exercise the statements *)

Module Demo.

Definition channel : string := "freq-446.00".

Definition arrivals : list (Z * input) :=
  [(0, Connect "A" [("host", "relay.example:8080")]);
   (1, Connect "B" [("host", "relay.example:8080")])].

Definition a_joined : list (Z * input) :=
  arrivals ++ [(2, Message "A" (JoinChannel (JS.Str channel)))].

Definition both_joined : list (Z * input) :=
  a_joined ++ [(500, Message "B" (JoinChannel (JS.Str channel)))].

Definition multi (inputs : list (Z * input)) : world (VariantA.backend "8080") :=
  (run (boot (S := VariantA.backend "8080") VariantA.init) inputs).1.

Definition single (inputs : list (Z * input))
  : world (VariantB.backend VariantB.keys_of_set) :=
  (run (boot (S := VariantB.backend VariantB.keys_of_set) VariantB.init) inputs).1.

Definition ptt (active : bool) : JS.value :=
  JS.Obj [("channelId", JS.Str channel); ("status", JS.Bool active)].

Definition audio : JS.value :=
  JS.Obj [("channelId", JS.Str channel);
          ("data", JS.Obj [("uri", JS.Str "/uploads/1700000000000-42.m4a")])].

(** A store holding one object, uploaded at instant 0, on a disk whose
    [unlinkSync] never fails. *)
Definition no_failure : string → bool := λ _, false.
Definition one_upload : MediaStore.state :=
  MediaStore.upload "0-42.m4a" 0 0 (MediaStore.mk_state [] []).

End Demo.

(** ** The second cleaner of the multi-channel backend

    [cleanupOldAudioFiles] works on the same directory as the sweeper
    (which the server creates when it starts), looks at [.m4a] files
    only, goes by modification time, and knows nothing of the tracking
    map. *)

Module AudioCleanup.
Import MediaStore.

(** [s.endsWith(suffix)] *)
Definition endsWith (suffix s : string) : bool :=
  let n := String.length s in
  let k := String.length suffix in
  (k <=? n)%nat && String.eqb (String.substring (n - k) k s) suffix.

Definition maxAge : Z := 10 * 60 * 1000.

Section cleaner.
Variable unlink_fails : string → bool.

(** [files.forEach(file => ..)] on the directory [disk]; a throwing
    [statSync] or [unlinkSync] leaves the loop through the enclosing
    [catch]. *)
Fixpoint forEach_file (now : Z) (files : list string) (acc : list (string * Z) * Z)
  : list (string * Z) * Z :=
  match files with
  | [] => acc
  | file :: rest =>
      let '(disk, deletedCount) := acc in
      if endsWith ".m4a" file then
        match get file disk with
        | None => acc
        | Some mtimeMs =>
            let fileAge := now - mtimeMs in
            if fileAge >? maxAge then
              if unlink_fails file then acc
              else forEach_file now rest (del file disk, deletedCount + 1)
            else forEach_file now rest acc
        end
      else forEach_file now rest acc
  end.

Definition cleanupOldAudioFiles (now : Z) (st : state) : state * Z :=
  let r := forEach_file now (uploads st).*1 (uploads st, 0) in
  (mk_state (uploadedFiles st) r.1, r.2).

End cleaner.

End AudioCleanup.

(** ** The upload route of the multi-channel backend *)

Module UploadRoute.

(** What [multer] hands to the route's callback: an error, no file, or
    the file it has written under [filename]. *)
Inductive multer_result : Type :=
| MulterError (message : string)
| NoFile
| Stored (filename : string) (size written : Z).

Record response : Type := Response {
  status : Z;
  body : JS.value
}.

Section route.
Variable PORT : string.

(** [`${protocol}://${host}${filePath}`] for the request headers
    [headers]. *)
Definition fileUrl (headers : headers_of_request) (filePath : string) : string :=
  let protocol := header_or "x-forwarded-proto" headers "http" in
  let host := header_or "host" headers
                (header_or "x-forwarded-host" headers ("localhost:" +:+ PORT)) in
  protocol +:+ "://" +:+ host +:+ filePath.

(** [POST /upload]: [requestStartTime], [now] and [finished] are the
    three later readings of [Date.now()]. *)
Definition upload (headers : headers_of_request) (r : multer_result)
    (requestStartTime now finished : Z) (requestId : string)
    (st : MediaStore.state) : response * MediaStore.state :=
  match r with
  | MulterError msg =>
      (Response 400 (JS.Obj [("success", JS.Bool false); ("error", JS.Str msg)]), st)
  | NoFile =>
      (Response 400 (JS.Obj [("success", JS.Bool false);
                             ("error", JS.Str "No file uploaded")]), st)
  | Stored filename size written =>
      let filePath := "/uploads/" +:+ filename in
      (Response 200
         (JS.Obj [("success", JS.Bool true);
                  ("fileUrl", JS.Str (fileUrl headers filePath));
                  ("filePath", JS.Str filePath);
                  ("fileName", JS.Str filename);
                  ("fileSize", JS.Num size);
                  ("processingTime", JS.Num (finished - requestStartTime));
                  ("requestId", JS.Str requestId)]),
       MediaStore.upload filename written now st)
  end.

End route.

End UploadRoute.

(** ** The health check of the single-channel backend

    Each connection remembers when it was last heard from; a timer looks
    every 30 s and closes the connection after more than 60 s of
    silence. *)

Module Health.

Record conn : Type := Conn {
  lastActivity : Z;
  connected : bool
}.

Definition CHECK_INTERVAL_MS : Z := 30000.

(** The connection at [Date.now() = t0]. *)
Definition accept (t0 : Z) : conn := Conn t0 true.

(** [updateActivity], run for any message that comes in. *)
Definition updateActivity (now : Z) (c : conn) : conn :=
  Conn now (connected c).

(** One run of the interval callback; once the socket is closed the
    ['disconnect'] listener clears the interval. *)
Definition healthCheck (now : Z) (c : conn) : conn :=
  if connected c then
    let inactiveTime := now - lastActivity c in
    if inactiveTime >? 60000 then Conn (lastActivity c) false else c
  else c.

Inductive event : Type :=
| Incoming (now : Z)
| Check (now : Z).

Definition time_of (e : event) : Z :=
  match e with Incoming t | Check t => t end.

Definition handle (c : conn) (e : event) : conn :=
  match e with
  | Incoming now => updateActivity now c
  | Check now => healthCheck now c
  end.

Definition life (events : list event) (c : conn) : conn := foldl handle c events.

(** Events come in the order of their instants, none before [from]. *)
Fixpoint ordered (from : Z) (events : list event) : Prop :=
  match events with
  | [] => True
  | e :: rest => from ≤ time_of e ∧ ordered (time_of e) rest
  end.

(** The instants at which the timer of a connection accepted at [t0]
    has fired by [until]. *)
Definition checks (t0 until : Z) : list Z :=
  map (λ k : nat, t0 + Z.of_nat (S k) * CHECK_INTERVAL_MS)
      (seq 0 (Z.to_nat ((until - t0) / CHECK_INTERVAL_MS))).

End Health.

(** ** The client's channel bookkeeping ([SocketService]) *)

Module Client.

(** [joinChannel(channelId)] while the socket is connected or not, with
    [currentChannel] before and after, and the messages it emits. *)
Definition joinChannel (connected : bool) (channelId : string)
    (currentChannel : option string) : list message * option string :=
  if bool_decide (currentChannel = Some channelId) then ([], currentChannel)
  else if connected then
    ((match currentChannel with
      | Some previous =>
          if String.eqb previous "" then [] else [LeaveChannel (JS.Str previous)]
      | None => []
      end) ++ [JoinChannel (JS.Str channelId)],
     Some channelId)
  else ([], currentChannel).

Definition leaveChannel (connected : bool) (channelId : string)
    (currentChannel : option string) : list message * option string :=
  if connected then
    ([LeaveChannel (JS.Str channelId)],
     if bool_decide (currentChannel = Some channelId) then None else currentChannel)
  else ([], currentChannel).

Inductive call : Type :=
| Join (channelId : string)
| Leave (channelId : string).

Definition perform (connected : bool) (c : call) (currentChannel : option string)
  : list message * option string :=
  match c with
  | Join channelId => joinChannel connected channelId currentChannel
  | Leave channelId => leaveChannel connected channelId currentChannel
  end.

(** A connected client makes the calls [cs] one after the other, and
    the multi-channel backend handles what each of them emits. *)
Fixpoint session (PORT : string) (now : Z) (sid : string) (cs : list call)
    (acc : option string * VariantA.state) : option string * VariantA.state :=
  match cs with
  | [] => acc
  | c :: rest =>
      let '(msgs, current) := perform true c acc.1 in
      session PORT now sid rest
        (current,
         foldl (λ st m, next (VariantA.dispatch PORT now sid m st)) acc.2 msgs)
  end.

End Client.

(** ** Vocabulary for the further properties *)

(** An [audioData] payload whose [data.uri] is absent, falsy, or a
    string; and the inputs whose fields, where a listener of the
    multi-channel backend prints them, coerce to strings, and whose [uri]
    is of that kind. *)
Definition uri_usable (data : JS.value) : bool :=
  let uri := JS.get (JS.get data "data") "uri" in
  negb (JS.truthy uri) || JS.is_string uri.

Definition harmless (i : input) : bool :=
  match i with
  | Message _ (JoinChannel v) | Message _ (LeaveChannel v) => JS.coercible v
  | Message _ (PttStatus data) =>
      JS.coercible (JS.get data "channelId") && JS.coercible (JS.get data "status")
  | Message _ (AudioData data) =>
      JS.coercible (JS.get data "channelId") && uri_usable data
  | _ => true
  end.

(** The connection an input comes from. *)
Definition origin (i : input) : option string :=
  match i with
  | Connect sid _ | Message sid _ | Close sid => Some sid
  | Idle => None
  end.

(** What the single-channel backend keeps true of its roster table. *)
Module RosterInv.
Import VariantB.

Record wf (st : state) : Prop := Wf {
  keys_nodup : NoDup (activeChannels st).*1;
  keys_plain : ∀ k, k ∈ (activeChannels st).*1 → k ∉ object_prototype;
  roster_nodup : ∀ k ids, own k (activeChannels st) = Some ids → NoDup ids;
  roster_room : ∀ k ids sid,
    own k (activeChannels st) = Some ids → sid ∈ ids → sid ∈ members (io st) k;
  room_live : ∀ sid c, sid ∈ members (io st) c → sid ∈ connected (io st)
}.

(** The roster table after [joinChannel] and after [leaveChannel]. *)
Definition joined (sid c : string) (o : list (string * list string))
  : list (string * list string) :=
  match lookup c o with
  | Absent => assign c [sid] o
  | Own ids => if JS.has sid ids then o else assign c (ids ++ [sid]) o
  | Inherited => o
  end.

Definition left (sid k : string) (o : list (string * list string))
  : list (string * list string) :=
  match lookup k o with
  | Own ids => assign k (JS.remove sid ids) o
  | _ => o
  end.

End RosterInv.

(** * Properties *)

(** ** Sets and rooms *)

Section js_sets.
Implicit Types (x y : string) (s : list string).

Lemma has_true x s : JS.has x s = true ↔ x ∈ s.
Proof. unfold JS.has. apply bool_decide_eq_true. Qed.

Lemma has_false x s : JS.has x s = false ↔ x ∉ s.
Proof. unfold JS.has. apply bool_decide_eq_false. Qed.

Lemma elem_of_add x y s : x ∈ JS.add y s ↔ x = y ∨ x ∈ s.
Proof.
  unfold JS.add. destruct (JS.has y s) eqn:E.
  - apply has_true in E. split; [auto | intros [->|]; auto].
  - rewrite elem_of_app, list_elem_of_singleton. tauto.
Qed.

Lemma NoDup_add y s : NoDup s → NoDup (JS.add y s).
Proof.
  intros Hs. unfold JS.add. destruct (JS.has y s) eqn:E; [done|].
  apply has_false in E. apply NoDup_app. split_and!; [done | | apply NoDup_singleton].
  intros x Hx ->%list_elem_of_singleton. done.
Qed.

Lemma add_member y s : y ∈ s → JS.add y s = s.
Proof. intros Hy. unfold JS.add. apply has_true in Hy. by rewrite Hy. Qed.

Lemma elem_of_remove x y s : x ∈ JS.remove y s ↔ x ≠ y ∧ x ∈ s.
Proof. unfold JS.remove. by rewrite list_elem_of_filter. Qed.

Lemma NoDup_remove y s : NoDup s → NoDup (JS.remove y s).
Proof. apply NoDup_filter. Qed.

Lemma remove_absent y s : y ∉ s → JS.remove y s = s.
Proof.
  unfold JS.remove. induction s as [|a s IH]; [done|].
  intros Hy. apply not_elem_of_cons in Hy as [Hne Hy].
  rewrite filter_cons_True by congruence. f_equal. auto.
Qed.

Lemma not_elem_of_remove y s : y ∉ JS.remove y s.
Proof. rewrite elem_of_remove. tauto. Qed.

Lemma remove_nil_inv y s : JS.remove y s = [] → ∀ x, x ∈ s → x = y.
Proof.
  intros E x Hx. destruct (decide (x = y)) as [|Hne]; [done|].
  assert (x ∈ JS.remove y s) as Hin by (apply elem_of_remove; done).
  rewrite E in Hin. by apply elem_of_nil in Hin.
Qed.

End js_sets.

Section rooms.
Implicit Types (st : SocketIO.state) (sid room r : string).

Lemma members_join sid room st r :
  members (SocketIO.join sid room st) r =
  if decide (room = r) then JS.add sid (members st room) else members st r.
Proof.
  unfold members at 1, SocketIO.join; simpl.
  rewrite lookup_insert. by case_decide.
Qed.

Lemma connected_join sid room st :
  connected (SocketIO.join sid room st) = connected st.
Proof. done. Qed.

Lemma members_leave sid room st r :
  members (SocketIO.leave sid room st) r =
  if decide (room = r) then JS.remove sid (members st room) else members st r.
Proof.
  unfold SocketIO.leave, members.
  destruct (rooms st !! room) as [l|] eqn:E; simpl.
  - destruct (JS.remove sid l) as [|a l'] eqn:El; simpl.
    + rewrite lookup_delete. by case_decide.
    + rewrite lookup_insert. by case_decide.
  - case_decide as Hr; [|done]. subst r. by rewrite E.
Qed.

Lemma connected_leave sid room st :
  connected (SocketIO.leave sid room st) = connected st.
Proof. unfold SocketIO.leave. by destruct (rooms st !! room). Qed.

Lemma members_disconnect sid st r :
  members (SocketIO.disconnect sid st) r = JS.remove sid (members st r).
Proof.
  unfold SocketIO.disconnect, members; simpl.
  rewrite lookup_omap. destruct (rooms st !! r) as [l|]; simpl; [|done].
  by destruct (JS.remove sid l).
Qed.

Lemma members_connect sid st r :
  members (SocketIO.connect sid st) r =
  if decide (sid = r) then JS.add sid (members st sid) else members st r.
Proof. unfold SocketIO.connect. apply members_join. Qed.

End rooms.

(** ** The handler monad *)

Section monad_facts.
Context {St : Type} `{HasIO St}.

Lemma forEach_emits {A} (xs : list A) (t : A → target) (ev : A → string)
    (p : A → JS.value) (st : St) :
  forEach xs (λ x, emit (t x) (ev x) (p x)) st =
  Outcome (Normal tt) st
    (map (λ x, Packet (Emit (t x) (ev x) (p x)) (recipients (get_io st) (t x))) xs) [].
Proof.
  induction xs as [|x xs IH]; [done|].
  cbn [forEach]. unfold bind. cbn. rewrite IH. done.
Qed.

Lemma outcome_eta {A} (o : outcome St A) :
  Outcome (result o) (next o) (sent o) (timers o) = o.
Proof. by destruct o. Qed.

Lemma bind_ret {A B} (a : A) (k : A → M St B) st : bind (ret a) k st = k a st.
Proof. unfold bind, ret. cbn. apply outcome_eta. Qed.

Lemma bind_get {B} (k : St → M St B) st : bind get k st = k st st.
Proof. unfold bind, get. cbn. apply outcome_eta. Qed.

Lemma bind_modify {B} (f : St → St) (k : unit → M St B) st :
  bind (modify f) k st = k tt (f st).
Proof. unfold bind, modify. cbn. apply outcome_eta. Qed.

Lemma bind_emit {B} t ev p (k : unit → M St B) st :
  bind (emit t ev p) k st =
  Outcome (result (k tt st)) (next (k tt st))
    (Packet (Emit t ev p) (recipients (get_io st) t) :: sent (k tt st))
    (timers (k tt st)).
Proof. done. Qed.

Lemma bind_throw {A B} msg (k : A → M St B) st :
  bind (throw msg) k st = Outcome (Thrown msg) st [] [].
Proof. done. Qed.

Lemma bind_assoc {A B C} (m : M St A) (k1 : A → M St B) (k2 : B → M St C) st :
  bind (bind m k1) k2 st = bind m (λ a, bind (k1 a) k2) st.
Proof.
  unfold bind. destruct (m st) as [[a|msg] st1 ps1 ts1]; cbn; [|done].
  destruct (k1 a st1) as [[b|msg] st2 ps2 ts2]; cbn; [|done].
  by rewrite !app_assoc.
Qed.

Lemma try_catch_normal {A} (m : M St A) h st a :
  result (m st) = Normal a → try_catch m h st = m st.
Proof. intros E. unfold try_catch. by rewrite E. Qed.

Lemma bind_coerce {B} v s (k : string → M St B) st :
  JS.to_String v = Some s → bind (coerce v) k st = k s st.
Proof. intros E. unfold coerce. rewrite E. apply bind_ret. Qed.

Lemma bind_coerce_throws {B} v (k : string → M St B) st :
  JS.to_String v = None →
  bind (coerce v) k st = Outcome (Thrown "Cannot convert object to primitive value") st [] [].
Proof. intros E. unfold coerce. by rewrite E. Qed.

Lemma coercible_Some v : JS.coercible v = true ↔ is_Some (JS.to_String v).
Proof.
  unfold JS.coercible. destruct (JS.to_String v); split; (done || eauto || by intros []).
Qed.

Lemma coercible_None v : JS.coercible v = false ↔ JS.to_String v = None.
Proof. unfold JS.coercible. by destruct (JS.to_String v). Qed.

Lemma log_prints vs (st : St) :
  forallb JS.coercible vs = true → log vs st = Outcome (Normal tt) st [] [].
Proof.
  induction vs as [|v vs IH]; [done|]. cbn [forallb log].
  intros [Hv Hvs]%andb_true_iff. apply coercible_Some in Hv as [s Es].
  rewrite (bind_coerce _ _ _ _ Es). auto.
Qed.

Lemma log_throws vs (st : St) :
  forallb JS.coercible vs = false →
  log vs st = Outcome (Thrown "Cannot convert object to primitive value") st [] [].
Proof.
  induction vs as [|v vs IH]; [done|]. cbn [forallb log].
  destruct (JS.coercible v) eqn:Ev; cbn [andb].
  - apply coercible_Some in Ev as [s Es]. rewrite (bind_coerce _ _ _ _ Es). auto.
  - intros _. apply coercible_None in Ev. by rewrite bind_coerce_throws.
Qed.

Lemma bind_log {B} vs (k : unit → M St B) st :
  forallb JS.coercible vs = true → bind (log vs) k st = k tt st.
Proof.
  intros E. unfold bind at 1. rewrite (log_prints _ _ E). cbn. apply outcome_eta.
Qed.

Lemma bind_log_throws {B} vs (k : unit → M St B) st :
  forallb JS.coercible vs = false →
  bind (log vs) k st = Outcome (Thrown "Cannot convert object to primitive value") st [] [].
Proof. intros E. unfold bind. by rewrite (log_throws _ _ E). Qed.

End monad_facts.

(** ** The event loop: callbacks fire after the listener that set them *)

Section loop_facts.
Context {S : server}.
Implicit Types (w : world S) (q : list (Z * (Z → list emission))).

Lemma elem_of_schedule due f q c :
  c ∈ schedule due f q ↔ c = (due, f) ∨ c ∈ q.
Proof.
  induction q as [|[d g] q IH]; simpl.
  - rewrite list_elem_of_singleton, elem_of_nil. tauto.
  - destruct (d <=? due); rewrite !elem_of_cons; [rewrite IH|]; tauto.
Qed.

Lemma elem_of_schedule_all now cs q c :
  c ∈ schedule_all now cs q ↔ (∃ d f, (d, f) ∈ cs ∧ c = (now + d, f)) ∨ c ∈ q.
Proof.
  unfold schedule_all. revert q. induction cs as [|[d f] cs IH]; intros q; simpl.
  - split; [auto | intros [(? & ? & []%elem_of_nil & _)|]; done].
  - rewrite IH, elem_of_schedule. split.
    + intros [(d' & f' & Hin & ->)|[->|Hq]]; [left|left|by right].
      * exists d', f'. split; [by right | done].
      * exists d, f. split; [by left | done].
    + intros [(d' & f' & Hin & ->)|Hq]; [|by right; right].
      apply elem_of_cons in Hin as [[= -> ->]|Hin]; [right; by left|].
      left. by exists d', f'.
Qed.

Lemma step_message w t sid m :
  crashed w = false → sid ∈ connected (get_io (store w)) →
  step w (t, Message sid m) =
  let now := Z.max (clock w) t in
  let o := on_message S now sid m (store w) in
  (World now (next o)
     (schedule_all now (timers o) (due_by now (pending w)).2)
     (match result o with Thrown _ => true | Normal _ => false end),
   concat (map (fire (store w)) (due_by now (pending w)).1)
     ++ map (λ p, (now, p)) (sent o)).
Proof.
  intros Hc Hs. unfold step. rewrite Hc. simpl.
  apply has_true in Hs. by rewrite Hs.
Qed.

Lemma step_keeps_pending w ti c :
  c ∈ pending w → Z.max (clock w) ti.1 < c.1 →
  c ∈ pending (step w ti).1 ∧ clock (step w ti).1 < c.1.
Proof.
  intros Hin Hlt. unfold step. destruct (crashed w); [simpl; split; [done|lia]|].
  simpl. assert (c ∈ filter (λ c, ¬ c.1 ≤ Z.max (clock w) ti.1) (pending w)) as Hl
    by (apply list_elem_of_filter; split; [lia|done]).
  destruct (listener _ _ _); simpl; (split; [|lia]); [|done].
  apply elem_of_schedule_all. by right.
Qed.

Lemma run_keeps_pending mids w c :
  c ∈ pending w → clock w < c.1 → Forall (λ ti, ti.1 < c.1) mids →
  c ∈ pending (run w mids).1 ∧ clock (run w mids).1 < c.1.
Proof.
  revert w. induction mids as [|ti mids IH]; intros w Hin Hlt Hall; [done|].
  apply Forall_cons in Hall as [Hti Hall]. simpl.
  assert (clock w `max` ti.1 < c.1) as Hmax by lia.
  destruct (step_keeps_pending w ti c Hin Hmax) as [Hin1 Hlt1].
  destruct (step w ti) as [w1 tr1]. simpl in *.
  specialize (IH w1 Hin1 Hlt1 Hall). by destruct (run w1 mids).
Qed.

Lemma step_fires w ti c :
  crashed w = false → c ∈ pending w → c.1 ≤ Z.max (clock w) ti.1 →
  ∃ pre post, (step w ti).2 = pre ++ fire (store w) c ++ post.
Proof.
  intros Hc Hin Hdue. unfold step. rewrite Hc. simpl.
  assert (c ∈ filter (λ c, c.1 ≤ Z.max (clock w) ti.1) (pending w)) as Hl
    by (apply list_elem_of_filter; done).
  apply list_elem_of_split in Hl as (l1 & l2 & ->).
  rewrite map_app, concat_app. simpl.
  destruct (listener _ _ _) as [o|]; simpl.
  - exists (concat (map (fire (store w)) l1)),
           (concat (map (fire (store w)) l2) ++ map (λ p, (Z.max (clock w) ti.1, p)) (sent o)).
    by rewrite <- !app_assoc.
  - by eexists _, _.
Qed.

Lemma run_cons w ti rest :
  run w (ti :: rest) =
  ((run (step w ti).1 rest).1, (step w ti).2 ++ (run (step w ti).1 rest).2).
Proof. simpl. destruct (step w ti) as [w1 tr1]. simpl. by destruct (run w1 rest). Qed.

Lemma run_app w l1 l2 :
  run w (l1 ++ l2) =
  ((run (run w l1).1 l2).1, (run w l1).2 ++ (run (run w l1).1 l2).2).
Proof.
  revert w. induction l1 as [|ti l1 IH]; intros w; simpl.
  - by destruct (run w l2).
  - destruct (step w ti) as [w1 tr1]. rewrite IH.
    destruct (run w1 l1) as [w2 tr2]. simpl.
    destruct (run w2 l2) as [w3 tr3]. simpl. by rewrite app_assoc.
Qed.

(** A callback set by a listener fires after everything that listener
    sent, whatever happens in between, as long as the process lives. *)
Lemma callback_fires_after w t sid m mids t2 i2 d f :
  let now := Z.max (clock w) t in
  let o := on_message S now sid m (store w) in
  let w' := (run (step w (t, Message sid m)).1 mids).1 in
  crashed w = false → sid ∈ connected (get_io (store w)) →
  (d, f) ∈ timers o → 0 < d →
  Forall (λ ti, ti.1 < now + d) mids → crashed w' = false → now + d ≤ t2 →
  ∃ old pre post,
    (run w ((t, Message sid m) :: mids ++ [(t2, i2)])).2 =
    old ++ map (λ p, (now, p)) (sent o) ++ pre ++ fire (store w') (now + d, f) ++ post.
Proof.
  intros now o w' Hc Hs Hin Hd Hmids Hc' Ht2. subst w'.
  rewrite run_cons, run_app, run_cons. cbn [run fst snd].
  pose proof (step_message w t sid m Hc Hs) as Hstep. cbv zeta in Hstep.
  destruct (step w (t, Message sid m)) as [w1 tr1]. cbn [fst snd] in *.
  injection Hstep as Hw1 Htr1.
  assert ((now + d, f) ∈ pending w1) as Hp.
  { rewrite Hw1. cbn [pending]. apply elem_of_schedule_all. left. by exists d, f. }
  assert (clock w1 < (now + d, f).1) as Hlt1 by (rewrite Hw1; cbn [clock fst]; lia).
  clear Hw1.
  destruct (run_keeps_pending mids w1 (now + d, f) Hp Hlt1 Hmids) as [Hp' Hlt'].
  assert ((now + d, f).1 ≤ clock (run w1 mids).1 `max` (t2, i2).1) as Hdue
    by (cbn [fst] in *; lia).
  destruct (step_fires (run w1 mids).1 (t2, i2) (now + d, f) Hc' Hp' Hdue)
    as (pre & post & E).
  rewrite E, Htr1.
  exists (concat (map (fire (store w)) (due_by now (pending w)).1)),
         ((run w1 mids).2 ++ pre), post.
  rewrite app_nil_r. by rewrite <- !app_assoc.
Qed.

End loop_facts.

(** ** Invariants of the multi-channel backend *)

Section invariant_a.
Import VariantA InvA.
Implicit Types (st : VariantA.state) (sid c : string).

Lemma channels_of_insert st sid l s io' hs' :
  channels_of (VariantA.mk_state io' (<[sid := l]> (userChannels st)) hs') s =
  if decide (sid = s) then l else channels_of st s.
Proof.
  unfold channels_of; simpl. rewrite lookup_insert. by case_decide.
Qed.

Lemma wf_init : wf VariantA.init.
Proof.
  split; unfold channels_of, members; simpl; intros *;
    rewrite ?lookup_empty; simpl;
    try (intros ?%elem_of_nil; done); try done; try apply NoDup_nil_2.
Qed.

Lemma members_nonempty_lookup (i : SocketIO.state) c x :
  x ∈ members i c → is_Some (rooms i !! c).
Proof.
  unfold members. destruct (rooms i !! c); simpl; [eauto|].
  by intros ?%elem_of_nil.
Qed.

(** The state change of a first join. *)
Lemma wf_join st sid c :
  wf st → sid ∈ connected (io st) → c ≠ "" →
  wf (VariantA.mk_state (SocketIO.join sid c (io st))
        (<[sid := JS.add c (channels_of st sid)]> (userChannels st)) (headers st)).
Proof.
  intros [W1 W2 W3 W4 W5 W6 W8 W7] Hconn Hc. split; simpl.
  - intros s c'. rewrite channels_of_insert, members_join.
    repeat case_decide; subst; rewrite ?elem_of_add; naive_solver.
  - intros s c'. rewrite channels_of_insert, members_join.
    repeat case_decide; subst; rewrite ?elem_of_add; naive_solver.
  - intros c'. rewrite members_join. case_decide; [apply NoDup_add|]; auto.
  - intros s c'. rewrite members_join.
    case_decide; subst; rewrite ?elem_of_add; naive_solver.
  - intros c'. rewrite lookup_insert. case_decide; [|apply W5].
    intros [= E]. assert (sid ∈ JS.add sid (members (io st) c)) as Hin
      by (apply elem_of_add; auto).
    rewrite E in Hin. by apply elem_of_nil in Hin.
  - intros s. rewrite channels_of_insert. case_decide; [apply NoDup_add|]; auto.
  - intros s c'. rewrite channels_of_insert.
    case_decide; rewrite ?elem_of_add; naive_solver.
  - intros s Hs. rewrite lookup_insert. case_decide; eauto.
Qed.

Lemma wf_leave st sid c :
  wf st →
  wf (VariantA.mk_state (SocketIO.leave sid c (io st))
        (<[sid := JS.remove c (channels_of st sid)]> (userChannels st)) (headers st)).
Proof.
  intros [W1 W2 W3 W4 W5 W6 W8 W7]. split; simpl.
  - intros s c'. rewrite channels_of_insert, members_leave.
    repeat case_decide; subst; rewrite ?elem_of_remove; naive_solver.
  - intros s c'. rewrite channels_of_insert, members_leave.
    repeat case_decide; subst; rewrite ?elem_of_remove; naive_solver.
  - intros c'. rewrite members_leave. case_decide; [apply NoDup_remove|]; auto.
  - intros s c'. rewrite members_leave, connected_leave.
    case_decide; subst; rewrite ?elem_of_remove; naive_solver.
  - intros c'. unfold SocketIO.leave.
    destruct (rooms (io st) !! c) as [l|] eqn:E; simpl; [|apply W5].
    destruct (JS.remove sid l) as [|a l'] eqn:El; simpl.
    + rewrite lookup_delete. case_decide; [done|apply W5].
    + rewrite lookup_insert. case_decide; [done|apply W5].
  - intros s. rewrite channels_of_insert. case_decide; [apply NoDup_remove|]; auto.
  - intros s c'. rewrite channels_of_insert.
    case_decide; rewrite ?elem_of_remove; naive_solver.
  - intros s. rewrite connected_leave. intros Hs.
    rewrite lookup_insert. case_decide; eauto.
Qed.

Lemma wf_same_channels st sid :
  wf st → sid ∈ connected (io st) →
  VariantA.mk_state (io st) (<[sid := channels_of st sid]> (userChannels st)) (headers st) = st.
Proof.
  intros W Hs. destruct (wf_entry _ W _ Hs) as [l El].
  destruct st as [i u h]; simpl in *. f_equal.
  unfold channels_of; simpl. rewrite El; simpl. by apply insert_id.
Qed.

Lemma wf_disconnect st sid :
  wf st →
  wf (VariantA.mk_state (SocketIO.disconnect sid (io st))
        (<[sid := []]> (userChannels st)) (headers st)).
Proof.
  intros [W1 W2 W3 W4 W5 W6 W8 W7]. split; simpl.
  - intros s c'. rewrite channels_of_insert, members_disconnect.
    case_decide; subst; rewrite ?elem_of_remove; [by intros ?%elem_of_nil|].
    naive_solver.
  - intros s c'. rewrite channels_of_insert, members_disconnect.
    case_decide; subst; rewrite ?elem_of_remove; naive_solver.
  - intros c'. rewrite members_disconnect. by apply NoDup_remove.
  - intros s c'. rewrite members_disconnect, !elem_of_remove. naive_solver.
  - intros c'. rewrite lookup_omap.
    destruct (rooms (io st) !! c') as [l|]; simpl; [|done].
    by destruct (JS.remove sid l).
  - intros s. rewrite channels_of_insert. case_decide; [apply NoDup_nil_2|auto].
  - intros s c'. rewrite channels_of_insert.
    case_decide; [by intros ?%elem_of_nil | eauto].
  - intros s. rewrite elem_of_remove. intros [_ Hs].
    rewrite lookup_insert. case_decide; eauto.
Qed.

Lemma wf_connect st sid hs :
  wf st → sid ∉ connected (io st) →
  wf (VariantA.mk_state (SocketIO.connect sid (io st))
        (<[sid := []]> (userChannels st)) (<[sid := hs]> (headers st))).
Proof.
  intros [W1 W2 W3 W4 W5 W6 W8 W7] Hnew.
  assert (∀ c, sid ∉ members (io st) c) as Hout by (intros c Hc; eauto).
  split; simpl.
  - intros s c'. rewrite channels_of_insert, members_connect.
    repeat case_decide; subst; rewrite ?elem_of_add;
      [by intros ?%elem_of_nil | by intros ?%elem_of_nil | naive_solver | naive_solver].
  - intros s c'. rewrite channels_of_insert, members_connect.
    repeat case_decide; subst; rewrite ?elem_of_add; naive_solver.
  - intros c'. rewrite members_connect. case_decide; [apply NoDup_add|]; auto.
  - intros s c'. rewrite members_connect. unfold SocketIO.connect; simpl.
    case_decide; subst; rewrite ?elem_of_add; naive_solver.
  - intros c'. unfold SocketIO.connect, SocketIO.join; simpl.
    rewrite lookup_insert. case_decide; [|apply W5].
    intros [= E]. assert (sid ∈ JS.add sid (members (io st) sid)) as Hin
      by (apply elem_of_add; auto).
    rewrite E in Hin. by apply elem_of_nil in Hin.
  - intros s. rewrite channels_of_insert. case_decide; [apply NoDup_nil_2|auto].
  - intros s c'. rewrite channels_of_insert.
    case_decide; [by intros ?%elem_of_nil | eauto].
  - intros s. unfold SocketIO.connect; simpl. rewrite elem_of_add.
    rewrite lookup_insert. case_decide; [eauto|]. naive_solver.
Qed.

End invariant_a.

(** ** What each listener of the multi-channel backend does *)

Section listeners_a.
Import VariantA InvA.
Implicit Types (st : VariantA.state) (sid c : string) (v data : JS.value).

Lemma joinChannel_invalid st sid v :
  valid_channel v = None →
  joinChannel sid v st =
  match JS.to_String v with
  | Some printed =>
      Outcome (Normal tt) st
        [Packet (Emit (ToSocket sid) "joinConfirmation"
                   (JS.Obj [("channelId", JS.Str (JS.or_else printed "unknown"));
                            ("success", JS.Bool false);
                            ("error", JS.Str "Invalid channel ID")]))
                (recipients (io st) (ToSocket sid))] []
  | None => Outcome (Thrown "Cannot convert object to primitive value") st [] []
  end.
Proof.
  intros E. unfold joinChannel. rewrite E.
  destruct (JS.to_String v) as [printed|] eqn:Ev.
  - rewrite bind_log by (cbn; unfold JS.coercible; by rewrite Ev).
    by rewrite (bind_coerce _ _ _ _ Ev).
  - by rewrite bind_log_throws by (cbn; unfold JS.coercible; by rewrite Ev).
Qed.

Lemma joinChannel_invalid_next st sid v :
  valid_channel v = None → next (joinChannel sid v st) = st.
Proof. intros E. rewrite joinChannel_invalid by done. by destruct (JS.to_String v). Qed.

Lemma joinChannel_again st sid v c :
  valid_channel v = Some c → c ∈ channels_of st sid →
  joinChannel sid v st =
  Outcome (Normal tt) st
    [Packet (Emit (ToSocket sid) "joinConfirmation" (confirmation c))
            (recipients (io st) (ToSocket sid));
     Packet (Emit (ToSocket sid) "activeUsers" (users_payload (members (io st) c)))
            (recipients (io st) (ToSocket sid))] [].
Proof.
  intros E Hin. unfold joinChannel. rewrite E.
  apply has_true in Hin. unfold bind at 1. cbn. by rewrite Hin.
Qed.

Lemma joinChannel_first st sid v c :
  valid_channel v = Some c → c ∉ channels_of st sid →
  joinChannel sid v st =
  Outcome (Normal tt) (joined_state st sid c)
    [Packet (Emit (ToSocket sid) "joinConfirmation" (confirmation c))
            (recipients (io st) (ToSocket sid))]
    [(100, λ _, [Emit (ToSocket sid) "activeUsers"
                   (users_payload (JS.add sid (members (io st) c)));
                 Emit (ToRoomExcept (JS.Str c) sid) "userJoined" (JS.Str sid)])].
Proof.
  intros E Hin. unfold joinChannel. rewrite E.
  apply has_false in Hin. unfold bind at 1. cbn. rewrite Hin.
  unfold try_catch, bind, room_users. cbn.
  rewrite members_join. by rewrite decide_True.
Qed.

Lemma valid_channel_Some v c : valid_channel v = Some c ↔ v = JS.Str c ∧ c ≠ "".
Proof.
  unfold valid_channel. destruct v as [| |b|n|s|l|l]; simpl;
    rewrite ?orb_true_r; try (split; [done | intros [? _]; done]).
  rewrite orb_false_r, negb_involutive.
  destruct (String.eqb s "") eqn:E; simpl.
  - apply String.eqb_eq in E. subst. split; [done | intros [[= ->] ?]; done].
  - apply String.eqb_neq in E. split; [intros [= ->]; done | intros [[= ->] _]; done].
Qed.

Lemma leaveChannel_outcome st sid v :
  JS.coercible v = true →
  leaveChannel sid v st =
  let st' := VariantA.mk_state (SocketIO.leave_value sid v (io st))
               (<[sid := delete_value v (channels_of st sid)]> (userChannels st))
               (headers st) in
  Outcome (Normal tt) st'
    [Packet (Emit (ToRoom v) "userLeft" (JS.Str sid)) (recipients (io st') (ToRoom v))] [].
Proof.
  intros Hv. unfold leaveChannel. rewrite bind_log by (cbn; by rewrite Hv). done.
Qed.

Lemma leaveChannel_throws st sid v :
  JS.coercible v = false →
  leaveChannel sid v st =
  Outcome (Thrown "Cannot convert object to primitive value") st [] [].
Proof.
  intros Hv. unfold leaveChannel. by rewrite bind_log_throws by (cbn; by rewrite Hv).
Qed.

Lemma pttStatus_next st sid data : next (pttStatus sid data st) = st.
Proof.
  unfold pttStatus. destruct (_ || _); [done|].
  destruct (forallb JS.coercible [JS.get data "channelId"; JS.get data "status"]) eqn:E;
    [rewrite bind_log by done | by rewrite bind_log_throws].
  unfold bind at 1. cbn. by destruct (negb _).
Qed.

Lemma audioData_next PORT st sid data : next (audioData PORT sid data st) = st.
Proof.
  unfold audioData. destruct (_ || _); [done|].
  destruct (forallb JS.coercible [JS.get data "channelId"]) eqn:E;
    [rewrite bind_log by done | by rewrite bind_log_throws].
  unfold bind at 1. cbn. destruct (negb _); [done|].
  destruct (_ && _); [|done].
  destruct (JS.get (JS.get data "data") "uri"); try done.
  by destruct (JS.startsWith _ _).
Qed.

Lemma disconnect_outcome st sid :
  VariantA.disconnect sid st =
  Outcome (Normal tt)
    (VariantA.mk_state (io st) (<[sid := []]> (userChannels st)) (headers st))
    (map (λ c, Packet (Emit (ToRoom (JS.Str c)) "userLeft" (JS.Str sid))
                      (members (io st) c))
         (channels_of st sid)) [].
Proof.
  unfold VariantA.disconnect. unfold bind at 1. cbn.
  unfold bind. rewrite forEach_emits. cbn. by rewrite !app_nil_r.
Qed.

Lemma wf_listener PORT now i st o :
  wf st → listener (S := backend PORT) now i st = Some o → wf (next o).
Proof.
  intros W. destruct i as [sid hs|sid m|sid|]; simpl; [| | |done].
  - destruct (JS.has sid _) eqn:E; [done|]. intros [= <-].
    apply has_false in E. cbn. by apply wf_connect.
  - destruct (JS.has sid _) eqn:E; [|done]. intros [= <-].
    apply has_true in E. destruct m as [v|v|v|v|]; cbn [dispatch].
    + destruct (valid_channel v) as [c|] eqn:Ev.
      * destruct (decide (c ∈ channels_of st sid)).
        -- by rewrite (joinChannel_again _ _ _ c).
        -- rewrite (joinChannel_first _ _ _ c) by done.
           apply valid_channel_Some in Ev as [_ ?]. by apply wf_join.
      * by rewrite joinChannel_invalid_next.
    + destruct (JS.coercible v) eqn:Ev; [|by rewrite leaveChannel_throws].
      rewrite leaveChannel_outcome by done. cbn.
      destruct v; simpl; try (by rewrite wf_same_channels). by apply wf_leave.
    + by rewrite pttStatus_next.
    + by rewrite audioData_next.
    + done.
  - destruct (JS.has sid _) eqn:E; [|done]. intros [= <-].
    rewrite disconnect_outcome. cbn. by apply wf_disconnect.
Qed.

Lemma wf_step PORT (w : world (backend PORT)) ti :
  wf (store w) → wf (store (step w ti).1).
Proof.
  intros W. unfold step. destruct (crashed w); [done|].
  destruct (due_by _ _) as [due later].
  destruct (listener _ _ _) as [o|] eqn:E; simpl; [|done].
  by eapply wf_listener.
Qed.

Lemma wf_run PORT inputs (w : world (backend PORT)) :
  wf (store w) → wf (store (run w inputs).1).
Proof.
  revert w. induction inputs as [|ti rest IH]; intros w W; [done|].
  simpl. pose proof (wf_step PORT w ti W) as W1.
  destruct (step w ti) as [w1 tr1]. specialize (IH w1 W1).
  by destruct (run w1 rest).
Qed.

(** Every state the multi-channel backend reaches is well formed. *)
Lemma wf_reachable PORT st :
  reachable (backend PORT) VariantA.init st → wf st.
Proof.
  intros [inputs <-]. apply wf_run. apply wf_init.
Qed.

End listeners_a.

(** ** Scope of PTT and audio broadcasts in the multi-channel backend *)

Section scope_a.
Import VariantA InvA.
Implicit Types (st : VariantA.state) (sid c : string) (data : JS.value).

Lemma get_Str_truthy data k c : JS.get data k = JS.Str c → JS.truthy data = true.
Proof. by destruct data. Qed.


Lemma pttStatus_throws st sid data :
  JS.truthy data = true → JS.truthy (JS.get data "channelId") = true →
  JS.coercible (JS.get data "channelId") && JS.coercible (JS.get data "status") = false →
  pttStatus sid data st =
  Outcome (Thrown "Cannot convert object to primitive value") st [] [].
Proof.
  intros Hd Hc Hs. unfold pttStatus. rewrite Hd, Hc. cbn [negb orb].
  rewrite bind_log_throws; [done|]. cbn [forallb]. by rewrite andb_true_r.
Qed.

Lemma pttStatus_quiet st sid data :
  has_value (JS.get data "channelId") (channels_of st sid) = false →
  let o := pttStatus sid data st in
  next o = st ∧ sent o = [] ∧ timers o = []
  ∧ (JS.coercible (JS.get data "channelId") && JS.coercible (JS.get data "status") = true →
     result o = Normal tt).
Proof.
  intros E o. subst o. unfold pttStatus. destruct (_ || _); [done|].
  destruct (forallb JS.coercible [JS.get data "channelId"; JS.get data "status"]) eqn:El.
  - rewrite bind_log by done. unfold bind. cbn. by rewrite E.
  - rewrite bind_log_throws by done. split_and!; try done.
    cbn [forallb] in El. rewrite andb_true_r in El. by rewrite El.
Qed.

Lemma pttStatus_not_joined st sid data :
  has_value (JS.get data "channelId") (channels_of st sid) = false →
  JS.coercible (JS.get data "channelId") && JS.coercible (JS.get data "status") = true →
  rejected (pttStatus sid data st) st.
Proof.
  intros E Hs. destruct (pttStatus_quiet st sid data E) as (H1 & H2 & H3 & H4).
  specialize (H4 Hs). unfold rejected.
  destruct (pttStatus sid data st) as [r n p t]. simpl in *. by subst.
Qed.

Lemma audioData_quiet PORT st sid data :
  has_value (JS.get data "channelId") (channels_of st sid) = false →
  let o := audioData PORT sid data st in
  next o = st ∧ sent o = [] ∧ timers o = []
  ∧ (JS.coercible (JS.get data "channelId") = true → result o = Normal tt).
Proof.
  intros E o. subst o. unfold audioData. destruct (_ || _); [done|].
  destruct (forallb JS.coercible [JS.get data "channelId"]) eqn:El.
  - rewrite bind_log by done. unfold bind at 1. cbn. by rewrite E.
  - rewrite bind_log_throws by done. split_and!; try done.
    cbn [forallb] in El. rewrite andb_true_r in El. by rewrite El.
Qed.

Lemma audioData_not_joined PORT st sid data :
  has_value (JS.get data "channelId") (channels_of st sid) = false →
  JS.coercible (JS.get data "channelId") = true →
  rejected (audioData PORT sid data st) st.
Proof.
  intros E Hs. destruct (audioData_quiet PORT st sid data E) as (H1 & H2 & H3 & H4).
  specialize (H4 Hs). unfold rejected.
  destruct (audioData PORT sid data st) as [r n p t]. simpl in *. by subst.
Qed.

Lemma pttStatus_no_channel st sid data :
  JS.truthy (JS.get data "channelId") = false → rejected (pttStatus sid data st) st.
Proof. intros E. unfold rejected, pttStatus. rewrite E. by rewrite orb_true_r. Qed.

Lemma audioData_no_channel PORT st sid data :
  JS.truthy (JS.get data "channelId") = false → rejected (audioData PORT sid data st) st.
Proof. intros E. unfold rejected, audioData. rewrite E. by rewrite orb_true_r. Qed.

(** C10.  In the multi-channel backend a [pttStatus] or [audioData]
    message whose payload is absent, or has no [channelId] field, makes
    the listener return at once: nothing is emitted to anybody (the
    sender gets no error reply), nothing is scheduled, and the state is
    left as it was. *)
Theorem C10_missing_channel_is_ignored PORT st sid data :
  data = JS.Undefined ∨ JS.get data "channelId" = JS.Undefined →
  rejected (pttStatus sid data st) st ∧
  rejected (audioData PORT sid data st) st.
Proof.
  intros Hdata.
  assert (JS.get data "channelId" = JS.Undefined) as E by (by destruct Hdata as [->|]).
  split; [apply pttStatus_no_channel | apply audioData_no_channel]; by rewrite E.
Qed.

Lemma C10_witness :
  rejected (pttStatus "A" (JS.Obj [("status", JS.Bool true)]) VariantA.init) VariantA.init ∧
  rejected (audioData "8080" "A" (JS.Obj [("status", JS.Bool true)]) VariantA.init)
           VariantA.init.
Proof.
  apply (C10_missing_channel_is_ignored "8080" VariantA.init "A"
           (JS.Obj [("status", JS.Bool true)])).
  right. reflexivity.
Defined.

(** C4, as it holds.  In the multi-channel backend a [pttStatus] or
    [audioData] message naming a channel the connection has not joined
    is rejected: nothing is delivered to anybody, nothing is scheduled,
    and the state does not change.  The [audioData] listener returns
    normally, and so does the [pttStatus] listener when the [status] it
    prints before the check coerces to a string (as every boolean,
    number and string does). *)
Theorem C4_multi_channel_scope_check PORT st sid c data :
  JS.get data "channelId" = JS.Str c → c ∉ channels_of st sid →
  let ptt := pttStatus sid data st in
  rejected (audioData PORT sid data st) st
  ∧ next ptt = st ∧ sent ptt = [] ∧ timers ptt = []
  ∧ (JS.coercible (JS.get data "status") = true → rejected ptt st).
Proof.
  intros E Hout ptt. subst ptt. apply has_false in Hout.
  assert (has_value (JS.get data "channelId") (channels_of st sid) = false) as Hv
    by (by rewrite E).
  destruct (pttStatus_quiet st sid data Hv) as (H1 & H2 & H3 & _).
  split_and!; try done.
  - apply audioData_not_joined; [done | by rewrite E].
  - intros Hs. apply pttStatus_not_joined; [done|]. by rewrite E, Hs.
Qed.

Lemma C4_witness :
  rejected (audioData "8080" "B" (Demo.ptt true) (store (Demo.multi Demo.a_joined)))
           (store (Demo.multi Demo.a_joined)) ∧
  rejected (pttStatus "B" (Demo.ptt true) (store (Demo.multi Demo.a_joined)))
           (store (Demo.multi Demo.a_joined)).
Proof.
  destruct (C4_multi_channel_scope_check "8080" (store (Demo.multi Demo.a_joined))
              "B" Demo.channel (Demo.ptt true)) as (Ha & _ & _ & _ & Hp).
  - reflexivity.
  - apply has_false. vm_compute. reflexivity.
  - split; [exact Ha | apply Hp; reflexivity].
Defined.

End scope_a.

(** ** Leaving and disconnecting in the multi-channel backend *)

Section departures_a.
Import VariantA InvA.
Implicit Types (st : VariantA.state) (sid c : string).

Lemma channels_of_entry st sid :
  is_Some (userChannels st !! sid) →
  userChannels st !! sid = Some (channels_of st sid).
Proof. intros [l E]. unfold channels_of. by rewrite E. Qed.

Lemma leave_not_member (i : SocketIO.state) sid c :
  rooms i !! c ≠ Some [] → sid ∉ members i c → SocketIO.leave sid c i = i.
Proof.
  intros Hne Hout. unfold SocketIO.leave, members in *.
  destruct (rooms i !! c) as [l|] eqn:E; [|done]. simpl in Hout.
  rewrite (remove_absent _ _ Hout).
  destruct l as [|a l]; [done|]. simpl.
  destruct i as [r k]; simpl in *. f_equal. by apply insert_id.
Qed.

Lemma leave_drops_empty_room (i : SocketIO.state) sid c :
  JS.remove sid (members i c) = [] → rooms (SocketIO.leave sid c i) !! c = None.
Proof.
  unfold SocketIO.leave, members.
  destruct (rooms i !! c) as [l|] eqn:E; simpl; [|done].
  intros ->. simpl. apply lookup_delete_eq.
Qed.

(** C9 as stated fails: a connection that never joined the channel
    sends [leaveChannel], and the member of the channel is handed a
    [userLeft] notice. *)
Lemma C9_counterexample :
  let st := store (Demo.multi Demo.a_joined) in
  ("B" ∉ members (io st) Demo.channel)
  ∧ (Demo.channel ∉ channels_of st "B")
  ∧ deliveries (sent (leaveChannel "B" (JS.Str Demo.channel) st)) =
      [Deliver "A" "userLeft" (JS.Str "B")].
Proof.
  split_and!.
  - apply has_false. vm_compute. reflexivity.
  - apply has_false. vm_compute. reflexivity.
  - vm_compute. reflexivity.
Qed.

Lemma close_listener PORT now st sid :
  sid ∈ connected (io st) →
  listener (S := backend PORT) now (Close sid) st =
  Some (VariantA.disconnect sid
          (VariantA.mk_state (SocketIO.disconnect sid (io st))
             (userChannels st) (headers st))).
Proof. intros Hs%has_true. simpl. by rewrite Hs. Qed.

End departures_a.

(** ** Joining in the multi-channel backend *)

Section joins_a.
Import VariantA InvA.
Implicit Types (st : VariantA.state) (sid c : string).

Lemma recipients_socket (i : SocketIO.state) sid :
  sid ∈ connected i → recipients i (ToSocket sid) = [sid].
Proof. intros Hs%has_true. simpl. by rewrite Hs. Qed.

Lemma elem_of_recipients_except (i : SocketIO.state) v sid r :
  r ∈ recipients i (ToRoomExcept v sid) ↔ r ∈ in_rooms i v ∧ r ∉ members i sid.
Proof. simpl. rewrite list_elem_of_filter. tauto. Qed.

(** As long as the room named after a connection holds that connection
    alone, [socket.to(..)] leaves out just the sender. *)
Lemma recipients_except_own (i : SocketIO.state) v sid :
  members i sid = [sid] →
  recipients i (ToRoomExcept v sid) = JS.remove sid (in_rooms i v).
Proof.
  intros E. simpl. unfold JS.remove. apply list_filter_iff. intros r.
  rewrite E. set_solver.
Qed.

Lemma valid_channel_Str c : c ≠ "" → valid_channel (JS.Str c) = Some c.
Proof. intros. by apply valid_channel_Some. Qed.

Lemma remove_add sid (l : list string) : JS.remove sid (JS.add sid l) = JS.remove sid l.
Proof.
  unfold JS.add. destruct (JS.has sid l); [done|].
  unfold JS.remove. rewrite filter_app, filter_cons_False, filter_nil by (by intros []).
  apply app_nil_r.
Qed.

Lemma joinChannel_member st sid c :
  sid ∈ connected (io st) → c ≠ "" → c ∈ channels_of st sid →
  joinChannel sid (JS.Str c) st = Outcome (Normal tt) st (rejoin_reply (io st) sid c) [].
Proof.
  intros Hs Hc Hin.
  rewrite (joinChannel_again st sid _ c) by (done || by apply valid_channel_Str).
  by rewrite recipients_socket.
Qed.

Lemma joinChannel_makes_member st sid c :
  c ≠ "" → c ∈ channels_of (next (joinChannel sid (JS.Str c) st)) sid.
Proof.
  intros Hc. destruct (decide (c ∈ channels_of st sid)) as [Hin|Hout].
  - by rewrite (joinChannel_again st sid _ c) by (done || by apply valid_channel_Str).
  - rewrite (joinChannel_first st sid _ c) by (done || by apply valid_channel_Str).
    cbn. unfold joined_state. rewrite channels_of_insert, decide_True by done.
    apply elem_of_add. by left.
Qed.

Lemma join_repeatedly_member n st sid c :
  sid ∈ connected (io st) → c ≠ "" → c ∈ channels_of st sid →
  join_repeatedly n sid (JS.Str c) st =
  (st, concat (replicate n (rejoin_reply (io st) sid c))).
Proof.
  intros Hs Hc Hin. induction n as [|n IH]; [done|].
  cbn [join_repeatedly]. rewrite joinChannel_member by done. cbn [next sent].
  by rewrite IH.
Qed.

Lemma confirmations_replicate n (i : SocketIO.state) sid c :
  length (filter (λ p, event (sent_as p) = "joinConfirmation")
            (concat (replicate n (rejoin_reply i sid c)))) = n.
Proof.
  induction n as [|n IH]; [done|].
  cbn [replicate concat]. rewrite filter_app, length_app, IH. done.
Qed.

Lemma confirmations_of_replies n (i : SocketIO.state) sid c :
  filter (λ p, event (sent_as p) = "joinConfirmation")
    (concat (replicate n (rejoin_reply i sid c))) =
  replicate n (Packet (Emit (ToSocket sid) "joinConfirmation" (confirmation c)) [sid]).
Proof.
  induction n as [|n IH]; [done|].
  cbn [replicate concat]. rewrite filter_app, IH. done.
Qed.

Lemma wf_joinChannel st sid v :
  wf st → sid ∈ connected (io st) → wf (next (joinChannel sid v st)).
Proof.
  intros W Hs. destruct (valid_channel v) as [c|] eqn:Ev.
  - destruct (decide (c ∈ channels_of st sid)).
    + by rewrite (joinChannel_again _ _ _ c).
    + rewrite (joinChannel_first _ _ _ c) by done.
      apply valid_channel_Some in Ev as [_ ?]. by apply wf_join.
  - by rewrite joinChannel_invalid_next.
Qed.

Lemma joinChannel_connected st sid v :
  connected (io (next (joinChannel sid v st))) = connected (io st).
Proof.
  destruct (valid_channel v) as [c|] eqn:Ev.
  - destruct (decide (c ∈ channels_of st sid)).
    + by rewrite (joinChannel_again _ _ _ c).
    + by rewrite (joinChannel_first _ _ _ c).
  - by rewrite joinChannel_invalid_next.
Qed.

(** C1, as it holds.  In the multi-channel backend a first join of a
    channel does two things.  At once it sends a success
    [joinConfirmation], to the joining connection only.  It also sets a
    callback 100 ms ahead that sends [activeUsers], the roster with the
    joiner in it, to the joiner, and [userJoined] to the members of the
    channel that are not in the room named after the joiner: to the
    members other than the joiner, that is, whenever that room holds the
    joiner alone.  In every run in which the process survives the
    100 ms, the confirmation is on the wire before the roster and the
    notice. *)
Theorem C1_first_join_confirms_then_announces
    PORT (w : world (backend PORT)) t sid c mids t2 i2 :
  crashed w = false → sid ∈ connected (io (store w)) →
  c ≠ "" → c ∉ channels_of (store w) sid →
  let st := store w in
  let now := Z.max (clock w) t in
  let request := (t, Message sid (JoinChannel (JS.Str c))) in
  let conf := Packet (Emit (ToSocket sid) "joinConfirmation" (confirmation c)) [sid] in
  let roster := Emit (ToSocket sid) "activeUsers"
                  (users_payload (JS.add sid (members (io st) c))) in
  let notice := Emit (ToRoomExcept (JS.Str c) sid) "userJoined" (JS.Str sid) in
  joinChannel sid (JS.Str c) st =
    Outcome (Normal tt) (joined_state st sid c) [conf] [(100, λ _, [roster; notice])]
  ∧ (∀ i r, r ∈ recipients i (target_of roster) → r = sid)
  ∧ (∀ i r, r ∈ recipients i (target_of notice) ↔ r ∈ members i c ∧ r ∉ members i sid)
  ∧ (∀ i, members i sid = [sid] →
       recipients i (target_of notice) = JS.remove sid (members i c))
  ∧ (Forall (λ ti, ti.1 < now + 100) mids →
     let w' := (run (step w request).1 mids).1 in
     crashed w' = false → now + 100 ≤ t2 →
     ∃ old pre post,
       (run w (request :: mids ++ [(t2, i2)])).2 =
       old ++ [(now, conf)] ++ pre
           ++ [(now + 100, Packet roster (recipients (io (store w')) (ToSocket sid)));
               (now + 100, Packet notice (recipients (io (store w')) (target_of notice)))]
           ++ post).
Proof.
  intros Hlive Hs Hc Hout st now request conf roster notice.
  assert (joinChannel sid (JS.Str c) st =
          Outcome (Normal tt) (joined_state st sid c) [conf]
            [(100, λ _, [roster; notice])]) as E.
  { rewrite (joinChannel_first st sid _ c) by (done || by apply valid_channel_Str).
    by rewrite recipients_socket. }
  split_and!; [done | | | |].
  - intros i r. simpl. destruct (JS.has sid (connected i)).
    + by intros ->%list_elem_of_singleton.
    + by intros ?%elem_of_nil.
  - intros i r. apply elem_of_recipients_except.
  - intros i. apply recipients_except_own.
  - intros Hmids w' Hlive' Ht2.
    pose proof (callback_fires_after w t sid (JoinChannel (JS.Str c)) mids t2 i2
                  100 (λ _, [roster; notice]) Hlive Hs) as H.
    cbn [on_message backend dispatch] in H. fold st in H. rewrite E in H.
    apply H; [by left | lia | done | done | done].
Qed.

Lemma C1_witness :
  joinChannel "B" (JS.Str Demo.channel) (store (Demo.multi Demo.a_joined)) =
  Outcome (Normal tt) (joined_state (store (Demo.multi Demo.a_joined)) "B" Demo.channel)
    [Packet (Emit (ToSocket "B") "joinConfirmation" (confirmation Demo.channel)) ["B"]]
    [(100, λ _,
        [Emit (ToSocket "B") "activeUsers"
           (users_payload
              (JS.add "B" (members (io (store (Demo.multi Demo.a_joined))) Demo.channel)));
         Emit (ToRoomExcept (JS.Str Demo.channel) "B") "userJoined" (JS.Str "B")])].
Proof.
  apply (C1_first_join_confirms_then_announces "8080" (Demo.multi Demo.a_joined)
           500 "B" Demo.channel [] 600 Idle).
  - reflexivity.
  - apply has_true. vm_compute. reflexivity.
  - discriminate.
  - apply has_false. vm_compute. reflexivity.
Defined.

End joins_a.

(** ** Broadcasts of the single-channel backend *)

Section broadcasts_b.
Import VariantB.
Implicit Types (st : VariantB.state) (sid : string) (v : JS.value).

Lemma get_not_undefined v k x :
  JS.get v k = x → x ≠ JS.Undefined → ∃ fs, v = JS.Obj fs.
Proof. destruct v; simpl; intros <-; try done. eauto. Qed.

Lemma pttStatus_off st now sid v :
  JS.get v "status" = JS.Bool false →
  JS.coercible (JS.get v "channelId") = true →
  let channelId := JS.get v "channelId" in
  let message := JS.get v "message" in
  pttStatus sid now v st =
  Outcome (Normal tt) st
    [Packet (Emit (ToRoom channelId) "pttStatus"
               (JS.Obj [("userId", JS.Str sid); ("status", JS.Bool false);
                        ("message", message)]))
            (in_rooms (io st) channelId);
     Packet (Emit (ToSocket sid) "pttAck"
               (JS.Obj [("channelId", channelId); ("status", JS.Bool false);
                        ("received", JS.Bool true); ("timestamp", JS.Num now)]))
            (recipients (io st) (ToSocket sid))]
    [(200, λ later,
        [Emit (ToRoom channelId) "pttStatus"
           (JS.Obj [("userId", JS.Str sid); ("status", JS.Bool false);
                    ("message", message); ("timestamp", JS.Num later)])])].
Proof.
  intros E Hc. destruct (get_not_undefined _ _ _ E) as [fs ->]; [done|].
  unfold pttStatus. cbn [destructure]. cbv zeta.
  rewrite bind_log by (cbn [forallb]; by rewrite Hc, E). by rewrite E.
Qed.

(** Any status other than [false] takes the branch that emits once. *)
Lemma pttStatus_on st now sid v :
  (∃ fs, v = JS.Obj fs) → JS.is_false (JS.get v "status") = false →
  JS.coercible (JS.get v "channelId") = true →
  JS.coercible (JS.get v "status") = true →
  pttStatus sid now v st =
  Outcome (Normal tt) st
    [Packet (Emit (ToRoom (JS.get v "channelId")) "pttStatus"
               (JS.Obj [("userId", JS.Str sid); ("status", JS.get v "status");
                        ("message", JS.get v "message")]))
            (in_rooms (io st) (JS.get v "channelId"))] [].
Proof.
  intros [fs ->] E Hc Hs.
  unfold pttStatus. cbn [destructure]. cbv zeta.
  rewrite bind_log by (cbn [forallb]; by rewrite Hc, Hs). by rewrite E.
Qed.

Lemma pttStatus_unprintable st now sid v :
  v ≠ JS.Undefined → v ≠ JS.Null →
  JS.coercible (JS.get v "channelId") && JS.coercible (JS.get v "status") = false →
  pttStatus sid now v st =
  Outcome (Thrown "Cannot convert object to primitive value") st [] [].
Proof.
  intros H1 H2 E. unfold pttStatus.
  destruct v; try done; cbn [destructure]; cbv zeta;
    (rewrite bind_log_throws; [done|]; cbn [forallb]; by rewrite andb_true_r).
Qed.

Lemma audioData_relay st sid v :
  JS.truthy (JS.get (JS.get v "data") "uri") = true →
  JS.coercible (JS.get v "channelId") = true →
  let channelId := JS.get v "channelId" in
  let data := JS.get v "data" in
  audioData sid v st =
  Outcome (Normal tt) st
    [Packet (Emit (ToRoom channelId) "pttStatus"
               (JS.Obj [("userId", JS.Str sid); ("status", JS.Bool false)]))
            (in_rooms (io st) channelId)]
    [(200, λ now,
        [Emit (ToRoom channelId) "audioData"
           (JS.Obj [("userId", JS.Str sid); ("data", data); ("timestamp", JS.Num now)]);
         Emit (ToSocket sid) "audioAck"
           (JS.Obj [("success", JS.Bool true); ("channelId", channelId);
                    ("timestamp", JS.Num now)])])].
Proof.
  intros E Hc.
  assert (JS.truthy (JS.get v "data") = true) as Ed
    by (destruct (JS.get v "data"); done).
  assert (∃ fs, v = JS.Obj fs) as [fs ->]
    by (destruct v; try done; eauto).
  unfold audioData. cbn [destructure]. cbv zeta.
  rewrite bind_log by (cbn [forallb]; by rewrite Hc). by rewrite E, Ed.
Qed.

Lemma audioData_unprintable st sid v :
  v ≠ JS.Undefined → v ≠ JS.Null →
  JS.coercible (JS.get v "channelId") = false →
  audioData sid v st =
  Outcome (Thrown "Cannot convert object to primitive value") st [] [].
Proof.
  intros H1 H2 E. unfold audioData.
  destruct v; try done; cbn [destructure]; cbv zeta;
    (rewrite bind_log_throws; [done|]; cbn [forallb]; by rewrite E).
Qed.

(** C6, as it holds.  In the single-channel backend a [pttStatus]
    whose status is [false] is emitted to the channel twice, once at
    once and once from a callback 200 ms ahead (that copy carries a time
    stamp); one whose status is [true] is emitted once.  The channel is
    any value that coerces to a string, as the listener prints it first:
    every string does. *)
Theorem C6_single_channel_repeats_ptt_off st now sid v (active : bool) :
  JS.get v "status" = JS.Bool active →
  JS.coercible (JS.get v "channelId") = true →
  let channelId := JS.get v "channelId" in
  let o := pttStatus sid now v st in
  let body := [("userId", JS.Str sid); ("status", JS.Bool active);
               ("message", JS.get v "message")] in
  result o = Normal tt
  ∧ next o = st
  ∧ filter (λ e, event e = "pttStatus") (emissions (sent o)) =
      [Emit (ToRoom channelId) "pttStatus" (JS.Obj body)]
  ∧ timers o =
      (if active then []
       else [(200, λ later,
                [Emit (ToRoom channelId) "pttStatus"
                   (JS.Obj (body ++ [("timestamp", JS.Num later)]))])])
  ∧ times_emitted "pttStatus" o = (if active then 1 else 2)%nat.
Proof.
  intros E Hc channelId o body. subst o. destruct active.
  - rewrite pttStatus_on; [by rewrite E | | by rewrite E | done | by rewrite E].
    destruct v; try done. eauto.
  - by rewrite pttStatus_off.
Qed.

Lemma C6_witness :
  times_emitted "pttStatus"
    (pttStatus "A" 700 (Demo.ptt false) (store (Demo.single Demo.both_joined))) = 2%nat.
Proof.
  apply (C6_single_channel_repeats_ptt_off (store (Demo.single Demo.both_joined))
           700 "A" (Demo.ptt false) false).
  - reflexivity.
  - reflexivity.
Defined.

(** C6 as stated fails in the multi-channel backend: a member releases
    PTT and the event goes out once, with no callback set. *)
Lemma C6_counterexample :
  let st := store (Demo.multi Demo.both_joined) in
  let o := VariantA.pttStatus "A" (Demo.ptt false) st in
  Demo.channel ∈ VariantA.channels_of st "A"
  ∧ times_emitted "pttStatus" o = 1%nat
  ∧ timers o = []
  ∧ deliveries (sent o) =
      [Deliver "A" "pttStatus" (JS.Obj [("userId", JS.Str "A"); ("status", JS.Bool false)]);
       Deliver "B" "pttStatus" (JS.Obj [("userId", JS.Str "A"); ("status", JS.Bool false)])].
Proof.
  split_and!.
  - apply has_true. vm_compute. reflexivity.
  - vm_compute. reflexivity.
  - vm_compute. reflexivity.
  - vm_compute. reflexivity.
Qed.

Lemma observed_by_app sid (a b : trace) :
  observed_by sid (a ++ b) = observed_by sid a ++ observed_by sid b.
Proof. unfold observed_by. apply omap_app. Qed.

Lemma observed_by_cons sid (x : Z * packet) (l : trace) :
  observed_by sid (x :: l) = observed_by sid [x] ++ observed_by sid l.
Proof. apply (observed_by_app sid [x] l). Qed.

Lemma observed_by_receiver sid t (p : packet) :
  sid ∈ receivers p →
  observed_by sid [(t, p)] = [(t, event (sent_as p), payload (sent_as p))].
Proof. intros Hin%has_true. unfold observed_by. simpl. by rewrite Hin. Qed.

(** C5, as it holds.  In the single-channel backend an [audioData]
    message whose data carries a [uri] makes the server emit a
    [pttStatus] with status [false] for the sender to the channel at
    once, and set a callback 200 ms ahead that emits the [audioData]
    event with the data (and acknowledges to the sender).  The listener
    leaves the state alone, and in every run in which the process
    survives the 200 ms the PTT-off event is on the wire before the
    audio event, so that every receiver of the audio event that was in
    the channel when the message came in has observed the PTT-off event
    first.  The channel is any value that coerces to a string, as the
    listener prints it first: every string does. *)
Theorem C5_single_channel_ptt_off_before_audio
    keys (w : world (backend keys)) t sid v mids t2 i2 :
  crashed w = false → sid ∈ connected (io (store w)) →
  JS.truthy (JS.get (JS.get v "data") "uri") = true →
  JS.coercible (JS.get v "channelId") = true →
  let st := store w in
  let now := Z.max (clock w) t in
  let request := (t, Message sid (AudioData v)) in
  let channelId := JS.get v "channelId" in
  let off := Emit (ToRoom channelId) "pttStatus"
               (JS.Obj [("userId", JS.Str sid); ("status", JS.Bool false)]) in
  let audio fired := Emit (ToRoom channelId) "audioData"
                    (JS.Obj [("userId", JS.Str sid); ("data", JS.get v "data");
                             ("timestamp", JS.Num fired)]) in
  let ack fired := Emit (ToSocket sid) "audioAck"
                  (JS.Obj [("success", JS.Bool true); ("channelId", channelId);
                           ("timestamp", JS.Num fired)]) in
  audioData sid v st =
    Outcome (Normal tt) st [Packet off (in_rooms (io st) channelId)]
      [(200, λ fired, [audio fired; ack fired])]
  ∧ store (step w request).1 = st
  ∧ (Forall (λ ti, ti.1 < now + 200) mids →
     let w' := (run (step w request).1 mids).1 in
     crashed w' = false → now + 200 ≤ t2 →
     ∃ old pre post,
       (run w (request :: mids ++ [(t2, i2)])).2 =
       old ++ [(now, Packet off (in_rooms (io st) channelId))] ++ pre
           ++ [(now + 200, Packet (audio (now + 200)) (in_rooms (io (store w')) channelId));
               (now + 200, Packet (ack (now + 200))
                             (recipients (io (store w')) (ToSocket sid)))]
           ++ post
       ∧ ∀ r, r ∈ in_rooms (io st) channelId → r ∈ in_rooms (io (store w')) channelId →
           ∃ before between after,
             observed_by r (run w (request :: mids ++ [(t2, i2)])).2 =
             before ++ [(now, "pttStatus", payload off)] ++ between
                    ++ [(now + 200, "audioData", payload (audio (now + 200)))] ++ after).
Proof.
  intros Hlive Hs Huri Hprint st now request channelId off audio ack.
  pose proof (audioData_relay st sid v Huri Hprint) as E. cbv zeta in E.
  split_and!; [done | |].
  - subst request. rewrite step_message by done.
    cbn [fst store on_message backend dispatch]. fold st. by rewrite E.
  - intros Hmids w' Hlive' Ht2.
    pose proof (callback_fires_after w t sid (AudioData v) mids t2 i2
                  200 (λ fired, [audio fired; ack fired]) Hlive Hs) as H.
    cbn [on_message backend dispatch] in H. fold st in H. rewrite E in H.
    destruct H as (old & pre & post & Etr); [by left | lia | done | done | done |].
    assert ((run w (request :: mids ++ [(t2, i2)])).2 =
            old ++ [(now, Packet off (in_rooms (io st) channelId))] ++ pre
                ++ [(now + 200, Packet (audio (now + 200))
                                  (in_rooms (io (store w')) channelId));
                    (now + 200, Packet (ack (now + 200))
                                  (recipients (io (store w')) (ToSocket sid)))]
                ++ post) as Etr' by exact Etr.
    exists old, pre, post. split; [exact Etr'|].
    intros r Hr1 Hr2. rewrite Etr'.
    exists (observed_by r old), (observed_by r pre),
      (observed_by r [(now + 200, Packet (ack (now + 200))
                                    (recipients (io (store w')) (ToSocket sid)))]
       ++ observed_by r post).
    rewrite !observed_by_app.
    rewrite (observed_by_cons r (_, Packet (audio _) _)).
    rewrite (observed_by_receiver r _ (Packet off _)) by done.
    rewrite (observed_by_receiver r _ (Packet (audio _) _)) by done.
    by rewrite <- !app_assoc.
Qed.

Lemma C5_witness :
  audioData "A" Demo.audio (store (Demo.single Demo.both_joined)) =
  Outcome (Normal tt) (store (Demo.single Demo.both_joined))
    [Packet (Emit (ToRoom (JS.Str Demo.channel)) "pttStatus"
               (JS.Obj [("userId", JS.Str "A"); ("status", JS.Bool false)]))
            (in_rooms (io (store (Demo.single Demo.both_joined))) (JS.Str Demo.channel))]
    [(200, λ fired,
        [Emit (ToRoom (JS.Str Demo.channel)) "audioData"
           (JS.Obj [("userId", JS.Str "A"); ("data", JS.get Demo.audio "data");
                    ("timestamp", JS.Num fired)]);
         Emit (ToSocket "A") "audioAck"
           (JS.Obj [("success", JS.Bool true); ("channelId", JS.Str Demo.channel);
                    ("timestamp", JS.Num fired)])])].
Proof.
  apply (C5_single_channel_ptt_off_before_audio VariantB.keys_of_set
           (Demo.single Demo.both_joined) 700 "A" Demo.audio [] 1000 Idle).
  - reflexivity.
  - apply has_true. vm_compute. reflexivity.
  - reflexivity.
  - reflexivity.
Defined.

(** C5 as stated fails in the multi-channel backend: a member relays an
    uploaded file and the only event is [audioData], sent at once to the
    other member; no [pttStatus] is emitted and no callback is set.  In
    the single-channel backend it fails for a receiver that joins during
    the 200 ms: "B" joins after the PTT-off event has gone out and is
    handed the audio event without it. *)
Lemma C5_counterexample :
  let st := store (Demo.multi Demo.both_joined) in
  let o := VariantA.audioData "8080" "A" Demo.audio st in
  Demo.channel ∈ VariantA.channels_of st "A"
  ∧ times_emitted "pttStatus" o = 0%nat
  ∧ timers o = []
  ∧ deliveries (sent o) =
      [Deliver "B" "audioData"
         (JS.Obj [("userId", JS.Str "A");
                  ("data", JS.Obj [("uri",
                     JS.Str "http://relay.example:8080/uploads/1700000000000-42.m4a")])])]
  ∧ observed_by "B"
      (run (boot (S := VariantB.backend VariantB.keys_of_set) VariantB.init)
         (Demo.a_joined ++ [(700, Message "A" (AudioData Demo.audio));
                            (800, Message "B" (JoinChannel (JS.Str Demo.channel)));
                            (1000, Idle)])).2 =
      [(800, "userJoined", JS.Str "B");
       (800, "activeUsers", JS.Arr [JS.Str "A"; JS.Str "B"]);
       (800, "joinConfirmation",
        JS.Obj [("channelId", JS.Str Demo.channel); ("success", JS.Bool true);
                ("error", JS.Null)]);
       (900, "audioData",
        JS.Obj [("userId", JS.Str "A");
                ("data", JS.Obj [("uri", JS.Str "/uploads/1700000000000-42.m4a")]);
                ("timestamp", JS.Num 900)])].
Proof.
  split_and!.
  - apply has_true. vm_compute. reflexivity.
  - vm_compute. reflexivity.
  - vm_compute. reflexivity.
  - vm_compute. reflexivity.
  - vm_compute. reflexivity.
Qed.

(** C1 as stated fails in the single-channel backend: the join emits
    [userJoined] to the whole channel, the joiner included, then the
    roster, and the confirmation last, all at once and with no callback
    set.  In the multi-channel backend the notice comes back to a joiner
    that is no longer in the room named after it: "B" leaves the room
    ["B"], joins the channel, and is handed its own [userJoined]. *)
Lemma C1_counterexample :
  let st := store (Demo.single Demo.a_joined) in
  let o := joinChannel VariantB.keys_of_set "B" (JS.Str Demo.channel) st in
  ("B" ∉ members (io st) Demo.channel)
  ∧ timers o = []
  ∧ deliveries (sent o) =
      [Deliver "A" "userJoined" (JS.Str "B");
       Deliver "B" "userJoined" (JS.Str "B");
       Deliver "B" "activeUsers" (JS.Arr [JS.Str "A"; JS.Str "B"]);
       Deliver "B" "joinConfirmation"
         (JS.Obj [("channelId", JS.Str Demo.channel); ("success", JS.Bool true);
                  ("error", JS.Null)])]
  ∧ observed_by "B"
      (run (boot (S := VariantA.backend "8080") VariantA.init)
         (Demo.a_joined ++ [(3, Message "B" (LeaveChannel (JS.Str "B")));
                            (500, Message "B" (JoinChannel (JS.Str Demo.channel)));
                            (700, Idle)])).2 =
      [(500, "joinConfirmation",
        JS.Obj [("channelId", JS.Str Demo.channel); ("success", JS.Bool true)]);
       (600, "activeUsers", JS.Arr [JS.Str "A"; JS.Str "B"]);
       (600, "userJoined", JS.Str "B")].
Proof.
  split_and!.
  - apply has_false. vm_compute. reflexivity.
  - vm_compute. reflexivity.
  - vm_compute. reflexivity.
  - vm_compute. reflexivity.
Qed.

(** C4 as stated fails in the single-channel backend: a connection that
    never joined the channel sends [pttStatus] and [audioData] naming
    it, and the member of the channel receives the events. *)
Lemma C4_counterexample :
  let st := store (Demo.single Demo.a_joined) in
  ("B" ∉ members (io st) Demo.channel)
  ∧ own Demo.channel (activeChannels st) = Some ["A"]
  ∧ deliveries (sent (pttStatus "B" 700 (Demo.ptt true) st)) =
      [Deliver "A" "pttStatus"
         (JS.Obj [("userId", JS.Str "B"); ("status", JS.Bool true);
                  ("message", JS.Undefined)])]
  ∧ deliveries (sent (audioData "B" Demo.audio st)) =
      [Deliver "A" "pttStatus" (JS.Obj [("userId", JS.Str "B"); ("status", JS.Bool false)])].
Proof.
  split_and!.
  - apply has_false. vm_compute. reflexivity.
  - vm_compute. reflexivity.
  - vm_compute. reflexivity.
  - vm_compute. reflexivity.
Qed.

End broadcasts_b.

(** ** The sweeper *)

Section assoc_facts.
Import MediaStore.
Implicit Types (k f : string) (m : list (string * Z)).

Lemma get_del k f m : get f (del k m) = if decide (k = f) then None else get f m.
Proof.
  induction m as [|[k' v] m IH]; simpl; [by case_decide|].
  destruct (String.eqb_spec k k') as [->|Hk]; simpl.
  - rewrite IH. case_decide; [done|].
    destruct (String.eqb_spec f k'); [congruence|done].
  - destruct (String.eqb_spec f k') as [->|Hf]; [by rewrite decide_False|done].
Qed.

Lemma get_set k v f m : get f (set k v m) = if decide (k = f) then Some v else get f m.
Proof.
  induction m as [|[k' v'] m IH]; simpl.
  - destruct (String.eqb_spec f k) as [->|Hf]; [by rewrite decide_True|].
    by rewrite decide_False.
  - destruct (String.eqb_spec k k') as [->|Hk]; simpl.
    + destruct (String.eqb_spec f k') as [->|Hf]; [by rewrite decide_True|].
      by rewrite decide_False.
    + destruct (String.eqb_spec f k') as [->|Hf]; [by rewrite decide_False|done].
Qed.

Lemma has_get f m : has f m = true ↔ is_Some (get f m).
Proof. unfold has. destruct (get f m); split; (done || eauto || by intros []). Qed.

Lemma get_keys f m : is_Some (get f m) ↔ f ∈ m.*1.
Proof.
  induction m as [|[k v] m IH]; simpl.
  - split; [by intros [] | by intros ?%elem_of_nil].
  - rewrite elem_of_cons. destruct (String.eqb_spec f k) as [->|Hf].
    + split; eauto.
    + rewrite IH. naive_solver.
Qed.

Lemma keys_del k m : (del k m).*1 = filter (λ x, x ≠ k) m.*1.
Proof.
  induction m as [|[k' v] m IH]; csimpl; [done|].
  destruct (String.eqb_spec k k') as [->|Hk].
  - by rewrite filter_cons_False by naive_solver.
  - rewrite filter_cons_True by naive_solver. csimpl. by rewrite IH.
Qed.

Lemma keys_set k v m : (set k v m).*1 = if has k m then m.*1 else m.*1 ++ [k].
Proof.
  unfold has. induction m as [|[k' v'] m IH]; csimpl; [done|].
  destruct (String.eqb_spec k k') as [->|Hk]; csimpl; [done|].
  rewrite IH. by destruct (get k m).
Qed.

Lemma NoDup_keys_del k m : NoDup m.*1 → NoDup (del k m).*1.
Proof. rewrite keys_del. apply NoDup_filter. Qed.

Lemma NoDup_keys_set k v m : NoDup m.*1 → NoDup (set k v m).*1.
Proof.
  intros Hm. rewrite keys_set. destruct (has k m) eqn:E; [done|].
  apply NoDup_app. split_and!; [done | | apply NoDup_singleton].
  intros x Hx ->%list_elem_of_singleton.
  apply get_keys, has_get in Hx. congruence.
Qed.

End assoc_facts.

Section sweeper_facts.
Import MediaStore StoreSpec.
Variable unlink_fails : string → bool.
Implicit Types (st : MediaStore.state) (f : string) (now : Z).

(** The first loop, entry by entry. *)
Lemma expire_tracked_spec now es (acc : MediaStore.state * Z) f :
  let st' := (foldl (expire_tracked unlink_fails now) acc es).1 in
  get f (uploadedFiles st') =
    (if expired_in now f es then None else get f (uploadedFiles acc.1))
  ∧ get f (uploads st') =
    (if expired_in now f es && negb (unlink_fails f) then None
     else get f (uploads acc.1)).
Proof.
  revert acc. induction es as [|[k ts] es IH]; intros [st n]; [done|].
  cbn [foldl]. specialize (IH (expire_tracked unlink_fails now (st, n) (k, ts))).
  cbv zeta in IH |- *. destruct IH as [IH1 IH2]. rewrite IH1, IH2. clear IH1 IH2.
  cbn [expired_in existsb fst snd]. fold (expired_in now f es).
  unfold expire_tracked.
  destruct (now - ts >? FILE_MAX_AGE_MS) eqn:Eage; cbn [fst snd];
    [|by rewrite andb_false_r].
  rewrite andb_true_r.
  assert (fst (let '(disk, deletedCount) :=
                 if has k (uploads st)
                 then if unlink_fails k then (uploads st, n) else (del k (uploads st), n + 1)
                 else (uploads st, n) in
               (mk_state (del k (uploadedFiles st)) disk, deletedCount)) =
          mk_state (del k (uploadedFiles st))
            (if has k (uploads st) && negb (unlink_fails k)
             then del k (uploads st) else uploads st)) as ->.
  { destruct (has k (uploads st)), (unlink_fails k); done. }
  cbn [uploadedFiles uploads].
  destruct (String.eqb_spec f k) as [->|Hf]; cbn [orb andb].
  - unfold has.
    destruct (expired_in now k es), (unlink_fails k),
      (get k (uploads st)) eqn:Eg; cbn [negb andb orb];
      rewrite ?get_del, ?decide_True by done; rewrite ?Eg; done.
  - rewrite get_del, decide_False by done. split; [done|].
    destruct (has k (uploads st) && negb (unlink_fails k)); [|done].
    by rewrite get_del, decide_False.
Qed.

Lemma expired_in_get now f es :
  NoDup es.*1 →
  expired_in now f es =
  match get f es with Some ts => now - ts >? FILE_MAX_AGE_MS | None => false end.
Proof.
  induction es as [|[k ts] es IH]; csimpl; [done|].
  intros [Hk Hes]%NoDup_cons. cbn [expired_in existsb fst snd].
  fold (expired_in now f es). rewrite IH by done.
  destruct (String.eqb_spec f k) as [->|Hf]; cbn [andb orb]; [|done].
  assert (get k es = None) as E.
  { destruct (get k es) eqn:E; [|done]. exfalso. apply Hk, get_keys. eauto. }
  rewrite E. by rewrite orb_false_r.
Qed.

Lemma expire_tracked_keys now es (acc : MediaStore.state * Z) :
  NoDup (uploadedFiles acc.1).*1 → NoDup (uploads acc.1).*1 →
  let st' := (foldl (expire_tracked unlink_fails now) acc es).1 in
  NoDup (uploadedFiles st').*1 ∧ NoDup (uploads st').*1.
Proof.
  revert acc. induction es as [|[k ts] es IH]; intros [st n] H1 H2; [done|].
  cbn [foldl]. apply IH; unfold expire_tracked; cbn [fst] in *;
    destruct (now - ts >? FILE_MAX_AGE_MS); try done;
    destruct (has k (uploads st)); try destruct (unlink_fails k);
    cbn [fst uploadedFiles uploads]; auto using NoDup_keys_del.
Qed.

(** The second loop, when no [unlinkSync] fails. *)
Lemma scan_untracked_spec now files (acc : MediaStore.state * Z) :
  NoDup files →
  (∀ g, g ∈ files → unlink_fails g = false) →
  (∀ g, g ∈ files → is_Some (get g (uploads acc.1))) →
  let st' := (scan_untracked unlink_fails now files acc).1 in
  ∀ f,
    get f (uploads st') =
      (if decide (f ∈ files)
       then scanned_disk now (get f (uploadedFiles acc.1)) (get f (uploads acc.1))
       else get f (uploads acc.1))
    ∧ get f (uploadedFiles st') =
      (if decide (f ∈ files)
       then scanned_tracking now (get f (uploadedFiles acc.1)) (get f (uploads acc.1))
       else get f (uploadedFiles acc.1)).
Proof.
  revert acc. induction files as [|k rest IH]; intros [st n] Hnd Hok Hon st' f.
  { subst st'. by rewrite decide_False by apply not_elem_of_nil. }
  apply NoDup_cons in Hnd as [Hk Hnd]. subst st'. cbn [scan_untracked].
  assert (∀ g, g ∈ rest → unlink_fails g = false) as Hok'
    by (intros; apply Hok; by right).
  assert (unlink_fails k = false) as Hfk by (apply Hok; by left).
  destruct (Hon k ltac:(by left)) as [m Em]. cbn [fst] in Em, Hon |- *.
  destruct (get k (uploadedFiles st)) as [ts|] eqn:Et.
  - (* already tracked: skipped *)
    assert (has k (uploadedFiles st) = true) as -> by (unfold has; by rewrite Et).
    specialize (IH (st, n) Hnd Hok' ltac:(intros; apply Hon; by right) f).
    cbv zeta in IH. cbn [fst] in IH. destruct IH as [-> ->].
    destruct (decide (f = k)) as [->|Hf].
    + rewrite Et. simpl. repeat case_decide; done || set_solver.
    + repeat case_decide; done || set_solver.
  - assert (has k (uploadedFiles st) = false) as -> by (unfold has; by rewrite Et).
    rewrite Em, Hfk. destruct (now - m >? FILE_MAX_AGE_MS) eqn:Eage.
    + (* untracked and too old: deleted *)
      specialize (IH (mk_state (uploadedFiles st) (del k (uploads st)), n + 1) Hnd Hok').
      cbn [fst uploads uploadedFiles] in IH.
      destruct (IH ltac:(intros g Hg; rewrite get_del, decide_False by (by intros ->);
                         apply Hon; by right) f) as [-> ->].
      rewrite !get_del. destruct (decide (k = f)) as [<-|Hf].
      * rewrite Et, Em. simpl. unfold if_young. rewrite Eage.
        repeat case_decide; done || set_solver.
      * repeat case_decide; done || set_solver.
    + (* untracked and young: adopted *)
      specialize (IH (mk_state (set k m (uploadedFiles st)) (uploads st), n) Hnd Hok').
      cbn [fst uploads uploadedFiles] in IH.
      destruct (IH ltac:(intros; apply Hon; by right) f) as [-> ->].
      rewrite !get_set. destruct (decide (k = f)) as [<-|Hf].
      * rewrite Et, Em. simpl. unfold if_young. rewrite Eage.
        repeat case_decide; done || set_solver.
      * repeat case_decide; done || set_solver.
Qed.

Lemma scan_untracked_keys now files (acc : MediaStore.state * Z) :
  NoDup (uploadedFiles acc.1).*1 → NoDup (uploads acc.1).*1 →
  let st' := (scan_untracked unlink_fails now files acc).1 in
  NoDup (uploadedFiles st').*1 ∧ NoDup (uploads st').*1.
Proof.
  revert acc. induction files as [|k rest IH]; intros [st n] H1 H2; [done|].
  cbn [scan_untracked]. cbn [fst] in *.
  destruct (has k (uploadedFiles st)); [by apply IH|].
  destruct (get k (uploads st)) as [m|]; [|done].
  destruct (now - m >? FILE_MAX_AGE_MS).
  - destruct (unlink_fails k); [done|].
    apply IH; cbn [fst uploads uploadedFiles]; auto using NoDup_keys_del.
  - apply IH; cbn [fst uploads uploadedFiles]; auto using NoDup_keys_set.
Qed.

Lemma sweep_wf now st : wf st → wf (sweep unlink_fails now st).
Proof.
  intros [H1 H2]. unfold wf, sweep, cleanupOldFiles.
  apply scan_untracked_keys; by apply expire_tracked_keys.
Qed.

(** One run of [cleanupOldFiles], file by file, when no [unlinkSync]
    fails: a file stays exactly if [kept] says so, and what stays on
    disk untracked is adopted under its modification time. *)
Lemma sweep_spec now st f :
  (∀ g, unlink_fails g = false) → wf st →
  let st' := sweep unlink_fails now st in
  resolve f st' =
    (resolve f st ≫= λ m, if kept now (get f (uploadedFiles st)) m then Some m else None)
  ∧ get f (uploadedFiles st') =
    match get f (uploadedFiles st) with
    | Some ts => if_young now ts
    | None => resolve f st ≫= if_young now
    end.
Proof.
  intros Hok [H1 H2] st'. subst st'. unfold sweep, cleanupOldFiles, resolve.
  set (acc := foldl (expire_tracked unlink_fails now) (st, 0) (uploadedFiles st)).
  destruct (expire_tracked_spec now (uploadedFiles st) (st, 0) f) as [Et Ed].
  destruct (expire_tracked_keys now (uploadedFiles st) (st, 0) H1 H2) as [K1 K2].
  fold acc in Et, Ed, K1, K2. cbv zeta in Et, Ed. cbn [fst] in Et, Ed.
  rewrite Hok, andb_true_r, expired_in_get in Ed by done.
  rewrite expired_in_get in Et by done.
  destruct (scan_untracked_spec now (uploads acc.1).*1 acc K2
              ltac:(auto) ltac:(intros g; by rewrite get_keys) f) as [-> ->].
  pose proof (get_keys f (uploads acc.1)) as Hin.
  rewrite Et, Ed. rewrite Ed in Hin. clear Et Ed. unfold kept, if_young.
  destruct (get f (uploadedFiles st)) as [ts|] eqn:Ets;
    destruct (get f (uploads st)) as [m|] eqn:Em; simpl in *;
    try destruct (now - ts >? FILE_MAX_AGE_MS) eqn:Eage; simpl in *;
    try destruct (now - m >? FILE_MAX_AGE_MS) eqn:Eage'; simpl in *;
    unfold if_young; rewrite ?Eage, ?Eage';
    case_decide as Hd; try done;
    rewrite <- Hin in Hd; try (by destruct Hd as [? [=]]);
    exfalso; apply Hd; eauto.
Qed.

Lemma upload_wf name written now st : wf st → wf (upload name written now st).
Proof. intros [H1 H2]. split; simpl; by apply NoDup_keys_set. Qed.

Lemma apply_wf st o : wf st → wf (apply unlink_fails st o).
Proof. destruct o; simpl; [apply upload_wf | apply sweep_wf]. Qed.

Section one_object.
Hypothesis reliable : ∀ g, unlink_fails g = false.
Variables (f : string) (t0 mtime : Z).

Lemma sweep_stored now st :
  wf st → stored f t0 mtime st →
  if now - t0 >? FILE_MAX_AGE_MS
  then gone f (sweep unlink_fails now st)
  else stored f t0 mtime (sweep unlink_fails now st).
Proof.
  intros W [Ht Hd]. destruct (sweep_spec now st f reliable W) as [Ed Et].
  unfold stored, gone. rewrite Ed, Et, Ht, Hd. simpl. unfold if_young.
  by destruct (now - t0 >? FILE_MAX_AGE_MS).
Qed.

Lemma sweep_gone now st : wf st → gone f st → gone f (sweep unlink_fails now st).
Proof.
  intros W [Ht Hd]. destruct (sweep_spec now st f reliable W) as [Ed Et].
  unfold gone. by rewrite Ed, Et, Ht, Hd.
Qed.

Lemma upload_other name written now st :
  name ≠ f →
  get f (uploadedFiles (upload name written now st)) = get f (uploadedFiles st)
  ∧ resolve f (upload name written now st) = resolve f st.
Proof. intros Hne. unfold resolve. simpl. by rewrite !get_set, !decide_False. Qed.

Lemma history_one_object ops st :
  wf st → never_reuploaded f ops →
  let st' := history unlink_fails ops st in
  (stored f t0 mtime st →
     (stored f t0 mtime st' ∨ gone f st')
     ∧ ((∀ s, Sweep s ∈ ops → s - t0 ≤ FILE_MAX_AGE_MS) → stored f t0 mtime st')
     ∧ ((∃ s, Sweep s ∈ ops ∧ FILE_MAX_AGE_MS < s - t0) → gone f st'))
  ∧ (gone f st → gone f st').
Proof.
  revert st. induction ops as [|o ops IH]; intros st W Hnew.
  { simpl. split; [|done]. intros Hs. split_and!; [by left | done |].
    by intros (s & []%elem_of_nil & _). }
  assert (never_reuploaded f ops) as Hnew'
    by (intros w n Hin; apply (Hnew w n); by right).
  pose proof (apply_wf st o W) as W1.
  destruct (IH (apply unlink_fails st o) W1 Hnew') as [IHs IHg].
  cbn [history foldl] in *. fold (history unlink_fails ops (apply unlink_fails st o)).
  cbv zeta in IHs, IHg.
  assert (gone f st → gone f (apply unlink_fails st o)) as Hg1.
  { destruct o as [name w n|s]; simpl; [|by apply sweep_gone].
    intros [Ht Hd]. assert (name ≠ f) as Hne
      by (intros ->; apply (Hnew w n); by left).
    destruct (upload_other name w n st Hne) as [E1 E2]. unfold gone. by rewrite E1, E2. }
  split; [|auto]. intros Hs.
  destruct o as [name w n|s]; simpl in *.
  - assert (name ≠ f) as Hne by (intros ->; apply (Hnew w n); by left).
    destruct (upload_other name w n st Hne) as [E1 E2].
    assert (stored f t0 mtime (upload name w n st)) as Hs1
      by (destruct Hs; unfold stored; by rewrite E1, E2).
    destruct (IHs Hs1) as (I1 & I2 & I3). split_and!; [done | |].
    + intros Hall. apply I2. intros s Hin. apply Hall. by right.
    + intros (s & [[=]|Hin]%elem_of_cons & Hlt). apply I3. eauto.
  - pose proof (sweep_stored s st W Hs) as Hsw.
    destruct (s - t0 >? FILE_MAX_AGE_MS) eqn:Eage.
    + apply Z.gtb_lt in Eage. split_and!; [right; auto | | auto].
      intros Hall. specialize (Hall s ltac:(by left)). lia.
    + assert (s - t0 ≤ FILE_MAX_AGE_MS) as Hle
        by (destruct (Z.gtb_spec (s - t0) FILE_MAX_AGE_MS); [done|lia]).
      destruct (IHs Hsw) as (I1 & I2 & I3). split_and!; [done | |].
      * intros Hall. apply I2. intros s' Hin. apply Hall. by right.
      * intros (s' & [[= ->]|Hin]%elem_of_cons & Hlt); [lia|]. apply I3. eauto.
Qed.

End one_object.

(** A tick of the interval timer falls strictly after the maximal age
    and no later than one interval after it. *)
Lemma ticks_pass_ttl t0 first d :
  FILE_MAX_AGE_MS + CLEANUP_INTERVAL_MS < d →
  t0 ≤ first ≤ t0 + CLEANUP_INTERVAL_MS →
  ∃ s, s ∈ ticks first (t0 + d) ∧ FILE_MAX_AGE_MS < s - t0.
Proof.
  intros Hd Hfirst. unfold ticks.
  set (q := (t0 + d - first) / CLEANUP_INTERVAL_MS).
  assert (0 < CLEANUP_INTERVAL_MS) as Hpos by done.
  assert (0 ≤ t0 + d - first) as Hnn by (unfold FILE_MAX_AGE_MS in *; lia).
  assert (0 ≤ q) as Hq by (apply Z.div_pos; lia).
  pose proof (Z.mul_div_le (t0 + d - first) CLEANUP_INTERVAL_MS Hpos) as Hlo.
  pose proof (Z.mul_succ_div_gt (t0 + d - first) CLEANUP_INTERVAL_MS Hpos) as Hhi.
  fold q in Hlo, Hhi.
  exists (first + Z.of_nat (Z.to_nat q) * CLEANUP_INTERVAL_MS). split.
  - apply list_elem_of_fmap. exists (Z.to_nat q). split; [done|].
    apply elem_of_seq. lia.
  - rewrite Z2Nat.id by done. lia.
Qed.

End sweeper_facts.

Section sweeper_guarantee.
Import MediaStore StoreSpec.

(** C7.  On a store whose deletions succeed, one run of the sweeper at
    [now] deletes every tracked object older than [FILE_MAX_AGE_MS] and
    stops tracking it; an untracked file found in the directory is
    deleted if its modification time is older than that, and otherwise
    adopted into tracking under its modification time.  Hence an object
    recorded at [t0] is still served after any sweeps that ran by
    [t0 + d] when [d < FILE_MAX_AGE_MS], and is no longer served once
    the interval timer has run every sweep due by [t0 + d] when
    [d > FILE_MAX_AGE_MS + CLEANUP_INTERVAL_MS]. *)
Theorem C7_sweep_evicts_past_max_age unlink_fails st now :
  (∀ g, unlink_fails g = false) → wf st →
  let st' := sweep unlink_fails now st in
  (∀ f ts, get f (uploadedFiles st) = Some ts → FILE_MAX_AGE_MS < now - ts →
     resolve f st' = None ∧ get f (uploadedFiles st') = None)
  ∧ (∀ f m, get f (uploadedFiles st) = None → resolve f st = Some m →
     if now - m >? FILE_MAX_AGE_MS
     then resolve f st' = None ∧ get f (uploadedFiles st') = None
     else resolve f st' = Some m ∧ get f (uploadedFiles st') = Some m)
  ∧ (∀ f t0 m ops d,
       stored f t0 m st → never_reuploaded f ops → d < FILE_MAX_AGE_MS →
       (∀ s, Sweep s ∈ ops → s ≤ t0 + d) →
       resolve f (history unlink_fails ops st) = Some m)
  ∧ (∀ f t0 m ops d first,
       stored f t0 m st → never_reuploaded f ops →
       FILE_MAX_AGE_MS + CLEANUP_INTERVAL_MS < d →
       t0 ≤ first ≤ t0 + CLEANUP_INTERVAL_MS →
       (∀ s, s ∈ ticks first (t0 + d) → Sweep s ∈ ops) →
       resolve f (history unlink_fails ops st) = None).
Proof.
  intros Hok W st'. split_and!.
  - intros f ts Ht Hage. destruct (sweep_spec unlink_fails now st f Hok W) as [Ed Et].
    fold st' in Ed, Et. rewrite Ed, Et, Ht. unfold kept, if_young.
    assert ((now - ts >? FILE_MAX_AGE_MS) = true) as -> by (apply Z.gtb_lt; lia).
    split; [|done]. by destruct (resolve f st).
  - intros f m Ht Hd. destruct (sweep_spec unlink_fails now st f Hok W) as [Ed Et].
    fold st' in Ed, Et. rewrite Ed, Et, Ht, Hd. simpl. unfold if_young.
    by destruct (now - m >? FILE_MAX_AGE_MS).
  - intros f t0 m ops d Hs Hnew Hd Hall.
    destruct (history_one_object unlink_fails Hok f t0 m ops st W Hnew) as [H _].
    destruct (H Hs) as (_ & Hkeep & _). apply Hkeep.
    intros s Hin. specialize (Hall s Hin). lia.
  - intros f t0 m ops d first Hs Hnew Hd Hfirst Hall.
    destruct (history_one_object unlink_fails Hok f t0 m ops st W Hnew) as [H _].
    destruct (H Hs) as (_ & _ & Hgone).
    destruct (ticks_pass_ttl t0 first d Hd Hfirst) as (s & Hin & Hs').
    apply Hgone. eauto.
Qed.

(** An object is created at instant 0; the sweep at 250 s deletes it. *)
Lemma C7_witness :
  resolve "0-42.m4a" (sweep Demo.no_failure 250000 Demo.one_upload) = None.
Proof.
  destruct (C7_sweep_evicts_past_max_age Demo.no_failure Demo.one_upload 250000)
    as (Hevict & _).
  - reflexivity.
  - apply upload_wf. split; apply NoDup_nil_2.
  - apply (Hevict "0-42.m4a" 0); [reflexivity | reflexivity].
Defined.

End sweeper_guarantee.


(** ** The single-channel backend agrees on rosters and departures *)

Section rosters_b.
Import VariantB InvB.
Implicit Types (st : VariantB.state) (sid c : string) (o : list (string * list string)).


Lemma own_assign k ids o k' :
  own k' (assign k ids o) = if decide (k = k') then Some ids else own k' o.
Proof.
  induction o as [|[k0 v] o IH]; simpl.
  - destruct (String.eqb_spec k' k) as [->|Hk]; [by rewrite decide_True|].
    by rewrite decide_False.
  - destruct (String.eqb_spec k k0) as [->|Hk]; simpl.
    + destruct (String.eqb_spec k' k0) as [->|Hk']; [by rewrite decide_True|].
      by rewrite decide_False.
    + destruct (String.eqb_spec k' k0) as [->|Hk']; [by rewrite decide_False|done].
Qed.

Lemma own_cons_ne k k0 v o : k ≠ k0 → own k ((k0, v) :: o) = own k o.
Proof. intros Hk. simpl. by destruct (String.eqb_spec k k0). Qed.

Lemma assign_head k ids v o : assign k ids ((k, v) :: o) = (k, ids) :: o.
Proof. simpl. by rewrite String.eqb_refl. Qed.

Lemma assign_tail k ids k0 v o :
  k ≠ k0 → assign k ids ((k0, v) :: o) = (k0, v) :: assign k ids o.
Proof. intros Hk. simpl. by destruct (String.eqb_spec k k0). Qed.

Lemma own_app_fresh k pre rest : k ∉ pre.*1 → own k (pre ++ rest) = own k rest.
Proof.
  induction pre as [|[k0 v] pre IH]; csimpl; [done|].
  intros [Hk Hpre]%not_elem_of_cons. destruct (String.eqb_spec k k0); [done|auto].
Qed.

Lemma assign_app_fresh k ids pre rest :
  k ∉ pre.*1 → assign k ids (pre ++ rest) = pre ++ assign k ids rest.
Proof.
  induction pre as [|[k0 v] pre IH]; csimpl; [done|].
  intros [Hk Hpre]%not_elem_of_cons.
  destruct (String.eqb_spec k k0); [done|]. by rewrite IH.
Qed.

Lemma leave_roster_outcome st sid k ids :
  own k (activeChannels st) = Some ids →
  leave_roster sid k st =
  if JS.has sid ids
  then Outcome (Normal tt)
         (VariantB.mk_state (io st) (assign k (JS.remove sid ids) (activeChannels st)))
         [Packet (Emit (ToRoom (JS.Str k)) "userLeft" (JS.Str sid)) (members (io st) k)] []
  else Outcome (Normal tt) st [] [].
Proof.
  intros E. unfold leave_roster, roster, lookup, bind, get, ret. cbn. rewrite E.
  by destruct (JS.has sid ids).
Qed.

Lemma array_index_pretty k n : array_index k = Some n → pretty n = k.
Proof.
  unfold array_index. destruct k as [|a k]; [done|].
  destruct (parse_digits (String a k) 0) as [m|]; [|done].
  destruct (String.eqb_spec (pretty m) (String a k)) as [E|]; [|done].
  cbn [andb]. destruct (m <? 4294967295)%N; [|done]. by intros [= <-].
Qed.

(** [Object.keys] lists every own name once. *)
Lemma keys_Permutation o : keys o ≡ₚ o.*1.
Proof.
  unfold keys. rewrite merge_sort_Permutation.
  induction o.*1 as [|k l IH]; [done|]. cbn [omap list_omap].
  destruct (array_index k) as [n|] eqn:E.
  - rewrite filter_cons_False by (by rewrite E). csimpl.
    rewrite (array_index_pretty k n E). by f_equiv.
  - rewrite filter_cons_True by done. rewrite <- Permutation_middle. by f_equiv.
Qed.

Lemma elem_of_keys k o : k ∈ keys o ↔ k ∈ o.*1.
Proof. by rewrite keys_Permutation. Qed.

Lemma NoDup_keys o : NoDup o.*1 → NoDup (keys o).
Proof. by rewrite keys_Permutation. Qed.

Lemma keys_purged_at sid ks o : (purged_at sid ks o).*1 = o.*1.
Proof.
  unfold purged_at. induction o as [|[k ids] o IH]; [done|]. csimpl.
  rewrite IH. by case_bool_decide.
Qed.

Lemma own_purged_at sid ks o k :
  own k (purged_at sid ks o) =
  if bool_decide (k ∈ ks) then JS.remove sid <$> own k o else own k o.
Proof.
  unfold purged_at. induction o as [|[k0 ids] o IH]; [by case_bool_decide|].
  csimpl. destruct (bool_decide (k0 ∈ ks)) eqn:E0; cbn [own fst snd];
    destruct (String.eqb_spec k k0) as [->|Hne]; try done.
  - by rewrite E0.
  - by rewrite E0.
Qed.

Lemma assign_same k ids o : own k o = Some ids → assign k ids o = o.
Proof.
  induction o as [|[k0 v] o IH]; [done|]. simpl.
  destruct (String.eqb_spec k k0) as [->|Hne]; [by intros [= ->]|].
  intros E. by rewrite IH.
Qed.

Lemma assign_purged_at sid k ids o :
  NoDup o.*1 → own k o = Some ids →
  assign k (JS.remove sid ids) o = purged_at sid [k] o.
Proof.
  unfold purged_at. induction o as [|[k0 v] o IH]; [done|]. csimpl.
  intros [Hk0 Ho]%NoDup_cons. destruct (String.eqb_spec k k0) as [->|Hne].
  - intros [= ->]. rewrite bool_decide_eq_true_2 by set_solver. f_equal.
    clear IH. induction o as [|[k1 v1] o IH]; [done|]. csimpl in *.
    apply not_elem_of_cons in Hk0 as [Hne Hk0]. apply NoDup_cons in Ho as [_ Ho].
    rewrite bool_decide_eq_false_2 by set_solver. f_equal. auto.
  - intros E. rewrite bool_decide_eq_false_2 by set_solver. f_equal. auto.
Qed.

Lemma purged_at_cons sid k ks o :
  purged_at sid ks (purged_at sid [k] o) = purged_at sid (k :: ks) o.
Proof.
  unfold purged_at. rewrite map_map. apply map_ext. intros [k0 ids]. cbn [fst snd].
  destruct (decide (k0 = k)) as [->|Hne].
  - rewrite (bool_decide_eq_true_2 (k ∈ [k])) by set_solver.
    rewrite (bool_decide_eq_true_2 (k ∈ k :: ks)) by set_solver. cbn [fst snd].
    case_bool_decide; [|done]. f_equal. unfold JS.remove.
    rewrite list_filter_filter. apply list_filter_iff. tauto.
  - rewrite (bool_decide_eq_false_2 (k0 ∈ [k])) by set_solver. cbn [fst snd].
    rewrite (bool_decide_ext (k0 ∈ k :: ks) (k0 ∈ ks)); [done|]. set_solver.
Qed.

Lemma filter_agree {A} (P Q : A → Prop) `{!∀ x, Decision (P x)} `{!∀ x, Decision (Q x)}
    (l : list A) :
  (∀ x, x ∈ l → (P x ↔ Q x)) → filter P l = filter Q l.
Proof.
  induction l as [|x l IH]; [done|]. intros Hpq.
  assert (filter P l = filter Q l) as E by (apply IH; intros; apply Hpq; by right).
  assert (P x ↔ Q x) as Hx by (apply Hpq; by left).
  destruct (decide (P x)) as [Hp|Hp].
  - rewrite !filter_cons_True by tauto. by rewrite E.
  - rewrite !filter_cons_False by tauto. done.
Qed.

(** The walk of the ['disconnect'] listener, in whatever order it
    visits the names. *)
Lemma disconnect_walk sid (i : SocketIO.state) ks o :
  NoDup ks → NoDup o.*1 → (∀ k, k ∈ ks → k ∈ o.*1) →
  forEach ks (leave_roster sid) (VariantB.mk_state i o) =
  Outcome (Normal tt) (VariantB.mk_state i (purged_at sid ks o))
    (map (λ c, Packet (Emit (ToRoom (JS.Str c)) "userLeft" (JS.Str sid)) (members i c))
         (filter (λ k, sid ∈ default [] (own k o)) ks)) [].
Proof.
  revert o. induction ks as [|k ks IH]; intros o Hks Ho Hin.
  { assert (purged_at sid [] o = o) as ->; [|done].
    unfold purged_at. rewrite <- (map_id o) at 2.
    apply map_ext. intros e. rewrite bool_decide_eq_false_2; [done|]. apply not_elem_of_nil. }
  apply NoDup_cons in Hks as [Hk Hks].
  assert (is_Some (own k o)) as [ids Eo].
  { clear -Hin. specialize (Hin k ltac:(by left)).
    induction o as [|[k0 v] o IH]; csimpl in *; [by apply elem_of_nil in Hin|].
    destruct (String.eqb_spec k k0); [eauto|]. apply IH. set_solver. }
  cbn [forEach]. unfold bind at 1.
  rewrite (leave_roster_outcome _ sid k ids) by done. cbn [activeChannels io].
  assert ((if JS.has sid ids
           then Outcome (Normal tt)
                  (VariantB.mk_state i (assign k (JS.remove sid ids) o))
                  [Packet (Emit (ToRoom (JS.Str k)) "userLeft" (JS.Str sid)) (members i k)] []
           else Outcome (Normal tt) (VariantB.mk_state i o) [] []) =
          Outcome (Normal tt) (VariantB.mk_state i (purged_at sid [k] o))
            (if JS.has sid ids
             then [Packet (Emit (ToRoom (JS.Str k)) "userLeft" (JS.Str sid)) (members i k)]
             else []) []) as ->.
  { rewrite <- (assign_purged_at sid k ids o) by done.
    destruct (JS.has sid ids) eqn:Eh; [done|]. apply has_false in Eh.
    by rewrite (remove_absent _ _ Eh), assign_same. }
  cbn [result next sent timers].
  rewrite IH; [| done | by rewrite keys_purged_at
               | intros k' Hk'; rewrite keys_purged_at; apply Hin; by right].
  cbn [result next sent timers]. rewrite purged_at_cons. f_equal.
  rewrite (filter_agree _ (λ k', sid ∈ default [] (own k' o)) ks).
  - rewrite filter_cons. rewrite Eo. cbn [default from_option id].
    destruct (JS.has sid ids) eqn:Eh.
    + apply has_true in Eh. by rewrite decide_True.
    + apply has_false in Eh. by rewrite decide_False.
  - intros k' Hk'. rewrite own_purged_at.
    rewrite bool_decide_eq_false_2; [done|]. set_solver.
Qed.

Lemma purged_at_keys sid o : purged_at sid (keys o) o = purged sid o.
Proof.
  unfold purged_at, purged. apply map_ext_in. intros [k ids] Hin.
  rewrite bool_decide_eq_true_2; [done|]. apply elem_of_keys.
  apply list_elem_of_In in Hin. apply list_elem_of_fmap. by exists (k, ids).
Qed.

Lemma disconnect_outcome_b (i : SocketIO.state) o sid :
  NoDup o.*1 →
  VariantB.disconnect sid (VariantB.mk_state i o) =
  Outcome (Normal tt) (VariantB.mk_state i (purged sid o))
    (map (λ c, Packet (Emit (ToRoom (JS.Str c)) "userLeft" (JS.Str sid)) (members i c))
         (listed_in sid o)) [].
Proof.
  intros Hnd. unfold VariantB.disconnect. rewrite bind_get. cbn [activeChannels].
  rewrite (disconnect_walk sid i (keys o) o (NoDup_keys o Hnd) Hnd
             (λ k, proj1 (elem_of_keys k o))).
  by rewrite purged_at_keys.
Qed.

(** When a connection closes, the single-channel backend emits one
    [userLeft] for each channel whose roster lists it, in the order of
    [Object.keys], to the members left in the room, and filters it out
    of every roster. *)
Lemma single_channel_disconnect st sid :
  NoDup (activeChannels st).*1 →
  let o := VariantB.disconnect sid st in
  result o = Normal tt
  ∧ activeChannels (next o) = purged sid (activeChannels st)
  ∧ sent o = map (λ c, Packet (Emit (ToRoom (JS.Str c)) "userLeft" (JS.Str sid))
                              (members (io st) c))
                 (listed_in sid (activeChannels st))
  ∧ (∀ k ids, (k, ids) ∈ activeChannels (next o) → sid ∉ ids).
Proof.
  intros Hnd o. subst o. destruct st as [i ac]. cbn [activeChannels io] in *.
  rewrite disconnect_outcome_b by done. cbn [result next sent activeChannels].
  split_and!; try done.
  intros k ids. unfold purged. rewrite list_elem_of_fmap.
  intros ([k' ids'] & [= -> ->] & _). apply not_elem_of_remove.
Qed.

#[local] Arguments JS.has : simpl never.
#[local] Arguments object_prototype : simpl never.

Lemma join_member (i : SocketIO.state) sid c :
  sid ∈ members i c → SocketIO.join sid c i = i.
Proof.
  intros Hin. unfold SocketIO.join. rewrite add_member by done.
  destruct i as [r k]. unfold members in *. simpl in *. f_equal.
  destruct (r !! c) as [l|] eqn:E; [by apply insert_id|].
  by apply elem_of_nil in Hin.
Qed.

Lemma assign_assign k a b o : assign k a (assign k b o) = assign k a o.
Proof.
  induction o as [|[k0 v] o IH]; simpl.
  - by rewrite String.eqb_refl.
  - destruct (String.eqb_spec k k0) as [->|Hk]; simpl.
    + by rewrite String.eqb_refl.
    + destruct (String.eqb_spec k k0); [done|]. by rewrite IH.
Qed.

(** A channel named like a property every object inherits is never
    listed: [activeChannels["constructor"]] is a function, [includes] is
    missing on it, and the join ends in the [catch] arm although the
    socket is in the room by then. *)
Lemma single_channel_inherited_name :
  let o := joinChannel keys_of_set "A" (JS.Str "constructor")
             (store (Demo.single Demo.arrivals)) in
  deliveries (sent o) =
    [Deliver "A" "joinConfirmation"
       (JS.Obj [("channelId", JS.Str "constructor"); ("success", JS.Bool false);
                ("error", JS.Str "activeChannels[channelId].includes is not a function")])]
  ∧ members (io (next o)) "constructor" = ["A"]
  ∧ own "constructor" (activeChannels (next o)) = None.
Proof. vm_compute. done. Qed.

Lemma bind_roster {B} k (kont : slot → M VariantB.state B) st :
  bind (roster k) kont st = kont (lookup k (activeChannels st)) st.
Proof. unfold roster. by rewrite bind_assoc, bind_get, bind_ret. Qed.

Lemma lookup_own k ids o : own k o = Some ids → lookup k o = Own ids.
Proof. intros E. unfold lookup. by rewrite E. Qed.

(** A join repeated by a listed member of the single-channel backend
    changes nothing; the notice, the roster and the confirmation go out
    again. *)
Lemma single_channel_rejoin st sid c ids :
  c ≠ "" → own c (activeChannels st) = Some ids → sid ∈ ids →
  sid ∈ members (io st) c →
  joinChannel keys_of_set sid (JS.Str c) st =
  Outcome (Normal tt) st
    [Packet (Emit (ToRoom (JS.Str c)) "userJoined" (JS.Str sid)) (members (io st) c);
     Packet (Emit (ToSocket sid) "activeUsers" (users_payload ids))
            (recipients (io st) (ToSocket sid));
     Packet (Emit (ToSocket sid) "joinConfirmation"
               (JS.Obj [("channelId", JS.Str c); ("success", JS.Bool true);
                        ("error", JS.Null)]))
            (recipients (io st) (ToSocket sid))] [].
Proof.
  intros Hc Eo Hin Hroom. unfold joinChannel.
  rewrite (proj2 (valid_channel_Some (JS.Str c) c)) by done.
  apply lookup_own in Eo. apply has_true in Hin.
  assert (set_io (SocketIO.join sid c (get_io st)) st = st) as Hst.
  { cbn. rewrite join_member by done. by destruct st. }
  match goal with
  | |- try_catch ?m ?h st = ?o =>
      assert (m st = o) as E; [|by rewrite (try_catch_normal _ _ _ tt), E by (by rewrite E)]
  end.
  rewrite bind_log by done.
  rewrite bind_get. unfold keys_of_set. cbn [forEach]. rewrite bind_ret.
  unfold socket_join. rewrite bind_modify, Hst.
  rewrite bind_roster, Eo. cbv beta iota. rewrite bind_ret.
  rewrite bind_roster, Eo. cbv beta iota. rewrite Hin. cbn [negb]. rewrite bind_ret.
  rewrite bind_emit, bind_roster, Eo. cbv beta iota. rewrite bind_emit.
  reflexivity.
Qed.

(** A first join lists the connection at the end of the roster, and
    puts it into the room. *)
Lemma single_channel_first_join st sid c :
  c ≠ "" → JS.has c object_prototype = false →
  (∀ ids, own c (activeChannels st) = Some ids → sid ∉ ids) →
  let o := joinChannel keys_of_set sid (JS.Str c) st in
  result o = Normal tt
  ∧ own c (activeChannels (next o)) =
      Some (default [] (own c (activeChannels st)) ++ [sid])
  ∧ sid ∈ members (io (next o)) c.
Proof.
  intros Hc Hproto Hnew o. subst o. unfold joinChannel.
  rewrite (proj2 (valid_channel_Some (JS.Str c) c)) by done.
  set (ids := default [] (own c (activeChannels st))).
  assert (JS.has sid ids = false) as Hout.
  { apply has_false. subst ids. destruct (own c (activeChannels st)) eqn:E; simpl.
    - by apply Hnew. - apply not_elem_of_nil. }
  match goal with
  | |- context [try_catch ?m ?h st] =>
      assert (∃ ps, m st =
                Outcome (Normal tt)
                  (VariantB.mk_state (SocketIO.join sid c (io st))
                     (assign c (ids ++ [sid]) (activeChannels st))) ps []) as [ps E]
  end.
  { eexists. rewrite bind_log by done.
    rewrite bind_get. unfold keys_of_set. cbn [forEach]. rewrite bind_ret.
    unfold socket_join. rewrite bind_modify, bind_roster.
    cbn [set_io get_io state_io activeChannels io].
    unfold lookup at 1. subst ids.
    destruct (own c (activeChannels st)) as [old|] eqn:Eo;
      cbn [default from_option id] in *.
    - cbv beta iota. rewrite bind_ret, bind_roster. cbn [activeChannels].
      rewrite (lookup_own _ _ _ Eo). cbv beta iota. rewrite Hout. cbn [negb].
      unfold set_roster. rewrite bind_modify. cbn [activeChannels io].
      rewrite bind_emit, bind_roster. cbn [activeChannels].
      rewrite (lookup_own c (old ++ [sid])) by (by rewrite own_assign, decide_True).
      cbv beta iota. rewrite bind_emit. reflexivity.
    - rewrite Hproto. cbv beta iota. unfold set_roster at 1. rewrite bind_modify.
      rewrite bind_roster. cbn [activeChannels io].
      rewrite (lookup_own c []) by (by rewrite own_assign, decide_True).
      cbv beta iota. rewrite Hout. cbn [negb].
      unfold set_roster. rewrite bind_modify. cbn [activeChannels io].
      rewrite assign_assign.
      rewrite bind_emit, bind_roster. cbn [activeChannels].
      rewrite (lookup_own c ([] ++ [sid])) by (by rewrite own_assign, decide_True).
      cbv beta iota. rewrite bind_emit. reflexivity. }
  rewrite (try_catch_normal _ _ _ tt) by (by rewrite E). rewrite E.
  split_and!; [done | |].
  - cbn. by rewrite own_assign, decide_True.
  - cbn. rewrite members_join, decide_True by done. apply elem_of_add. by left.
Qed.

(** Leaving in the single-channel backend, for a channel whose name is
    not one every object inherits. *)
Lemma single_channel_leave st sid c :
  lookup c (activeChannels st) ≠ Inherited →
  let o := leaveChannel sid (JS.Str c) st in
  result o = Normal tt
  ∧ timers o = []
  ∧ sent o = [Packet (Emit (ToRoom (JS.Str c)) "userLeft" (JS.Str sid))
                     (JS.remove sid (members (io st) c))]
  ∧ (sid ∉ members (io (next o)) c)
  ∧ (∀ ids, own c (activeChannels (next o)) = Some ids → sid ∉ ids)
  ∧ (JS.remove sid (members (io st) c) = [] → rooms (io (next o)) !! c = None).
Proof.
  intros Hl o. subst o. unfold leaveChannel, socket_leave.
  rewrite bind_modify, (bind_coerce _ c) by done. rewrite bind_emit, bind_roster.
  cbn [set_io get_io state_io activeChannels io JS.to_String SocketIO.leave_value].
  destruct (lookup c (activeChannels st)) as [ids| |] eqn:El; [| done |].
  - unfold set_roster, modify. cbn. rewrite members_leave, decide_True by done.
    split_and!; try done.
    + apply not_elem_of_remove.
    + intros ids'. rewrite own_assign, decide_True by done. intros [= <-].
      apply not_elem_of_remove.
    + apply leave_drops_empty_room.
  - cbn. rewrite members_leave, decide_True by done.
    split_and!; try done.
    + apply not_elem_of_remove.
    + intros ids' E. unfold lookup in El. by rewrite E in El.
    + apply leave_drops_empty_room.
Qed.

End rosters_b.

(** ** Joins, broadcast scope and departures, in both backends *)

Section both_backends.

(** C2.  Any number [n ≥ 1] of [joinChannel] requests of one connection
    for one channel leads to the state the first of them leads to: the
    connection has joined, and is in the channel's member set exactly
    once.  Each request is answered with a success confirmation, sent to
    the connection alone.  A request by a connection that has already
    joined leaves the state untouched and sends the confirmation and the
    current roster again; so it does in the single-channel backend, where
    the notice to the room goes out again as well. *)
Theorem C2_join_is_idempotent PORT st sid c n :
  reachable (VariantA.backend PORT) VariantA.init st →
  sid ∈ connected (VariantA.io st) → c ≠ "" → (0 < n)%nat →
  let st1 := next (VariantA.joinChannel sid (JS.Str c) st) in
  (join_repeatedly n sid (JS.Str c) st).1 = st1
  ∧ c ∈ VariantA.channels_of st1 sid
  ∧ sid ∈ members (VariantA.io st1) c
  ∧ NoDup (members (VariantA.io st1) c)
  ∧ filter (λ p, event (sent_as p) = "joinConfirmation")
      (join_repeatedly n sid (JS.Str c) st).2 =
    replicate n (Packet (Emit (ToSocket sid) "joinConfirmation" (InvA.confirmation c)) [sid])
  ∧ VariantA.joinChannel sid (JS.Str c) st1 =
    Outcome (Normal tt) st1 (InvA.rejoin_reply (VariantA.io st1) sid c) []
  ∧ (∀ st' ids,
       VariantB.own c (VariantB.activeChannels st') = Some ids → sid ∈ ids →
       sid ∈ members (VariantB.io st') c →
       VariantB.joinChannel VariantB.keys_of_set sid (JS.Str c) st' =
       Outcome (Normal tt) st'
         [Packet (Emit (ToRoom (JS.Str c)) "userJoined" (JS.Str sid))
                 (members (VariantB.io st') c);
          Packet (Emit (ToSocket sid) "activeUsers" (users_payload ids))
                 (recipients (VariantB.io st') (ToSocket sid));
          Packet (Emit (ToSocket sid) "joinConfirmation"
                    (JS.Obj [("channelId", JS.Str c); ("success", JS.Bool true);
                             ("error", JS.Null)]))
                 (recipients (VariantB.io st') (ToSocket sid))] []).
Proof.
  intros W%wf_reachable Hs Hc Hn st1.
  assert (InvA.wf st1) as W1 by (by apply wf_joinChannel).
  assert (sid ∈ connected (VariantA.io st1)) as Hs1
    by (subst st1; by rewrite joinChannel_connected).
  assert (c ∈ VariantA.channels_of st1 sid) as Hin1 by (by apply joinChannel_makes_member).
  split_and!; [| done | by apply InvA.wf_joined | by apply InvA.wf_nodup | |
               by apply joinChannel_member |
               intros st' ids; by apply single_channel_rejoin].
  - destruct n as [|n]; [lia|]. cbn [join_repeatedly]. fold st1.
    by rewrite join_repeatedly_member.
  - destruct n as [|n]; [lia|]. cbn [join_repeatedly]. fold st1.
    rewrite join_repeatedly_member by done. cbn [snd].
    rewrite filter_app, confirmations_of_replies. subst st1.
    destruct (decide (c ∈ VariantA.channels_of st sid)) as [Hin|Hout].
    + rewrite joinChannel_member by done. done.
    + rewrite (joinChannel_first st sid _ c) by (done || by apply valid_channel_Str).
      cbn [sent]. rewrite recipients_socket by done. done.
Qed.

Lemma C2_witness :
  (join_repeatedly 3 "B" (JS.Str Demo.channel) (store (Demo.multi Demo.a_joined))).1 =
  next (VariantA.joinChannel "B" (JS.Str Demo.channel) (store (Demo.multi Demo.a_joined))).
Proof.
  apply (C2_join_is_idempotent "8080" (store (Demo.multi Demo.a_joined))
           "B" Demo.channel 3).
  - exists Demo.a_joined. reflexivity.
  - apply has_true. vm_compute. reflexivity.
  - discriminate.
  - lia.
Defined.



(** C8.  When a connection that has joined the [N] channels [cs] closes,
    the ['disconnect'] listener emits exactly [N] [userLeft] notices, one
    to each channel of [cs], received by the members that remain; after
    it the connection is in no roster and its channel set is empty.
    Besides the room named after the connection itself, [cs] are exactly
    the rooms it was in.  The single-channel backend does the same on its
    roster table: one notice for each channel whose roster lists the
    connection, in the order of [Object.keys], and the connection is
    filtered out of every roster. *)
Theorem C8_disconnect_notifies_each_channel PORT now st sid :
  reachable (VariantA.backend PORT) VariantA.init st →
  sid ∈ connected (VariantA.io st) →
  let cs := VariantA.channels_of st sid in
  (∃ o, listener (S := VariantA.backend PORT) now (Close sid) st = Some o
     ∧ result o = Normal tt
     ∧ sent o = map (λ c, Packet (Emit (ToRoom (JS.Str c)) "userLeft" (JS.Str sid))
                                 (JS.remove sid (members (VariantA.io st) c))) cs
     ∧ length (sent o) = length cs
     ∧ NoDup cs
     ∧ (∀ c, sid ∈ members (VariantA.io st) c ↔
             c ∈ cs ∨ (c = sid ∧ sid ∈ members (VariantA.io st) sid))
     ∧ (∀ c, sid ∉ members (VariantA.io (next o)) c)
     ∧ VariantA.channels_of (next o) sid = [])
  ∧ (∀ st', NoDup (VariantB.activeChannels st').*1 →
       let o := VariantB.disconnect sid st' in
       result o = Normal tt
       ∧ VariantB.activeChannels (next o) = InvB.purged sid (VariantB.activeChannels st')
       ∧ sent o = map (λ c, Packet (Emit (ToRoom (JS.Str c)) "userLeft" (JS.Str sid))
                                   (members (VariantB.io st') c))
                      (InvB.listed_in sid (VariantB.activeChannels st'))
       ∧ (∀ k ids, (k, ids) ∈ VariantB.activeChannels (next o) → sid ∉ ids)).
Proof.
  intros W%wf_reachable Hs cs. split; [|intros st'; apply single_channel_disconnect].
  eexists. split; [by apply close_listener|].
  rewrite disconnect_outcome. cbn. subst cs. split_and!; try done.
  - apply map_ext. intros c. by rewrite members_disconnect.
  - by rewrite length_map.
  - by apply InvA.wf_channels.
  - intros c. split.
    + intros Hin. destruct (InvA.wf_rooms _ W _ _ Hin) as [->|]; auto.
    + intros [Hc|[-> Hc]]; [by apply InvA.wf_joined | done].
  - intros c. rewrite members_disconnect. apply not_elem_of_remove.
  - unfold VariantA.channels_of. simpl. by rewrite lookup_insert_eq.
Qed.

Lemma C8_witness :
  ∃ o, listener (S := VariantA.backend "8080") 900 (Close "B")
         (store (Demo.multi Demo.both_joined)) = Some o
    ∧ length (sent o) =
      length (VariantA.channels_of (store (Demo.multi Demo.both_joined)) "B").
Proof.
  destruct (C8_disconnect_notifies_each_channel "8080" 900
              (store (Demo.multi Demo.both_joined)) "B") as [(o & Ho & _ & _ & Hn & _) _].
  - exists Demo.both_joined. reflexivity.
  - apply has_true. vm_compute. reflexivity.
  - exists o. split; [exact Ho | exact Hn].
Defined.

(** C9, as it holds.  [leaveChannel] takes the connection out of the
    named room and out of its own channel set whether or not it was in,
    and always emits [userLeft] to the room; the receivers are the
    members that remain.  A room left without members is deleted.  When
    the connection was not in the room the state does not change, and
    the notice still goes to every member of that room.  The
    single-channel backend leaves and notifies in the same unconditional
    way. *)
Theorem C9_leave_notifies_the_room_regardless PORT st sid c :
  reachable (VariantA.backend PORT) VariantA.init st →
  sid ∈ connected (VariantA.io st) →
  let o := VariantA.leaveChannel sid (JS.Str c) st in
  result o = Normal tt
  ∧ timers o = []
  ∧ sent o = [Packet (Emit (ToRoom (JS.Str c)) "userLeft" (JS.Str sid))
                     (JS.remove sid (members (VariantA.io st) c))]
  ∧ (sid ∉ members (VariantA.io (next o)) c)
  ∧ (c ∉ VariantA.channels_of (next o) sid)
  ∧ (JS.remove sid (members (VariantA.io st) c) = [] →
       rooms (VariantA.io (next o)) !! c = None)
  ∧ (sid ∉ members (VariantA.io st) c →
       next o = st ∧ receivers <$> sent o = [members (VariantA.io st) c])
  ∧ (∀ st',
       VariantB.lookup c (VariantB.activeChannels st') ≠ VariantB.Inherited →
       let o' := VariantB.leaveChannel sid (JS.Str c) st' in
       result o' = Normal tt
       ∧ timers o' = []
       ∧ sent o' = [Packet (Emit (ToRoom (JS.Str c)) "userLeft" (JS.Str sid))
                           (JS.remove sid (members (VariantB.io st') c))]
       ∧ (sid ∉ members (VariantB.io (next o')) c)
       ∧ (∀ ids, VariantB.own c (VariantB.activeChannels (next o')) = Some ids → sid ∉ ids)
       ∧ (JS.remove sid (members (VariantB.io st') c) = [] →
            rooms (VariantB.io (next o')) !! c = None)).
Proof.
  intros W%wf_reachable Hs o. subst o. rewrite leaveChannel_outcome by done. cbn.
  rewrite members_leave, decide_True by done.
  split_and!; try done.
  - apply not_elem_of_remove.
  - rewrite channels_of_insert, decide_True by done. apply not_elem_of_remove.
  - apply leave_drops_empty_room.
  - intros Hout. rewrite (remove_absent _ _ Hout). split; [|done].
    rewrite leave_not_member by (done || apply W).
    assert (c ∉ VariantA.channels_of st sid) as Hc by (intros ?; by apply Hout, W).
    rewrite (remove_absent _ _ Hc). by apply wf_same_channels.
  - intros st'. apply single_channel_leave.
Qed.

Lemma C9_witness :
  sent (VariantA.leaveChannel "B" (JS.Str Demo.channel) (store (Demo.multi Demo.both_joined))) =
  [Packet (Emit (ToRoom (JS.Str Demo.channel)) "userLeft" (JS.Str "B"))
          (JS.remove "B" (members (VariantA.io (store (Demo.multi Demo.both_joined)))
                            Demo.channel))].
Proof.
  destruct (C9_leave_notifies_the_room_regardless "8080"
              (store (Demo.multi Demo.both_joined)) "B" Demo.channel)
    as (_ & _ & Hsent & _).
  - exists Demo.both_joined. reflexivity.
  - apply has_true. vm_compute. reflexivity.
  - exact Hsent.
Defined.

End both_backends.

(** * Further properties of the servers *)

(** ** The multi-channel backend: refusals, isolation, round trips *)

Section more_a.
Import VariantA InvA.
Implicit Types (st : VariantA.state) (sid c : string) (v data : JS.value).

Lemma valid_channel_None v :
  valid_channel v = None ↔ ∀ c, v = JS.Str c → c = "".
Proof.
  split.
  - intros E c ->. destruct (decide (c = "")) as [|Hc]; [done|].
    by rewrite valid_channel_Str in E.
  - intros H. destruct (valid_channel v) as [c|] eqn:E; [|done].
    apply valid_channel_Some in E as [-> Hc]. by specialize (H c eq_refl).
Qed.

(** X1.  A [joinChannel] whose argument is anything but a non-empty
    string never changes the state and schedules nothing.  When the
    argument can be printed, both backends refuse it: the sender alone
    gets a [joinConfirmation] with [success: false] and the error
    ['Invalid channel ID'], the multi-channel backend echoing the
    printed argument (['unknown'] when that is empty).  When it cannot
    be printed (an object whose own [toString] is no function), the log
    line throws: the multi-channel backend sends nothing and the
    exception leaves the listener, the single-channel backend catches it
    and answers with the exception's message. *)
Theorem X1_invalid_join_is_refused keys sid v st (st' : VariantB.state) :
  (∀ c, v = JS.Str c → c = "") →
  VariantA.joinChannel sid v st =
    match JS.to_String v with
    | Some printed =>
        Outcome (Normal tt) st
          [Packet (Emit (ToSocket sid) "joinConfirmation"
                     (JS.Obj [("channelId", JS.Str (JS.or_else printed "unknown"));
                              ("success", JS.Bool false);
                              ("error", JS.Str "Invalid channel ID")]))
                  (recipients (io st) (ToSocket sid))] []
    | None => Outcome (Thrown "Cannot convert object to primitive value") st [] []
    end
  ∧ VariantB.joinChannel keys sid v st' =
    Outcome (Normal tt) st'
      [Packet (Emit (ToSocket sid) "joinConfirmation"
                 (JS.Obj [("channelId", v);
                          ("success", JS.Bool false);
                          ("error",
                           JS.Str (if JS.coercible v then "Invalid channel ID"
                                   else "Cannot convert object to primitive value"))]))
              (recipients (VariantB.io st') (ToSocket sid))] []
  ∧ (∀ i r, r ∈ recipients i (ToSocket sid) → r = sid).
Proof.
  intros Hv%valid_channel_None. split_and!.
  - by apply joinChannel_invalid.
  - unfold VariantB.joinChannel, try_catch. cbv zeta.
    destruct (JS.coercible v) eqn:Ev.
    + rewrite !bind_log by (cbn; by rewrite Ev). by rewrite Hv.
    + rewrite !bind_log_throws by (cbn; by rewrite Ev). done.
  - intros i r. simpl. destruct (JS.has sid (connected i)).
    + by intros ->%list_elem_of_singleton.
    + by intros ?%elem_of_nil.
Qed.

Lemma X1_witness :
  VariantA.joinChannel "A" (JS.Num 446) VariantA.init =
    Outcome (Normal tt) VariantA.init
      [Packet (Emit (ToSocket "A") "joinConfirmation"
                 (JS.Obj [("channelId", JS.Str "446");
                          ("success", JS.Bool false);
                          ("error", JS.Str "Invalid channel ID")]))
              (recipients (io VariantA.init) (ToSocket "A"))] [].
Proof.
  destruct (X1_invalid_join_is_refused VariantB.keys_of_set "A" (JS.Num 446)
              VariantA.init VariantB.init) as (H & _).
  - intros c. discriminate.
  - exact H.
Defined.

(** X2.  In every state the multi-channel backend can reach, rooms and
    joined channels mirror each other: a connection that has joined [c]
    is in room [c]; a connection in room [c] has joined [c] or [c] is the
    room named after it; only live connections are in rooms; no room is
    empty; and joined channels have non-empty names. *)
Theorem X2_rooms_mirror_joined_channels PORT st sid c :
  reachable (backend PORT) VariantA.init st →
  (c ∈ channels_of st sid → sid ∈ members (io st) c ∧ c ≠ "")
  ∧ (sid ∈ members (io st) c →
       sid ∈ connected (io st) ∧ (c = sid ∨ c ∈ channels_of st sid))
  ∧ rooms (io st) !! c ≠ Some []
  ∧ NoDup (members (io st) c)
  ∧ NoDup (channels_of st sid).
Proof.
  intros W%wf_reachable. split_and!.
  - intros Hin. split; [by apply wf_joined | by eapply wf_named].
  - intros Hin. split; [by eapply wf_live | by apply wf_rooms].
  - by apply wf_nonempty.
  - by apply wf_nodup.
  - by apply wf_channels.
Qed.

Lemma X2_witness :
  rooms (io (store (Demo.multi Demo.both_joined))) !! Demo.channel ≠ Some [].
Proof.
  destruct (X2_rooms_mirror_joined_channels "8080"
              (store (Demo.multi Demo.both_joined)) "A" Demo.channel) as (_ & _ & H & _).
  - exists Demo.both_joined. reflexivity.
  - exact H.
Defined.

Lemma leave_join_fresh (i : SocketIO.state) sid c :
  rooms i !! c ≠ Some [] → sid ∉ members i c →
  SocketIO.leave sid c (SocketIO.join sid c i) = i.
Proof.
  intros Hne Hout. unfold SocketIO.leave, SocketIO.join. simpl.
  rewrite lookup_insert_eq. unfold JS.add.
  apply has_false in Hout as Hh. rewrite Hh.
  unfold JS.remove. rewrite filter_app, filter_cons_False, filter_nil, app_nil_r
    by (by intros []).
  fold (JS.remove sid (members i c)). rewrite (remove_absent _ _ Hout).
  destruct i as [r k]. unfold members in *. simpl in *. f_equal.
  destruct (r !! c) as [[|a l]|] eqn:E; simpl; [done | |].
  - rewrite insert_insert_eq. by apply insert_id.
  - rewrite delete_insert_eq. by apply delete_id.
Qed.

(** X3.  Joining a channel and leaving it again brings the multi-channel
    backend back to the state it was in, for a live connection that had
    not joined the channel (and whose own id is not the channel's
    name). *)
Theorem X3_join_then_leave_restores_the_state PORT st sid c :
  reachable (backend PORT) VariantA.init st → sid ∈ connected (io st) →
  c ≠ "" → c ≠ sid → c ∉ channels_of st sid →
  next (leaveChannel sid (JS.Str c) (next (joinChannel sid (JS.Str c) st))) = st.
Proof.
  intros W%wf_reachable Hs Hc Hsid Hout.
  rewrite (joinChannel_first st sid _ c) by (done || by apply valid_channel_Str).
  cbn [next]. rewrite leaveChannel_outcome by done. cbn [next]. unfold joined_state.
  cbn [io userChannels headers SocketIO.leave_value delete_value].
  assert (sid ∉ members (io st) c) as Hroom.
  { intros Hin. destruct (wf_rooms _ W _ _ Hin); done. }
  rewrite leave_join_fresh by (done || apply W).
  rewrite channels_of_insert, decide_True by done.
  unfold JS.add. apply has_false in Hout as Hh. rewrite Hh.
  unfold JS.remove. rewrite filter_app, filter_cons_False, filter_nil, app_nil_r
    by (by intros []).
  fold (JS.remove c (channels_of st sid)). rewrite (remove_absent _ _ Hout).
  rewrite insert_insert_eq. by apply wf_same_channels.
Qed.

Lemma X3_witness :
  next (leaveChannel "B" (JS.Str Demo.channel)
          (next (joinChannel "B" (JS.Str Demo.channel) (store (Demo.multi Demo.a_joined))))) =
  store (Demo.multi Demo.a_joined).
Proof.
  apply (X3_join_then_leave_restores_the_state "8080").
  - exists Demo.a_joined. reflexivity.
  - apply has_true. vm_compute. reflexivity.
  - discriminate.
  - discriminate.
  - apply has_false. vm_compute. reflexivity.
Defined.

Lemma assoc_assoc_set k x fs k' :
  JS.assoc k' (JS.assoc_set k x fs) = if decide (k' = k) then x else JS.assoc k' fs.
Proof.
  induction fs as [|[a v] fs IH]; simpl.
  - destruct (String.eqb k' k) eqn:E.
    + apply String.eqb_eq in E. by rewrite decide_True.
    + apply String.eqb_neq in E. by rewrite decide_False.
  - destruct (String.eqb k a) eqn:Ea; simpl.
    + apply String.eqb_eq in Ea as <-.
      destruct (String.eqb k' k) eqn:E.
      * apply String.eqb_eq in E. by rewrite decide_True.
      * apply String.eqb_neq in E. by rewrite decide_False.
    + apply String.eqb_neq in Ea. rewrite IH.
      destruct (String.eqb k' a) eqn:E; [|done].
      apply String.eqb_eq in E as ->. by rewrite decide_False.
Qed.

Lemma get_after_set d k x k' :
  (∃ fs, d = JS.Obj fs) →
  JS.get (JS.set d k x) k' = if decide (k' = k) then x else JS.get d k'.
Proof. intros [fs ->]. simpl. apply assoc_assoc_set. Qed.

Lemma get_defined_Obj d k : JS.get d k ≠ JS.Undefined → ∃ fs, d = JS.Obj fs.
Proof. destruct d; simpl; try done. eauto. Qed.

(** X4.  Audio sent by a connection to a channel it has joined is
    relayed in one [audioData] packet, and the server state does not
    change.  The packet goes to the members of the channel that are not
    in the room named after the sender; as long as that room holds the
    sender alone, these are the other members of the channel, and the
    sender is not among them.  A string [uri] that starts with
    [/uploads/] is delivered prefixed with protocol and host taken from
    the sender's handshake; any other string [uri] and every other field
    of the payload arrive as sent. *)
Theorem X4_audio_goes_to_the_other_members PORT st sid c data u :
  reachable (backend PORT) VariantA.init st →
  JS.get data "channelId" = JS.Str c → c ∈ channels_of st sid →
  JS.get (JS.get data "data") "uri" = JS.Str u →
  ∃ inner rs,
    audioData PORT sid data st =
      Outcome (Normal tt) st
        [Packet (Emit (ToRoomExcept (JS.Str c) sid) "audioData"
                   (JS.Obj [("userId", JS.Str sid); ("data", inner)])) rs] []
    ∧ (∀ r, r ∈ rs ↔ r ∈ members (io st) c ∧ r ∉ members (io st) sid)
    ∧ (members (io st) sid = [sid] → rs = JS.remove sid (members (io st) c) ∧ sid ∉ rs)
    ∧ JS.get inner "uri" =
        JS.Str (if JS.startsWith "/uploads/" u then full_url PORT sid st u else u)
    ∧ (∀ k, k ≠ "uri" → JS.get inner k = JS.get (JS.get data "data") k).
Proof.
  intros W%wf_reachable Ec Hin Eu.
  assert (c ≠ "") as Hc by (by eapply wf_named).
  assert (∃ fs, JS.get data "data" = JS.Obj fs) as Hobj
    by (apply (get_defined_Obj _ "uri"); by rewrite Eu).
  set (inner := if JS.startsWith "/uploads/" u
                then JS.set (JS.get data "data") "uri" (JS.Str (full_url PORT sid st u))
                else JS.get data "data").
  exists inner, (recipients (io st) (ToRoomExcept (JS.Str c) sid)). split_and!.
  - unfold audioData. rewrite (get_Str_truthy _ _ _ Ec), Ec. cbn [JS.truthy negb orb].
    apply String.eqb_neq in Hc. rewrite Hc. cbn [negb orb].
    rewrite bind_log by done.
    unfold bind at 1. cbn [get result next sent timers has_value].
    apply has_true in Hin. rewrite Hin. cbn [negb].
    subst inner. rewrite Eu. destruct Hobj as [fs Efs]. rewrite Efs.
    cbn [JS.truthy andb].
    destruct (String.eqb u "") eqn:E0; cbn [negb].
    + apply String.eqb_eq in E0 as ->. reflexivity.
    + destruct (JS.startsWith "/uploads/" u); reflexivity.
  - intros r. by rewrite elem_of_recipients_except.
  - intros Eown. rewrite (recipients_except_own _ _ _ Eown). split; [done|].
    apply not_elem_of_remove.
  - subst inner. destruct (JS.startsWith "/uploads/" u); [|done].
    by rewrite get_after_set, decide_True.
  - intros k Hk. subst inner. destruct (JS.startsWith "/uploads/" u); [|done].
    by rewrite get_after_set, decide_False.
Qed.

Lemma X4_witness :
  ∃ inner rs,
    audioData "8080" "A" Demo.audio (store (Demo.multi Demo.both_joined)) =
      Outcome (Normal tt) (store (Demo.multi Demo.both_joined))
        [Packet (Emit (ToRoomExcept (JS.Str Demo.channel) "A") "audioData"
                   (JS.Obj [("userId", JS.Str "A"); ("data", inner)])) rs] []
    ∧ (∀ r, r ∈ rs ↔ r ∈ members (io (store (Demo.multi Demo.both_joined))) Demo.channel
                      ∧ r ∉ members (io (store (Demo.multi Demo.both_joined))) "A").
Proof.
  destruct (X4_audio_goes_to_the_other_members "8080" (store (Demo.multi Demo.both_joined))
              "A" Demo.channel Demo.audio "/uploads/1700000000000-42.m4a")
    as (inner & rs & H1 & H2 & _).
  - exists Demo.both_joined. reflexivity.
  - reflexivity.
  - apply has_true. vm_compute. reflexivity.
  - reflexivity.
  - exists inner, rs. split; [exact H1 | exact H2].
Defined.

Lemma run_crashed (S : server) (w : world S) inputs :
  crashed w = true → run w inputs = (w, []).
Proof.
  intros Hc. induction inputs as [|ti rest IH]; [done|].
  simpl. unfold step. rewrite Hc. by rewrite IH.
Qed.

(** X5.  The [uri] of an audio message is used as a string without a
    check: when a connection that has joined the channel sends a [uri]
    that is truthy but no string, the listener raises before it relays
    anything, nobody catches the exception, and the process serves no
    further input. *)
Theorem X5_non_string_uri_ends_the_process PORT (w : world (backend PORT)) t sid c data :
  crashed w = false → sid ∈ connected (io (store w)) →
  JS.get data "channelId" = JS.Str c → c ≠ "" → c ∈ channels_of (store w) sid →
  JS.truthy (JS.get (JS.get data "data") "uri") = true →
  JS.is_string (JS.get (JS.get data "data") "uri") = false →
  audioData PORT sid data (store w) =
    Outcome (Thrown "uri.startsWith is not a function") (store w) [] []
  ∧ crashed (step w (t, Message sid (AudioData data))).1 = true
  ∧ ∀ later, (run (step w (t, Message sid (AudioData data))).1 later).2 = [].
Proof.
  intros Hw Hs Ec Hc Hin Ht Hns.
  assert (audioData PORT sid data (store w) =
          Outcome (Thrown "uri.startsWith is not a function") (store w) [] []) as E.
  { unfold audioData. rewrite (get_Str_truthy _ _ _ Ec), Ec. cbn [JS.truthy negb orb].
    apply String.eqb_neq in Hc. rewrite Hc. cbn [negb orb].
    rewrite bind_log by done.
    unfold bind at 1. cbn [get result next sent timers has_value].
    apply has_true in Hin. rewrite Hin. cbn [negb].
    assert (JS.truthy (JS.get data "data") = true) as ->.
    { destruct (JS.get data "data"); try done. }
    rewrite Ht. cbn [andb].
    destruct (JS.get (JS.get data "data") "uri"); try done. }
  assert (crashed (step w (t, Message sid (AudioData data))).1 = true) as Es.
  { unfold step. rewrite Hw. cbn [fst snd].
    destruct (due_by _ (pending w)) as [due later] eqn:Ed.
    cbn [listener on_message backend]. apply has_true in Hs.
    change (get_io (store w)) with (io (store w)). rewrite Hs.
    cbn [dispatch]. by rewrite E. }
  split_and!; [done | done | intros later; by rewrite run_crashed].
Qed.

Lemma X5_witness :
  crashed (step (Demo.multi Demo.both_joined)
             (900, Message "A" (AudioData
                (JS.Obj [("channelId", JS.Str Demo.channel);
                         ("data", JS.Obj [("uri", JS.Num 7)])])))).1 = true.
Proof.
  destruct (X5_non_string_uri_ends_the_process "8080" (Demo.multi Demo.both_joined) 900 "A"
              Demo.channel
              (JS.Obj [("channelId", JS.Str Demo.channel);
                       ("data", JS.Obj [("uri", JS.Num 7)])])) as (_ & H & _).
  - reflexivity.
  - apply has_true. vm_compute. reflexivity.
  - reflexivity.
  - discriminate.
  - apply has_true. vm_compute. reflexivity.
  - reflexivity.
  - reflexivity.
  - exact H.
Defined.

(** X6.  What one connection does, its arrival and its departure
    included, never changes which channels another connection has joined,
    which rooms that other connection is in, or whether it is live:
    so it is after every input whose listener returns. *)
Theorem X6_connections_do_not_interfere PORT now i st o sid :
  listener (S := backend PORT) now i st = Some o → result o = Normal tt →
  origin i ≠ Some sid →
  channels_of (next o) sid = channels_of st sid
  ∧ (∀ c, sid ∈ members (io (next o)) c ↔ sid ∈ members (io st) c)
  ∧ (sid ∈ connected (io (next o)) ↔ sid ∈ connected (io st)).
Proof.
  destruct i as [s hs|s m|s|]; simpl; [| | |done].
  - destruct (JS.has s _); [done|]. intros [= <-] _ Hne.
    assert (s ≠ sid) as Hs by congruence.
    unfold connection, modify. cbn [next io set_io get_io state_io userChannels headers].
    split_and!.
    + by rewrite channels_of_insert, decide_False.
    + intros c. rewrite members_connect. case_decide as Hc; [|done].
      subst c. rewrite elem_of_add. naive_solver.
    + unfold SocketIO.connect. cbn [connected]. rewrite elem_of_add, connected_join.
      naive_solver.
  - destruct (JS.has s _); [|done]. intros [= <-] Hres Hne.
    assert (s ≠ sid) as Hs by congruence.
    destruct m as [v|v|v|v|]; cbn [dispatch] in *.
    + destruct (valid_channel v) as [c|] eqn:Ev.
      * destruct (decide (c ∈ channels_of st s)).
        -- by rewrite (joinChannel_again _ _ _ c).
        -- rewrite (joinChannel_first _ _ _ c) by done.
           cbn [next]. unfold joined_state. cbn [io]. split_and!; [| |done].
           ++ by rewrite channels_of_insert, decide_False.
           ++ intros c'. rewrite members_join. case_decide as Hc; [|done].
              subst c'. rewrite elem_of_add. naive_solver.
      * by rewrite joinChannel_invalid_next.
    + destruct (JS.coercible v) eqn:Hv; [|by rewrite leaveChannel_throws in Hres].
      rewrite leaveChannel_outcome by done. cbn [next io]. split_and!.
      * by rewrite channels_of_insert, decide_False.
      * intros c. destruct v; simpl; try done.
        rewrite members_leave. case_decide as Hc; [|done].
        subst c. rewrite elem_of_remove. naive_solver.
      * destruct v; simpl; try done. by rewrite connected_leave.
    + by rewrite pttStatus_next.
    + by rewrite audioData_next.
    + done.
  - destruct (JS.has s _); [|done]. intros [= <-] _ Hne.
    assert (s ≠ sid) as Hs by congruence.
    rewrite disconnect_outcome.
    cbn [next io set_io get_io state_io userChannels headers]. split_and!.
    + by rewrite channels_of_insert, decide_False.
    + intros c. rewrite members_disconnect, elem_of_remove. naive_solver.
    + unfold SocketIO.disconnect. cbn [connected]. rewrite elem_of_remove. naive_solver.
Qed.

Lemma X6_witness :
  ∃ o, listener (S := backend "8080") 900 (Close "B")
         (store (Demo.multi Demo.both_joined)) = Some o
    ∧ channels_of (next o) "A" = channels_of (store (Demo.multi Demo.both_joined)) "A".
Proof.
  eexists. split; [reflexivity|].
  eapply (X6_connections_do_not_interfere "8080" 900 (Close "B")).
  - reflexivity.
  - reflexivity.
  - discriminate.
Defined.

Lemma pttStatus_result st sid data :
  JS.coercible (JS.get data "channelId") && JS.coercible (JS.get data "status") = true →
  result (pttStatus sid data st) = Normal tt.
Proof.
  intros Hp. unfold pttStatus. destruct (_ || _); [done|].
  rewrite bind_log by (cbn [forallb]; by rewrite andb_true_r).
  unfold bind at 1. cbn. by destruct (negb _).
Qed.

Lemma audioData_result PORT st sid data :
  JS.coercible (JS.get data "channelId") = true → uri_usable data = true →
  result (audioData PORT sid data st) = Normal tt.
Proof.
  unfold uri_usable, audioData. intros Hp Hu.
  destruct (negb (JS.truthy data) || negb (JS.truthy (JS.get data "channelId"))); [done|].
  rewrite bind_log by (cbn [forallb]; by rewrite Hp).
  unfold bind at 1. cbn [get result next sent timers].
  destruct (negb (has_value _ _)); [done|].
  destruct (JS.truthy (JS.get data "data")); [|done]. cbn [andb].
  destruct (JS.get (JS.get data "data") "uri") as [| |b|n|u|l|l]; try done.
  - by destruct b.
  - simpl in *. rewrite orb_false_r in Hu. apply negb_true_iff in Hu. by rewrite Hu.
  - destruct (JS.truthy (JS.Str u)); [|done]. by destruct (JS.startsWith _ _).
Qed.

Lemma listener_result PORT now i st o :
  listener (S := backend PORT) now i st = Some o → harmless i = true →
  result o = Normal tt.
Proof.
  destruct i as [s hs|s m|s|]; simpl; [| | |done].
  - destruct (JS.has s _); [done|]. by intros [= <-].
  - destruct (JS.has s _); [|done]. intros [= <-] Hi.
    destruct m as [v|v|v|v|]; cbn [dispatch].
    + destruct (valid_channel v) as [c|] eqn:Ev.
      * destruct (decide (c ∈ channels_of st s)).
        -- by rewrite (joinChannel_again _ _ _ c).
        -- by rewrite (joinChannel_first _ _ _ c).
      * rewrite joinChannel_invalid by done.
        apply coercible_Some in Hi as [printed ->]. done.
    + by rewrite leaveChannel_outcome.
    + by apply pttStatus_result.
    + apply andb_true_iff in Hi as [? ?]. by apply audioData_result.
    + done.
  - destruct (JS.has s _); [|done]. intros [= <-] _. by rewrite disconnect_outcome.
Qed.

(** X19.  Two things only make a listener of the multi-channel backend
    raise: an [audioData] message with a [uri] that is truthy and no
    string, and a channel id or PTT status that the log line cannot
    print (an object whose own [toString] is no function).  The process
    survives every sequence of other inputs, whatever their payloads. *)
Theorem X19_other_inputs_never_end_the_process PORT (w : world (backend PORT)) inputs :
  crashed w = false → Forall (λ ti, harmless ti.2 = true) inputs →
  crashed (run w inputs).1 = false.
Proof.
  revert w. induction inputs as [|ti rest IH]; intros w Hw Hall; [done|].
  apply Forall_cons in Hall as [Hti Hall]. simpl.
  assert (crashed (step w ti).1 = false) as Hw1.
  { unfold step. rewrite Hw. destruct (due_by _ _) as [due later].
    destruct (listener _ _ _) as [o|] eqn:E; [|done].
    cbn [fst crashed]. by rewrite (listener_result _ _ _ _ _ E Hti). }
  destruct (step w ti) as [w1 tr1]. specialize (IH w1 Hw1 Hall).
  by destruct (run w1 rest).
Qed.

Lemma X19_witness :
  crashed (run (boot (S := backend "8080") VariantA.init)
             (Demo.both_joined ++ [(900, Message "A" (AudioData Demo.audio))])).1 = false.
Proof.
  apply X19_other_inputs_never_end_the_process.
  - reflexivity.
  - repeat constructor.
Defined.

End more_a.

(** ** The single-channel backend: what its roster table keeps true *)

Section more_b.
Import VariantB InvB RosterInv.
Implicit Types (st : VariantB.state) (sid c k : string) (v : JS.value)
  (o : list (string * list string)).

Lemma own_keys k o : is_Some (own k o) ↔ k ∈ o.*1.
Proof.
  induction o as [|[k0 ids] o IH]; csimpl.
  - split; [by intros [? ?] | by intros ?%elem_of_nil].
  - destruct (String.eqb_spec k k0) as [->|Hne].
    + split; [intros _; by left | eauto].
    + rewrite IH, elem_of_cons. naive_solver.
Qed.

Lemma own_None k o : own k o = None ↔ k ∉ o.*1.
Proof. rewrite <- own_keys, eq_None_not_Some. done. Qed.

Lemma keys_assign k ids o k' : k' ∈ (assign k ids o).*1 ↔ k' = k ∨ k' ∈ o.*1.
Proof.
  rewrite <- !own_keys, own_assign. case_decide as Hk.
  - subst. split; [auto | eauto].
  - split; [auto | intros [?|?]; [congruence | done]].
Qed.

Lemma NoDup_keys_assign k ids o : NoDup o.*1 → NoDup (assign k ids o).*1.
Proof.
  induction o as [|[k0 ids0] o IH]; csimpl.
  - intros _. apply NoDup_singleton.
  - intros [Hk0 Ho]%NoDup_cons. destruct (String.eqb_spec k k0) as [->|Hne]; csimpl.
    + by apply NoDup_cons.
    + apply NoDup_cons. split; [|auto]. rewrite keys_assign. naive_solver.
Qed.

Lemma own_purged sid k o : own k (purged sid o) = JS.remove sid <$> own k o.
Proof.
  induction o as [|[k0 ids] o IH]; [done|]. csimpl.
  by destruct (String.eqb k k0).
Qed.

Lemma keys_purged sid o : (purged sid o).*1 = o.*1.
Proof. unfold purged. induction o as [|[k0 ids] o IH]; [done|]. csimpl. by f_equal. Qed.

Lemma try_catch_next {A} (m : M VariantB.state A) h st :
  (∀ msg s, next (h msg s) = s) → next (try_catch m h st) = next (m st).
Proof.
  intros Hh. unfold try_catch. destruct (result (m st)); [done|]. cbn. apply Hh.
Qed.

Lemma single_channel_join_next st sid c :
  c ≠ "" →
  next (joinChannel keys_of_set sid (JS.Str c) st) =
  VariantB.mk_state (SocketIO.join sid c (io st)) (joined sid c (activeChannels st)).
Proof.
  intros Hc. unfold joinChannel.
  rewrite (proj2 (valid_channel_Some (JS.Str c) c)) by done.
  rewrite try_catch_next by done.
  match goal with
  | |- next (?m st) = ?s => assert (∃ r ps, m st = Outcome r s ps []) as (r & ps & E)
  end; [|by rewrite E].
  rewrite bind_log by done.
  rewrite bind_get. unfold keys_of_set. cbn [forEach]. rewrite bind_ret.
  unfold socket_join. rewrite bind_modify, bind_roster.
  cbn [set_io get_io state_io activeChannels io]. unfold joined.
  destruct (lookup c (activeChannels st)) as [ids| |] eqn:El.
  - assert (own c (activeChannels st) = Some ids) as Eo.
    { unfold lookup in El. destruct (own c (activeChannels st)); [congruence|].
      by destruct (JS.has c object_prototype). }
    cbv beta iota. rewrite bind_ret, bind_roster. cbn [activeChannels].
    rewrite El. cbv beta iota. destruct (JS.has sid ids) eqn:Eh; cbn [negb].
    + rewrite bind_ret, bind_emit, bind_roster. cbn [activeChannels].
      rewrite El. cbv beta iota. rewrite bind_emit. cbn. eauto.
    + unfold set_roster. rewrite bind_modify. cbn [activeChannels io].
      rewrite bind_emit, bind_roster. cbn [activeChannels].
      rewrite (lookup_own c (ids ++ [sid])) by (by rewrite own_assign, decide_True).
      cbv beta iota. rewrite bind_emit. cbn. eauto.
  - cbv beta iota. rewrite bind_ret, bind_roster. cbn [activeChannels].
    rewrite El. cbv beta iota. rewrite bind_throw. eauto.
  - cbv beta iota. unfold set_roster at 1. rewrite bind_modify.
    rewrite bind_roster. cbn [activeChannels io].
    rewrite (lookup_own c []) by (by rewrite own_assign, decide_True).
    cbv beta iota. assert (JS.has sid [] = false) as -> by (by apply has_false, not_elem_of_nil).
    cbn [negb]. unfold set_roster. rewrite bind_modify. cbn [activeChannels io].
    rewrite assign_assign.
    rewrite bind_emit, bind_roster. cbn [activeChannels].
    rewrite (lookup_own c ([] ++ [sid])) by (by rewrite own_assign, decide_True).
    cbv beta iota. rewrite bind_emit. cbn. eauto.
Qed.

(** [leaveChannel] leaves the room first; the roster is filtered only
    when the channel id can be printed. *)
Lemma single_channel_leave_next st sid v :
  next (leaveChannel sid v st) =
  VariantB.mk_state (SocketIO.leave_value sid v (io st))
    (match JS.to_String v with
     | Some name => left sid name (activeChannels st)
     | None => activeChannels st
     end).
Proof.
  unfold leaveChannel, socket_leave. rewrite bind_modify.
  destruct (JS.to_String v) as [name|] eqn:Ev.
  - rewrite (bind_coerce _ _ _ _ Ev), bind_emit, bind_roster.
    cbn [set_io get_io state_io activeChannels io next]. unfold left.
    by destruct (lookup name (activeChannels st)).
  - by rewrite (bind_coerce_throws _ _ _ Ev).
Qed.

Ltac log_cases :=
  match goal with
  | |- context [log ?vs] =>
      destruct (forallb JS.coercible vs) eqn:?;
        [rewrite bind_log by done | by rewrite bind_log_throws]
  end.

Lemma single_channel_ptt_next st now sid v : next (pttStatus sid now v st) = st.
Proof.
  unfold pttStatus, destructure. destruct v; try done;
    (log_cases; rewrite try_catch_next by done; by destruct (JS.is_false _)).
Qed.

Lemma single_channel_audio_next st sid v : next (audioData sid v st) = st.
Proof.
  unfold audioData, destructure. destruct v; try done;
    (log_cases; rewrite try_catch_next by done; by destruct (_ || _)).
Qed.

Lemma single_channel_disconnect_next st sid :
  NoDup (activeChannels st).*1 →
  next (VariantB.disconnect sid st) =
  VariantB.mk_state (io st) (purged sid (activeChannels st)).
Proof.
  intros Hnd. destruct st as [i o]. cbn [activeChannels io] in *.
  by rewrite disconnect_outcome_b.
Qed.

Lemma lookup_Own k o ids : lookup k o = Own ids ↔ own k o = Some ids.
Proof.
  unfold lookup. destruct (own k o); [|destruct (JS.has k object_prototype)];
    split; congruence.
Qed.

Lemma lookup_Absent k o :
  lookup k o = Absent ↔ own k o = None ∧ k ∉ object_prototype.
Proof.
  unfold lookup. destruct (own k o); [naive_solver|].
  destruct (JS.has k object_prototype) eqn:E.
  - apply has_true in E. naive_solver.
  - apply has_false in E. naive_solver.
Qed.

Lemma rosters_init : wf VariantB.init.
Proof.
  split; simpl; try done.
  - apply NoDup_nil_2.
  - by intros k ?%elem_of_nil.
Qed.

Lemma rosters_connect st sid :
  wf st → wf (VariantB.mk_state (SocketIO.connect sid (io st)) (activeChannels st)).
Proof.
  intros W. split; cbn [io activeChannels]; try apply W.
  - intros k ids s Eo Hin. rewrite members_connect.
    pose proof (roster_room _ W _ _ _ Eo Hin) as Hm.
    case_decide; [subst; apply elem_of_add; by right | done].
  - intros s c. rewrite members_connect. unfold SocketIO.connect. cbn [connected].
    rewrite connected_join, elem_of_add.
    case_decide; [rewrite elem_of_add|]; intros Hx; [destruct Hx as [->|Hx]|];
      eauto using room_live.
Qed.

Lemma rosters_join st sid c :
  wf st → sid ∈ connected (io st) →
  wf (VariantB.mk_state (SocketIO.join sid c (io st)) (joined sid c (activeChannels st))).
Proof.
  intros W Hs.
  assert (∀ s r, s ∈ members (io st) r → s ∈ members (SocketIO.join sid c (io st)) r) as Hgrow.
  { intros s r Hin. rewrite members_join. case_decide; [subst; apply elem_of_add|]; auto. }
  assert (∀ s r, s ∈ members (SocketIO.join sid c (io st)) r → s ∈ connected (io st)) as Hlive.
  { intros s r. rewrite members_join. case_decide; [rewrite elem_of_add|];
      intros Hx; [destruct Hx as [->|Hx]|]; eauto using room_live. }
  unfold joined. destruct (lookup c (activeChannels st)) as [ids| |] eqn:El.
  - apply lookup_Own in El. destruct (JS.has sid ids) eqn:Eh.
    + split; cbn [io activeChannels]; try apply W; eauto using roster_room.
    + apply has_false in Eh. split; cbn [io activeChannels]; [| | | |done].
      * apply NoDup_keys_assign, W.
      * intros k [->|Hk]%keys_assign; [|by apply W].
        apply (keys_plain _ W), own_keys. eauto.
      * intros k ids'. rewrite own_assign. case_decide; [|apply W].
        intros [= <-]. apply NoDup_app. split_and!; [by eapply roster_nodup | |].
        -- intros x Hx ->%list_elem_of_singleton. done.
        -- apply NoDup_singleton.
      * intros k ids' s. rewrite own_assign. case_decide as Hk.
        -- subst k. intros [= <-] [Hin| ->%list_elem_of_singleton]%elem_of_app.
           ++ eauto using roster_room.
           ++ rewrite members_join, decide_True by done. apply elem_of_add. by left.
        -- eauto using roster_room.
  - split; cbn [io activeChannels]; try apply W; eauto using roster_room.
  - apply lookup_Absent in El as [Eo Hproto].
    split; cbn [io activeChannels]; [| | | |done].
    + apply NoDup_keys_assign, W.
    + intros k [->|Hk]%keys_assign; [done | by apply W].
    + intros k ids'. rewrite own_assign. case_decide; [|apply W].
      intros [= <-]. apply NoDup_singleton.
    + intros k ids' s. rewrite own_assign. case_decide as Hk.
      * subst k. intros [= <-] ->%list_elem_of_singleton.
        rewrite members_join, decide_True by done. apply elem_of_add. by left.
      * eauto using roster_room.
Qed.

Lemma rosters_leave st sid v name :
  wf st → JS.to_String v = Some name →
  wf (VariantB.mk_state (SocketIO.leave_value sid v (io st))
        (left sid name (activeChannels st))).
Proof.
  intros W Ev.
  assert (∀ s r, s ∈ members (SocketIO.leave_value sid v (io st)) r →
                 s ∈ members (io st) r) as Hshrink.
  { intros s r. destruct v; simpl; try done. rewrite members_leave.
    case_decide; [subst; rewrite elem_of_remove; tauto | done]. }
  assert (∀ s r, s ≠ sid ∨ JS.Str r ≠ v → s ∈ members (io st) r →
                 s ∈ members (SocketIO.leave_value sid v (io st)) r) as Hstay.
  { intros s r Hor Hin. destruct v; simpl; try done. rewrite members_leave.
    case_decide; [subst; rewrite elem_of_remove; naive_solver | done]. }
  assert (connected (SocketIO.leave_value sid v (io st)) = connected (io st)) as Hconn.
  { destruct v; simpl; try done. apply connected_leave. }
  unfold left. destruct (lookup name (activeChannels st)) as [ids| |] eqn:El.
  - apply lookup_Own in El.
    split; cbn [io activeChannels].
    + apply NoDup_keys_assign, W.
    + intros k [->|Hk]%keys_assign; [|by apply W].
      apply (keys_plain _ W), own_keys. eauto.
    + intros k ids'. rewrite own_assign. case_decide; [|apply W].
      intros [= <-]. apply NoDup_remove. by eapply roster_nodup.
    + intros k ids' s. rewrite own_assign. case_decide as Hk.
      * subst k. intros [= <-] [Hne Hin]%elem_of_remove.
        apply Hstay; [by left | eauto using roster_room].
      * intros Eo Hin. apply Hstay; [|eauto using roster_room].
        right. intros <-. simpl in Ev. congruence.
    + intros s r Hin. rewrite Hconn. eauto using room_live.
  - assert (own name (activeChannels st) = None) as Eo.
    { unfold lookup in El. by destruct (own _ _). }
    split; cbn [io activeChannels]; try apply W.
    + intros k ids s Ek Hin. apply Hstay; [|eauto using roster_room].
      right. intros <-. simpl in Ev. congruence.
    + intros s r Hin. rewrite Hconn. eauto using room_live.
  - apply lookup_Absent in El as [Eo _].
    split; cbn [io activeChannels]; try apply W.
    + intros k ids s Ek Hin. apply Hstay; [|eauto using roster_room].
      right. intros <-. simpl in Ev. congruence.
    + intros s r Hin. rewrite Hconn. eauto using room_live.
Qed.

Lemma rosters_disconnect st sid :
  wf st →
  wf (VariantB.mk_state (SocketIO.disconnect sid (io st)) (purged sid (activeChannels st))).
Proof.
  intros W. split; cbn [io activeChannels].
  - rewrite keys_purged. apply W.
  - rewrite keys_purged. apply W.
  - intros k ids. rewrite own_purged.
    destruct (own k (activeChannels st)) as [ids0|] eqn:Eo; [|done].
    intros [= <-]. apply NoDup_remove. by eapply roster_nodup.
  - intros k ids s. rewrite own_purged.
    destruct (own k (activeChannels st)) as [ids0|] eqn:Eo; [|done].
    intros [= <-] [Hne Hin]%elem_of_remove.
    rewrite members_disconnect, elem_of_remove. eauto using roster_room.
  - intros s c. rewrite members_disconnect, elem_of_remove. intros [Hne Hin].
    unfold SocketIO.disconnect. cbn [connected]. rewrite elem_of_remove.
    eauto using room_live.
Qed.

Lemma rosters_listener now i st out :
  wf st → listener (S := backend keys_of_set) now i st = Some out → wf (next out).
Proof.
  intros W. destruct i as [sid hs|sid m|sid|]; simpl; [| | |done].
  - destruct (JS.has sid _); [done|]. intros [= <-]. by apply rosters_connect.
  - destruct (JS.has sid _) eqn:E; [|done]. intros [= <-].
    apply has_true in E. destruct m as [v|v|v|v|]; cbn [dispatch].
    + destruct (valid_channel v) as [c|] eqn:Ev.
      * apply valid_channel_Some in Ev as [-> Hc].
        rewrite single_channel_join_next by done. by apply rosters_join.
      * unfold joinChannel. rewrite try_catch_next by done. rewrite Ev.
        by log_cases.
    + rewrite single_channel_leave_next.
      destruct (JS.to_String v) as [name|] eqn:Es; [by apply rosters_leave|].
      assert (SocketIO.leave_value sid v (io st) = io st) as -> by (by destruct v).
      by destruct st.
    + by rewrite single_channel_ptt_next.
    + by rewrite single_channel_audio_next.
    + done.
  - destruct (JS.has sid _); [|done]. intros [= <-].
    cbn [on_disconnect backend set_io get_io state_io].
    rewrite single_channel_disconnect_next by (cbn [activeChannels]; apply W).
    cbn [io activeChannels]. by apply rosters_disconnect.
Qed.

Lemma rosters_run inputs (w : world (backend keys_of_set)) :
  wf (store w) → wf (store (run w inputs).1).
Proof.
  revert w. induction inputs as [|ti rest IH]; intros w W; [done|].
  simpl. assert (wf (store (step w ti).1)) as W1.
  { unfold step. destruct (crashed w); [done|].
    destruct (due_by _ _) as [due later].
    destruct (listener _ _ _) as [out|] eqn:E; simpl; [|done].
    by eapply rosters_listener. }
  destruct (step w ti) as [w1 tr1]. specialize (IH w1 W1).
  by destruct (run w1 rest).
Qed.

Lemma rosters_reachable st :
  reachable (backend keys_of_set) VariantB.init st → wf st.
Proof. intros [inputs <-]. apply rosters_run, rosters_init. Qed.

(** X7.  In every state the single-channel backend can reach, a roster
    lists only live connections that are in the channel's room, lists none
    of them twice, and no roster is kept under a name that every object
    inherits; the table has one roster per name. *)
Theorem X7_rosters_list_live_members st k ids :
  reachable (backend keys_of_set) VariantB.init st →
  own k (activeChannels st) = Some ids →
  NoDup ids
  ∧ (∀ sid, sid ∈ ids → sid ∈ members (io st) k ∧ sid ∈ connected (io st))
  ∧ (k ∉ object_prototype)
  ∧ NoDup (activeChannels st).*1.
Proof.
  intros W%rosters_reachable Eo. split_and!.
  - by eapply roster_nodup.
  - intros sid Hin. assert (sid ∈ members (io st) k) by eauto using roster_room.
    eauto using room_live.
  - apply (keys_plain _ W), own_keys. eauto.
  - apply W.
Qed.

Lemma X7_witness :
  "B" ∈ members (io (store (Demo.single Demo.both_joined))) Demo.channel
  ∧ "B" ∈ connected (io (store (Demo.single Demo.both_joined))).
Proof.
  destruct (X7_rosters_list_live_members (store (Demo.single Demo.both_joined))
              Demo.channel ["A"; "B"]) as (_ & H & _).
  - exists Demo.both_joined. vm_compute. reflexivity.
  - vm_compute. reflexivity.
  - apply H. apply has_true. vm_compute. reflexivity.
Defined.

Lemma prototype_named c : c ∈ object_prototype → c ≠ "".
Proof. intros Hin ->. apply has_true in Hin. vm_compute in Hin. discriminate. Qed.

(** X8.  A name that every object inherits ([constructor], [toString],
    ..) never becomes a channel of the single-channel backend.  A join
    under such a name puts the connection into the room all the same, but
    is answered with a failure confirmation and lists nobody; a leave
    under such a name notifies the room and then raises a [TypeError] that
    nothing catches, so that the process serves no further input. *)
Theorem X8_inherited_names_are_no_channels (w : world (backend keys_of_set)) t sid c :
  reachable (backend keys_of_set) VariantB.init (store w) →
  crashed w = false → sid ∈ connected (io (store w)) → c ∈ object_prototype →
  let st := store w in
  let joined_io := SocketIO.join sid c (io st) in
  joinChannel keys_of_set sid (JS.Str c) st =
    Outcome (Normal tt) (VariantB.mk_state joined_io (activeChannels st))
      [Packet (Emit (ToSocket sid) "joinConfirmation"
                 (JS.Obj [("channelId", JS.Str c); ("success", JS.Bool false);
                          ("error",
                           JS.Str "activeChannels[channelId].includes is not a function")]))
              [sid]] []
  ∧ sid ∈ members joined_io c
  ∧ own c (activeChannels st) = None
  ∧ leaveChannel sid (JS.Str c) st =
    Outcome (Thrown "activeChannels[channelId].filter is not a function")
      (VariantB.mk_state (SocketIO.leave sid c (io st)) (activeChannels st))
      [Packet (Emit (ToRoom (JS.Str c)) "userLeft" (JS.Str sid))
              (JS.remove sid (members (io st) c))] []
  ∧ crashed (step w (t, Message sid (LeaveChannel (JS.Str c)))).1 = true
  ∧ ∀ later, (run (step w (t, Message sid (LeaveChannel (JS.Str c)))).1 later).2 = [].
Proof.
  intros W%rosters_reachable Hw Hs Hc st joined_io. subst joined_io st.
  assert (own c (activeChannels (store w)) = None) as Eo.
  { apply own_None. intros Hk. by apply (keys_plain _ W) in Hk. }
  assert (lookup c (activeChannels (store w)) = Inherited) as El.
  { unfold lookup. rewrite Eo. apply has_true in Hc. by rewrite Hc. }
  assert (leaveChannel sid (JS.Str c) (store w) =
    Outcome (Thrown "activeChannels[channelId].filter is not a function")
      (VariantB.mk_state (SocketIO.leave sid c (io (store w))) (activeChannels (store w)))
      [Packet (Emit (ToRoom (JS.Str c)) "userLeft" (JS.Str sid))
              (JS.remove sid (members (io (store w)) c))] []) as Eleave.
  { unfold leaveChannel, socket_leave.
    rewrite bind_modify, (bind_coerce _ c) by done. rewrite bind_emit, bind_roster.
    cbn [set_io get_io state_io activeChannels io JS.to_String SocketIO.leave_value].
    rewrite El. cbn. by rewrite members_leave, decide_True. }
  assert (crashed (step w (t, Message sid (LeaveChannel (JS.Str c)))).1 = true) as Es.
  { unfold step. rewrite Hw. cbn [fst snd].
    destruct (due_by _ (pending w)) as [due later] eqn:Ed.
    cbn [listener on_message backend]. apply has_true in Hs.
    change (get_io (store w)) with (io (store w)). rewrite Hs.
    cbn [dispatch]. by rewrite Eleave. }
  split_and!; [| | done | done | done | intros later; by rewrite run_crashed].
  - unfold joinChannel.
    rewrite (proj2 (valid_channel_Some (JS.Str c) c)) by (by split; [|apply prototype_named]).
    match goal with
    | |- try_catch ?m ?h (store w) = _ =>
        assert (m (store w) = Outcome (Thrown "activeChannels[channelId].includes is not a function")
                         (VariantB.mk_state (SocketIO.join sid c (io (store w)))
                            (activeChannels (store w))) [] []) as E
    end.
    { rewrite bind_log by done.
      rewrite bind_get. cbn [keys_of_set forEach]. rewrite bind_ret.
      unfold socket_join. rewrite bind_modify, bind_roster.
      cbn [set_io get_io state_io activeChannels io]. rewrite El.
      cbv beta iota. rewrite bind_ret, bind_roster. cbn [activeChannels].
      rewrite El. cbv beta iota. by rewrite bind_throw. }
    unfold try_catch. rewrite E. cbn.
    assert (JS.has sid (connected (io (store w))) = true) as -> by (by apply has_true).
    done.
  - rewrite members_join, decide_True by done. apply elem_of_add. by left.
Qed.

Lemma X8_witness :
  crashed (step (Demo.single Demo.both_joined)
             (900, Message "A" (LeaveChannel (JS.Str "toString")))).1 = true.
Proof.
  destruct (X8_inherited_names_are_no_channels (Demo.single Demo.both_joined) 900 "A"
              "toString") as (_ & _ & _ & _ & H & _).
  - exists Demo.both_joined. vm_compute. reflexivity.
  - vm_compute. reflexivity.
  - apply has_true. vm_compute. reflexivity.
  - apply has_true. vm_compute. reflexivity.
  - exact H.
Defined.

(** X9.  The [pttStatus] and [audioData] listeners of the single-channel
    backend take their argument apart in the parameter list: a message
    that carries no payload ([undefined] or [null]) raises a [TypeError]
    before the listener's body runs.  Nothing is sent, the state is
    unchanged, and the process serves no further input. *)
Theorem X9_single_channel_needs_a_payload keys (w : world (backend keys)) t sid v m :
  crashed w = false → sid ∈ connected (io (store w)) →
  v = JS.Undefined ∨ v = JS.Null →
  m = PttStatus v ∨ m = AudioData v →
  listener (S := backend keys) (Z.max (clock w) t) (Message sid m) (store w) =
    Some (Outcome (Thrown "Cannot destructure") (store w) [] [])
  ∧ crashed (step w (t, Message sid m)).1 = true
  ∧ store (step w (t, Message sid m)).1 = store w
  ∧ ∀ later, (run (step w (t, Message sid m)).1 later).2 = [].
Proof.
  intros Hw Hs Hv Hm.
  assert (listener (S := backend keys) (Z.max (clock w) t) (Message sid m) (store w) =
          Some (Outcome (Thrown "Cannot destructure") (store w) [] [])) as El.
  { cbn [listener on_message backend]. apply has_true in Hs.
    change (get_io (store w)) with (io (store w)). rewrite Hs.
    by destruct Hv as [-> | ->], Hm as [-> | ->]. }
  assert (crashed (step w (t, Message sid m)).1 = true
          ∧ store (step w (t, Message sid m)).1 = store w) as [Ec Est].
  { unfold step. rewrite Hw. cbn [fst snd].
    destruct (due_by _ (pending w)) as [due later] eqn:Ed. by rewrite El. }
  split_and!; [done | done | done | intros later; by rewrite run_crashed].
Qed.

Lemma X9_witness :
  crashed (step (Demo.single Demo.both_joined)
             (900, Message "A" (PttStatus JS.Undefined))).1 = true.
Proof.
  destruct (X9_single_channel_needs_a_payload VariantB.keys_of_set
              (Demo.single Demo.both_joined) 900 "A" JS.Undefined (PttStatus JS.Undefined))
    as (_ & H & _).
  - vm_compute. reflexivity.
  - apply has_true. vm_compute. reflexivity.
  - by left.
  - by left.
  - exact H.
Defined.

Lemma single_channel_join_outcome st sid c :
  c ≠ "" → lookup c (activeChannels st) ≠ Inherited →
  ∃ ids, own c (joined sid c (activeChannels st)) = Some ids ∧ sid ∈ ids
    ∧ joinChannel keys_of_set sid (JS.Str c) st =
      Outcome (Normal tt)
        (VariantB.mk_state (SocketIO.join sid c (io st)) (joined sid c (activeChannels st)))
        [Packet (Emit (ToRoom (JS.Str c)) "userJoined" (JS.Str sid))
                (JS.add sid (members (io st) c));
         Packet (Emit (ToSocket sid) "activeUsers" (users_payload ids))
                (recipients (SocketIO.join sid c (io st)) (ToSocket sid));
         Packet (Emit (ToSocket sid) "joinConfirmation"
                   (JS.Obj [("channelId", JS.Str c); ("success", JS.Bool true);
                            ("error", JS.Null)]))
                (recipients (SocketIO.join sid c (io st)) (ToSocket sid))] [].
Proof.
  intros Hc Hl. unfold joinChannel.
  rewrite (proj2 (valid_channel_Some (JS.Str c) c)) by done.
  assert (∀ o' ids,
            own c o' = Some ids →
            bind (emit (ToRoom (JS.Str c)) "userJoined" (JS.Str sid))
              (λ _, bind (roster c)
                 (λ r, bind (emit (ToSocket sid) "activeUsers"
                               (match r with Own ids => users_payload ids
                                | _ => JS.Undefined end))
                         (λ _, sendConfirmation sid (JS.Str c) true JS.Undefined)))
              (VariantB.mk_state (SocketIO.join sid c (io st)) o') =
            Outcome (Normal tt) (VariantB.mk_state (SocketIO.join sid c (io st)) o')
              [Packet (Emit (ToRoom (JS.Str c)) "userJoined" (JS.Str sid))
                      (JS.add sid (members (io st) c));
               Packet (Emit (ToSocket sid) "activeUsers" (users_payload ids))
                      (recipients (SocketIO.join sid c (io st)) (ToSocket sid));
               Packet (Emit (ToSocket sid) "joinConfirmation"
                         (JS.Obj [("channelId", JS.Str c); ("success", JS.Bool true);
                                  ("error", JS.Null)]))
                      (recipients (SocketIO.join sid c (io st)) (ToSocket sid))] []) as Htail.
  { intros o' ids Eo. rewrite bind_emit, bind_roster. cbn [activeChannels].
    rewrite (lookup_own _ _ _ Eo). cbv beta iota. rewrite bind_emit.
    cbn. by rewrite members_join, decide_True. }
  unfold joined. destruct (lookup c (activeChannels st)) as [ids| |] eqn:El; [|done|].
  - apply lookup_Own in El as Eo. destruct (JS.has sid ids) eqn:Eh.
    + exists ids. split_and!; [done | by apply has_true |].
      match goal with
      | |- try_catch ?m ?h st = ?out =>
          assert (m st = out) as E;
            [|by rewrite (try_catch_normal _ _ _ tt), E by (by rewrite E)]
      end.
      rewrite bind_log by done.
      rewrite bind_get. cbn [keys_of_set forEach]. rewrite bind_ret.
      unfold socket_join. rewrite bind_modify, bind_roster.
      cbn [set_io get_io state_io activeChannels io]. rewrite El.
      cbv beta iota. rewrite bind_ret, bind_roster. cbn [activeChannels].
      rewrite El. cbv beta iota. rewrite Eh. cbn [negb]. rewrite bind_ret.
      by apply Htail.
    + exists (ids ++ [sid]). split_and!; [by rewrite own_assign, decide_True | set_solver |].
      match goal with
      | |- try_catch ?m ?h st = ?out =>
          assert (m st = out) as E;
            [|by rewrite (try_catch_normal _ _ _ tt), E by (by rewrite E)]
      end.
      rewrite bind_log by done.
      rewrite bind_get. cbn [keys_of_set forEach]. rewrite bind_ret.
      unfold socket_join. rewrite bind_modify, bind_roster.
      cbn [set_io get_io state_io activeChannels io]. rewrite El.
      cbv beta iota. rewrite bind_ret, bind_roster. cbn [activeChannels].
      rewrite El. cbv beta iota. rewrite Eh. cbn [negb].
      unfold set_roster. rewrite bind_modify. cbn [activeChannels io].
      apply Htail. by rewrite own_assign, decide_True.
  - exists [sid]. split_and!; [by rewrite own_assign, decide_True | set_solver |].
    match goal with
    | |- try_catch ?m ?h st = ?out =>
        assert (m st = out) as E;
          [|by rewrite (try_catch_normal _ _ _ tt), E by (by rewrite E)]
    end.
    rewrite bind_log by done.
    rewrite bind_get. cbn [keys_of_set forEach]. rewrite bind_ret.
    unfold socket_join. rewrite bind_modify, bind_roster.
    cbn [set_io get_io state_io activeChannels io]. rewrite El.
    cbv beta iota. unfold set_roster at 1. rewrite bind_modify.
    rewrite bind_roster. cbn [activeChannels io].
    rewrite (lookup_own c []) by (by rewrite own_assign, decide_True).
    cbv beta iota. assert (JS.has sid [] = false) as -> by (by apply has_false, not_elem_of_nil).
    cbn [negb]. unfold set_roster. rewrite bind_modify. cbn [activeChannels io].
    rewrite assign_assign. apply Htail. by rewrite own_assign, decide_True.
Qed.

(** X18.  Where the rooms of a socket are a [Set], the loop of the
    single-channel backend that is to leave the other channels finds no
    channel to leave: a connection listed in channel [c] that joins
    another channel [d] stays listed in [c] and stays in its room, nobody
    is told that it left, and from then on it is listed in both. *)
Theorem X18_joining_does_not_leave st sid c d ids :
  reachable (backend keys_of_set) VariantB.init st →
  own c (activeChannels st) = Some ids → sid ∈ ids →
  d ≠ c → d ≠ "" → d ∉ object_prototype →
  let out := joinChannel keys_of_set sid (JS.Str d) st in
  result out = Normal tt
  ∧ own c (activeChannels (next out)) = Some ids
  ∧ sid ∈ members (io (next out)) c
  ∧ (∃ ids', own d (activeChannels (next out)) = Some ids' ∧ sid ∈ ids')
  ∧ Forall (λ p, event (sent_as p) ≠ "userLeft") (sent out)
  ∧ timers out = [].
Proof.
  intros W%rosters_reachable Eo Hin Hdc Hd Hproto out. subst out.
  assert (lookup d (activeChannels st) ≠ Inherited) as Hl.
  { unfold lookup. destruct (own d (activeChannels st)); [done|].
    apply has_false in Hproto. by rewrite Hproto. }
  destruct (single_channel_join_outcome st sid d Hd Hl) as (ids' & Eo' & Hin' & ->).
  cbn [result next sent timers io activeChannels]. split_and!; [done | | | eauto | | done].
  - unfold joined. destruct (lookup d (activeChannels st)) as [l| |]; [|done|].
    + destruct (JS.has sid l); [done|]. by rewrite own_assign, decide_False.
    + by rewrite own_assign, decide_False.
  - rewrite members_join, decide_False by done. eauto using roster_room.
  - repeat constructor; simpl; discriminate.
Qed.

Lemma X18_witness :
  own Demo.channel
    (activeChannels
       (next (joinChannel keys_of_set "A" (JS.Str "freq-446.05")
                (store (Demo.single Demo.both_joined))))) = Some ["A"; "B"].
Proof.
  destruct (X18_joining_does_not_leave (store (Demo.single Demo.both_joined)) "A"
              Demo.channel "freq-446.05" ["A"; "B"]) as (_ & H & _).
  - exists Demo.both_joined. vm_compute. reflexivity.
  - vm_compute. reflexivity.
  - apply has_true. vm_compute. reflexivity.
  - discriminate.
  - discriminate.
  - apply has_false. vm_compute. reflexivity.
  - exact H.
Defined.

End more_b.

(** ** The sweeper when deletions may fail *)

Section more_store.
Import MediaStore StoreSpec.
Variable unlink_fails : string → bool.
Implicit Types (st : MediaStore.state) (f : string) (now : Z).

(** The second loop, whatever [unlinkSync] does: a file leaves the disk
    only if it is untracked and past the maximal age, and a name enters
    the tracking map only with the modification time of a file that is
    not. *)
Lemma scan_untracked_safe now files (acc : MediaStore.state * Z) f :
  let st' := (scan_untracked unlink_fails now files acc).1 in
  (get f (uploads st') = get f (uploads acc.1)
   ∨ (get f (uploads st') = None ∧ get f (uploadedFiles acc.1) = None
      ∧ ∃ m, get f (uploads acc.1) = Some m ∧ FILE_MAX_AGE_MS < now - m))
  ∧ (get f (uploadedFiles st') = get f (uploadedFiles acc.1)
     ∨ (get f (uploadedFiles acc.1) = None
        ∧ ∃ m, get f (uploadedFiles st') = Some m ∧ get f (uploads acc.1) = Some m
               ∧ now - m ≤ FILE_MAX_AGE_MS)).
Proof.
  cbv zeta. revert acc. induction files as [|k rest IH]; intros [st n]; [by split; left|].
  cbn [scan_untracked]. cbn [fst].
  destruct (has k (uploadedFiles st)) eqn:Eh; [apply (IH (st, n))|].
  assert (get k (uploadedFiles st) = None) as Ek.
  { unfold has in Eh. by destruct (get k (uploadedFiles st)). }
  destruct (get k (uploads st)) as [m|] eqn:Em; [|by split; left].
  destruct (now - m >? FILE_MAX_AGE_MS) eqn:Eage.
  - apply Z.gtb_lt in Eage. destruct (unlink_fails k); [by split; left|].
    specialize (IH (MediaStore.mk_state (uploadedFiles st) (del k (uploads st)), n + 1)).
    cbn [fst uploads uploadedFiles] in IH. rewrite get_del in IH.
    destruct (decide (k = f)) as [->|Hk]; [|exact IH].
    destruct IH as [Hd Ht]. split.
    + right. split_and!; [|done|eauto]. destruct Hd as [->|[-> _]]; done.
    + left. by destruct Ht as [?|(_ & ? & _ & [=] & _)].
  - assert (now - m ≤ FILE_MAX_AGE_MS) as Hle
      by (destruct (Z.gtb_spec (now - m) FILE_MAX_AGE_MS); [done|lia]).
    specialize (IH (MediaStore.mk_state (set k m (uploadedFiles st)) (uploads st), n)).
    cbn [fst uploads uploadedFiles] in IH. rewrite get_set in IH.
    destruct (decide (k = f)) as [->|Hk]; [|exact IH].
    destruct IH as [Hd Ht]. split.
    + destruct Hd as [?|(_ & [=] & _)]. by left.
    + right. split; [done|]. exists m. split_and!; try done.
      by destruct Ht as [?|[[=] _]].
Qed.

Lemma sweep_safe now st f :
  wf st →
  let st' := sweep unlink_fails now st in
  (resolve f st' = resolve f st ∨ resolve f st' = None)
  ∧ (∀ m, resolve f st = Some m → kept now (get f (uploadedFiles st)) m = true →
       resolve f st' = Some m)
  ∧ (∀ ts, get f (uploadedFiles st') = Some ts → now - ts ≤ FILE_MAX_AGE_MS).
Proof.
  intros [H1 H2] st'. subst st'. unfold sweep, cleanupOldFiles, resolve.
  set (acc := foldl (expire_tracked unlink_fails now) (st, 0) (uploadedFiles st)).
  destruct (expire_tracked_spec unlink_fails now (uploadedFiles st) (st, 0) f) as [Et Ed].
  fold acc in Et, Ed. cbv zeta in Et, Ed. cbn [fst] in Et, Ed.
  rewrite expired_in_get in Et, Ed by done.
  destruct (scan_untracked_safe now (uploads acc.1).*1 acc f) as [Sd St'].
  cbv zeta in Sd, St'. split_and!.
  - destruct Sd as [->|[-> _]]; [|by right]. rewrite Ed.
    destruct (_ && _); [by right | by left].
  - intros m Em Hkept. unfold kept in Hkept.
    destruct (get f (uploadedFiles st)) as [ts|] eqn:Ets.
    + apply negb_true_iff in Hkept. rewrite Hkept in Et, Ed. cbn [andb] in Ed.
      destruct Sd as [->|(_ & Hn & _)]; [by rewrite Ed | congruence].
    + cbn [andb] in Ed. apply negb_true_iff in Hkept.
      destruct Sd as [->|(_ & _ & m' & Em' & Hold)]; [by rewrite Ed|].
      rewrite Ed, Em in Em'. injection Em' as <-.
      destruct (Z.gtb_spec (now - m) FILE_MAX_AGE_MS); [done|lia].
  - intros ts Ets. destruct St' as [E|(_ & m & Em & _ & Hle)].
    + rewrite E, Et in Ets. destruct (get f (uploadedFiles st)) as [ts0|]; [|done].
      destruct (Z.gtb_spec (now - ts0) FILE_MAX_AGE_MS); [done|].
      injection Ets as <-. lia.
    + rewrite Em in Ets. injection Ets as <-. done.
Qed.

(** X10.  Whatever deletions fail, one run of the sweeper only removes
    files: a file it leaves has the modification time it had; it never
    removes a file that is not past the maximal age (by its tracked time,
    or by its modification time when untracked); and every entry it
    leaves in the tracking map is within the maximal age. *)
Theorem X10_sweep_removes_only_expired_files now st f :
  wf st →
  let st' := sweep unlink_fails now st in
  (resolve f st' = resolve f st ∨ resolve f st' = None)
  ∧ (∀ m, resolve f st = Some m → kept now (get f (uploadedFiles st)) m = true →
       resolve f st' = Some m)
  ∧ (∀ ts, get f (uploadedFiles st') = Some ts → now - ts ≤ FILE_MAX_AGE_MS).
Proof. apply sweep_safe. Qed.

Lemma length_del k (m : list (string * Z)) :
  NoDup m.*1 → has k m = true → (length (del k m) + 1 = length m)%nat.
Proof.
  induction m as [|[k0 v] m IH]; csimpl; [done|].
  intros [Hk0 Hm]%NoDup_cons. unfold has. simpl.
  destruct (String.eqb_spec k k0) as [->|Hne]; simpl.
  - intros _. assert (del k0 m = m) as ->; [|lia].
    clear IH Hm. induction m as [|[k1 v1] m IH]; csimpl in *; [done|].
    apply not_elem_of_cons in Hk0 as [Hne Hk0].
    destruct (String.eqb_spec k0 k1); [done|]. f_equal. auto.
  - intros Hh. specialize (IH Hm Hh). lia.
Qed.

Lemma expire_tracked_count now es (acc : MediaStore.state * Z) :
  NoDup (uploads acc.1).*1 →
  let r := foldl (expire_tracked unlink_fails now) acc es in
  NoDup (uploads r.1).*1
  ∧ r.2 + Z.of_nat (length (uploads r.1)) = acc.2 + Z.of_nat (length (uploads acc.1)).
Proof.
  cbv zeta. revert acc. induction es as [|[k ts] es IH]; intros [st n] Hnd; [done|].
  cbn [foldl]. cbn [fst snd] in *.
  assert (NoDup (uploads (expire_tracked unlink_fails now (st, n) (k, ts)).1).*1
          ∧ (expire_tracked unlink_fails now (st, n) (k, ts)).2
            + Z.of_nat (length (uploads (expire_tracked unlink_fails now (st, n) (k, ts)).1))
            = n + Z.of_nat (length (uploads st))) as [Hnd1 Hc1].
  { unfold expire_tracked. destruct (now - ts >? FILE_MAX_AGE_MS); [|done].
    destruct (has k (uploads st)) eqn:Eh; [|done].
    destruct (unlink_fails k); [done|]. cbn [fst snd uploads].
    split; [by apply NoDup_keys_del|].
    pose proof (length_del k (uploads st) Hnd Eh). lia. }
  destruct (IH _ Hnd1) as [Hnd2 Hc2]. split; [done|]. lia.
Qed.

Lemma scan_untracked_count now files (acc : MediaStore.state * Z) :
  NoDup (uploads acc.1).*1 →
  let r := scan_untracked unlink_fails now files acc in
  r.2 + Z.of_nat (length (uploads r.1)) = acc.2 + Z.of_nat (length (uploads acc.1)).
Proof.
  cbv zeta. revert acc. induction files as [|k rest IH]; intros [st n] Hnd; [done|].
  cbn [scan_untracked]. cbn [fst snd] in *.
  destruct (has k (uploadedFiles st)); [by apply (IH (st, n))|].
  destruct (get k (uploads st)) as [m|] eqn:Em; [|done].
  destruct (now - m >? FILE_MAX_AGE_MS).
  - destruct (unlink_fails k); [done|].
    rewrite IH by (by apply NoDup_keys_del). cbn [fst snd uploads].
    assert (has k (uploads st) = true) as Eh by (unfold has; by rewrite Em).
    pose proof (length_del k (uploads st) Hnd Eh). lia.
  - by rewrite IH.
Qed.

(** X11.  The number the sweeper reports ([deletedCount]) is the number
    of files it has removed from the directory, whatever deletions
    fail. *)
Theorem X11_deleted_count_is_exact now st :
  NoDup (uploads st).*1 →
  (cleanupOldFiles unlink_fails now st).2 =
  Z.of_nat (length (uploads st)) - Z.of_nat (length (uploads (sweep unlink_fails now st))).
Proof.
  intros Hnd. unfold sweep, cleanupOldFiles.
  set (acc := foldl (expire_tracked unlink_fails now) (st, 0) (uploadedFiles st)).
  destruct (expire_tracked_count now (uploadedFiles st) (st, 0) Hnd) as [Hnd1 Hc1].
  fold acc in Hnd1, Hc1. cbn [fst snd] in Hc1.
  pose proof (scan_untracked_count now (uploads acc.1).*1 acc Hnd1) as Hc2.
  cbv zeta in Hc2. lia.
Qed.

Lemma get_elem_of k v (m : list (string * Z)) :
  NoDup m.*1 → (k, v) ∈ m → get k m = Some v.
Proof.
  induction m as [|[k0 v0] m IH]; csimpl; [by intros _ ?%elem_of_nil|].
  intros [Hk0 Hm]%NoDup_cons [[= -> ->]|Hin]%elem_of_cons.
  - by rewrite String.eqb_refl.
  - destruct (String.eqb_spec k k0) as [->|Hne]; [|auto].
    exfalso. apply Hk0. apply list_elem_of_fmap. by exists (k0, v).
Qed.

Lemma expire_tracked_young now es (acc : MediaStore.state * Z) :
  (∀ k ts, (k, ts) ∈ es → now - ts ≤ FILE_MAX_AGE_MS) →
  foldl (expire_tracked unlink_fails now) acc es = acc.
Proof.
  revert acc. induction es as [|[k ts] es IH]; intros [st n] Hy; [done|].
  cbn [foldl]. unfold expire_tracked at 2.
  assert ((now - ts >? FILE_MAX_AGE_MS) = false) as ->.
  { specialize (Hy k ts ltac:(by left)).
    destruct (Z.gtb_spec (now - ts) FILE_MAX_AGE_MS); [lia|done]. }
  apply IH. intros k' ts' Hin. apply (Hy k'). by right.
Qed.

Lemma scan_untracked_tracked now files (acc : MediaStore.state * Z) :
  (∀ g, g ∈ files → has g (uploadedFiles acc.1) = true) →
  scan_untracked unlink_fails now files acc = acc.
Proof.
  induction files as [|k rest IH]; intros Ht; [done|].
  destruct acc as [st n]. cbn [scan_untracked]. cbn [fst] in *.
  rewrite (Ht k) by (by left). apply IH. intros g Hg. apply Ht. by right.
Qed.

(** X12.  On a store whose deletions succeed, a second run of the
    sweeper at the same instant finds nothing to do: it reports no
    deletion and leaves the tracking map and the directory exactly as the
    first run left them. *)
Theorem X12_sweep_twice_is_sweep_once now st :
  (∀ g, unlink_fails g = false) → wf st →
  cleanupOldFiles unlink_fails now (sweep unlink_fails now st) =
  (sweep unlink_fails now st, 0).
Proof.
  intros Hok W. pose proof (sweep_wf unlink_fails now st W) as [K1 K2].
  set (s1 := sweep unlink_fails now st) in *.
  unfold cleanupOldFiles.
  rewrite expire_tracked_young.
  - apply scan_untracked_tracked. cbn [fst]. intros g Hg.
    apply get_keys in Hg as [m Em].
    destruct (sweep_spec unlink_fails now st g Hok W) as [Ed Et].
    fold s1 in Ed, Et. unfold resolve in Ed. rewrite Em in Ed.
    unfold has. rewrite Et. unfold resolve.
    destruct (get g (uploads st)) as [m0|]; [|done]. simpl in Ed.
    unfold kept in Ed. simpl. unfold if_young.
    destruct (get g (uploadedFiles st)) as [ts|];
      [destruct (now - ts >? FILE_MAX_AGE_MS) eqn:Eage
      |destruct (now - m0 >? FILE_MAX_AGE_MS) eqn:Eage];
      rewrite ?Eage in Ed; done.
  - intros k ts Hin. apply (get_elem_of _ _ _ K1) in Hin.
    pose proof (sweep_safe now st k W) as Hs. cbv zeta in Hs.
    destruct Hs as (_ & _ & Hs). by apply Hs.
Qed.

End more_store.

Lemma X10_witness :
  MediaStore.resolve "0-42.m4a"
    (MediaStore.sweep (λ _, true) 100000 Demo.one_upload) = Some 0.
Proof.
  destruct (X10_sweep_removes_only_expired_files (λ _, true) 100000 Demo.one_upload "0-42.m4a")
    as (_ & H & _).
  - apply upload_wf. split; apply NoDup_nil_2.
  - apply H; reflexivity.
Defined.

Lemma X12_witness :
  MediaStore.cleanupOldFiles Demo.no_failure 200000
    (MediaStore.sweep Demo.no_failure 200000 Demo.one_upload) =
  (MediaStore.sweep Demo.no_failure 200000 Demo.one_upload, 0).
Proof.
  apply X12_sweep_twice_is_sweep_once.
  - reflexivity.
  - apply upload_wf. split; apply NoDup_nil_2.
Defined.

Lemma X11_witness :
  (MediaStore.cleanupOldFiles (λ _, false) 250000 Demo.one_upload).2 =
  Z.of_nat (length (MediaStore.uploads Demo.one_upload))
  - Z.of_nat (length (MediaStore.uploads
                        (MediaStore.sweep (λ _, false) 250000 Demo.one_upload))).
Proof.
  apply X11_deleted_count_is_exact. vm_compute. apply NoDup_singleton.
Defined.

(** ** The second cleaner *)

Section more_cleaner.
Import MediaStore AudioCleanup.
Variable unlink_fails : string → bool.
Implicit Types (f : string) (now : Z).

Lemma forEach_file_safe now files (acc : list (string * Z) * Z) f :
  get f (forEach_file unlink_fails now files acc).1 = get f acc.1
  ∨ (get f (forEach_file unlink_fails now files acc).1 = None
     ∧ endsWith ".m4a" f = true
     ∧ ∃ m, get f acc.1 = Some m ∧ maxAge < now - m).
Proof.
  revert acc. induction files as [|k rest IH]; intros [disk n]; [by left|].
  cbn [forEach_file]. cbn [fst].
  destruct (endsWith ".m4a" k) eqn:Ek; [|apply (IH (disk, n))].
  destruct (get k disk) as [m|] eqn:Em; [|by left].
  destruct (now - m >? maxAge) eqn:Eage; [|apply (IH (disk, n))].
  apply Z.gtb_lt in Eage. destruct (unlink_fails k); [by left|].
  specialize (IH (del k disk, n + 1)). cbn [fst] in IH. rewrite get_del in IH.
  destruct (decide (k = f)) as [->|Hk]; [|exact IH].
  right. split_and!; [|done|eauto]. destruct IH as [->|[-> _]]; done.
Qed.

Lemma forEach_file_spec now files (acc : list (string * Z) * Z) f :
  NoDup files → (∀ g, g ∈ files → unlink_fails g = false) →
  (∀ g, g ∈ files → is_Some (get g acc.1)) →
  get f (forEach_file unlink_fails now files acc).1 =
  if decide (f ∈ files)
  then get f acc.1 ≫= λ m, if endsWith ".m4a" f && (now - m >? maxAge)
                            then None else Some m
  else get f acc.1.
Proof.
  revert acc. induction files as [|k rest IH]; intros [disk n] Hnd Hok Hon.
  { by rewrite decide_False by apply not_elem_of_nil. }
  apply NoDup_cons in Hnd as [Hk Hnd]. cbn [forEach_file]. cbn [fst] in *.
  assert (∀ g, g ∈ rest → unlink_fails g = false) as Hok' by (intros; apply Hok; by right).
  destruct (Hon k ltac:(by left)) as [m Em]. rewrite Em.
  assert (get f (forEach_file unlink_fails now rest (disk, n)).1 =
          if decide (f ∈ k :: rest)
          then get f disk ≫= λ m, if (if decide (f = k) then false else endsWith ".m4a" f)
                                      && (now - m >? maxAge) then None else Some m
          else get f disk) as Hskip.
  { rewrite IH by (done || intros; apply Hon; by right). cbn [fst].
    destruct (decide (f = k)) as [->|Hf].
    - rewrite decide_False, decide_True by (done || by left). rewrite Em. done.
    - destruct (decide (f ∈ rest)).
      + by rewrite decide_True by (by right).
      + rewrite decide_False; [done|]. by intros [?|?]%elem_of_cons. }
  destruct (endsWith ".m4a" k) eqn:Ek.
  - destruct (now - m >? maxAge) eqn:Eage.
    + rewrite (Hok k) by (by left).
      rewrite IH; [|done|done|].
      * cbn [fst]. rewrite get_del. destruct (decide (k = f)) as [<-|Hf].
        -- rewrite decide_False, decide_True by (done || by left).
           rewrite Em. simpl. by rewrite Ek, Eage.
        -- destruct (decide (f ∈ rest)).
           ++ by rewrite decide_True by (by right).
           ++ rewrite decide_False; [done|]. intros [?|?]%elem_of_cons; congruence.
      * intros g Hg. cbn [fst]. rewrite get_del, decide_False; [apply Hon; by right|].
        intros ->. done.
    + rewrite Hskip. destruct (decide (f ∈ k :: rest)); [|done].
      destruct (get f disk) as [m'|] eqn:Em'; [|done]. simpl.
      destruct (decide (f = k)) as [->|]; [|done].
      rewrite Em in Em'. injection Em' as <-. by rewrite Ek, Eage.
  - rewrite Hskip. destruct (decide (f ∈ k :: rest)); [|done].
    destruct (get f disk) as [m'|] eqn:Em'; [|done]. simpl.
    destruct (decide (f = k)) as [->|]; [|done]. by rewrite Ek.
Qed.

Lemma cleaner_spec now st f :
  NoDup (uploads st).*1 →
  let st' := (cleanupOldAudioFiles unlink_fails now st).1 in
  uploadedFiles st' = uploadedFiles st
  ∧ (resolve f st' = resolve f st
     ∨ (resolve f st' = None ∧ endsWith ".m4a" f = true
        ∧ ∃ m, resolve f st = Some m ∧ maxAge < now - m))
  ∧ ((∀ g, unlink_fails g = false) →
     resolve f st' =
     resolve f st ≫= λ m, if endsWith ".m4a" f && (now - m >? maxAge)
                           then None else Some m).
Proof.
  intros Hnd st'. subst st'. unfold cleanupOldAudioFiles, resolve. cbn [fst uploads].
  split_and!; [done | apply forEach_file_safe |].
  intros Hok. rewrite forEach_file_spec; cbn [fst]; [|done|auto|].
  - case_decide as Hin; [done|]. destruct (get f (uploads st)) eqn:E; [|done].
    exfalso. apply Hin, get_keys. eauto.
  - intros g Hg. by apply get_keys.
Qed.

(** X13.  The second cleaner of the multi-channel backend never touches
    the tracking map, and removes nothing but [.m4a] files whose
    modification time lies more than ten minutes back, whatever deletions
    fail; when none fails it removes every such file. *)
Theorem X13_audio_cleaner_removes_old_m4a_only now st f :
  NoDup (uploads st).*1 →
  let st' := (cleanupOldAudioFiles unlink_fails now st).1 in
  uploadedFiles st' = uploadedFiles st
  ∧ (resolve f st' = resolve f st
     ∨ (resolve f st' = None ∧ endsWith ".m4a" f = true
        ∧ ∃ m, resolve f st = Some m ∧ maxAge < now - m))
  ∧ ((∀ g, unlink_fails g = false) →
     resolve f st' =
     resolve f st ≫= λ m, if endsWith ".m4a" f && (now - m >? maxAge)
                           then None else Some m).
Proof. apply cleaner_spec. Qed.

Lemma forEach_file_keys now files (acc : list (string * Z) * Z) :
  NoDup acc.1.*1 → NoDup (forEach_file unlink_fails now files acc).1.*1.
Proof.
  revert acc. induction files as [|k rest IH]; intros [disk n] Hnd; [done|].
  cbn [forEach_file]. cbn [fst] in *.
  destruct (endsWith ".m4a" k); [|by apply (IH (disk, n))].
  destruct (get k disk) as [m|]; [|done].
  destruct (now - m >? maxAge); [|by apply (IH (disk, n))].
  destruct (unlink_fails k); [done|]. apply IH. cbn [fst]. by apply NoDup_keys_del.
Qed.

(** X20.  The sweeper and the second cleaner work on the same
    directory from different timers.  When deletions succeed, the order
    in which the two run at an instant makes no difference: either way
    the same files are left, and the same names are tracked with the same
    times. *)
Theorem X20_the_two_cleaners_commute now st f :
  (∀ g, unlink_fails g = false) → StoreSpec.wf st →
  let a := sweep unlink_fails now (cleanupOldAudioFiles unlink_fails now st).1 in
  let b := (cleanupOldAudioFiles unlink_fails now (sweep unlink_fails now st)).1 in
  resolve f a = resolve f b
  ∧ get f (uploadedFiles a) = get f (uploadedFiles b).
Proof.
  intros Hok W a b. subst a b. pose proof W as [W1 W2].
  pose proof (sweep_wf unlink_fails now st W) as [S1 S2].
  assert (StoreSpec.wf (cleanupOldAudioFiles unlink_fails now st).1) as Wc.
  { split; [done|]. unfold cleanupOldAudioFiles. cbn [fst uploads].
    by apply forEach_file_keys. }
  destruct (sweep_spec unlink_fails now _ f Hok Wc) as [Ea Ta].
  destruct (sweep_spec unlink_fails now st f Hok W) as [Es Ts].
  destruct (cleaner_spec now st f W2) as (Kc & _ & Ec).
  destruct (cleaner_spec now (sweep unlink_fails now st) f S2) as (Kb & _ & Eb).
  cbv zeta in *. specialize (Ec Hok). specialize (Eb Hok).
  rewrite Ea, Ta, Kc, Ec, Eb, Kb, Es, Ts. clear.
  unfold StoreSpec.kept, StoreSpec.if_young, maxAge, FILE_MAX_AGE_MS.
  destruct (resolve f st) as [m|]; simpl; [|by destruct (get f (uploadedFiles st))].
  destruct (endsWith ".m4a" f); simpl;
    destruct (get f (uploadedFiles st)) as [ts|]; simpl;
    repeat match goal with
           | |- context [?x >? ?y] => destruct (Z.gtb_spec x y); simpl
           end; try done; lia.
Qed.

End more_cleaner.

Lemma X20_witness :
  MediaStore.resolve "0-42.m4a"
    (MediaStore.sweep Demo.no_failure 200000
       (AudioCleanup.cleanupOldAudioFiles Demo.no_failure 200000 Demo.one_upload).1) =
  MediaStore.resolve "0-42.m4a"
    (AudioCleanup.cleanupOldAudioFiles Demo.no_failure 200000
       (MediaStore.sweep Demo.no_failure 200000 Demo.one_upload)).1.
Proof.
  apply X20_the_two_cleaners_commute.
  - reflexivity.
  - apply upload_wf. split; apply NoDup_nil_2.
Defined.

Lemma X13_witness :
  MediaStore.resolve "0-42.m4a"
    (AudioCleanup.cleanupOldAudioFiles Demo.no_failure 700000 Demo.one_upload).1 = None.
Proof.
  destruct (X13_audio_cleaner_removes_old_m4a_only Demo.no_failure 700000 Demo.one_upload
              "0-42.m4a") as (_ & _ & H).
  - vm_compute. apply NoDup_singleton.
  - rewrite H; reflexivity.
Defined.

(** ** From the upload route to the relay *)

Section more_upload.
Import VariantA InvA UploadRoute.

(** X14.  A request to the upload route that carries no file, or that
    the upload middleware rejects, is answered with status 400 and
    changes nothing.  A stored file is tracked from the instant of the
    request on, and is served; and when the uploader then announces it by
    its bare [filePath], the relay hands on the very [fileUrl] the route
    returned, provided the upload request and the socket's handshake
    carried the same headers.  It goes to the members of the channel that
    are not in the room named after the uploader: the other members of
    the channel, as long as that room holds the uploader alone. *)
Theorem X14_relay_delivers_the_uploaded_url
    PORT st sid c hs r t0 now t1 rid (disk : MediaStore.state) :
  reachable (backend PORT) VariantA.init st →
  headers st !! sid = Some hs → c ∈ channels_of st sid →
  let out := upload PORT hs r t0 now t1 rid disk in
  match r with
  | Stored filename size written =>
      status out.1 = 200
      ∧ MediaStore.get filename (MediaStore.uploadedFiles out.2) = Some now
      ∧ MediaStore.resolve filename out.2 = Some written
      ∧ ∃ url rs,
          JS.get (body out.1) "fileUrl" = JS.Str url
          ∧ audioData PORT sid
              (JS.Obj [("channelId", JS.Str c);
                       ("data", JS.Obj [("uri", JS.get (body out.1) "filePath")])]) st =
            Outcome (Normal tt) st
              [Packet (Emit (ToRoomExcept (JS.Str c) sid) "audioData"
                         (JS.Obj [("userId", JS.Str sid);
                                  ("data", JS.Obj [("uri", JS.Str url)])])) rs] []
          ∧ (∀ x, x ∈ rs ↔ x ∈ members (io st) c ∧ x ∉ members (io st) sid)
          ∧ (members (io st) sid = [sid] → rs = JS.remove sid (members (io st) c))
  | _ => status out.1 = 400 ∧ out.2 = disk
         ∧ JS.get (body out.1) "success" = JS.Bool false
  end.
Proof.
  intros W%wf_reachable Hhs Hin out. subst out.
  destruct r as [msg| |filename size written]; [done | done |].
  cbn [upload fst snd status body].
  split_and!; [done | | |].
  - cbn. by rewrite get_set, decide_True.
  - unfold MediaStore.resolve. cbn. by rewrite get_set, decide_True.
  - assert (c ≠ "") as Hc by (by eapply wf_named).
    exists (fileUrl PORT hs ("/uploads/" +:+ filename)),
           (recipients (io st) (ToRoomExcept (JS.Str c) sid)).
    split_and!; [done | | intros x; by rewrite elem_of_recipients_except
                 | intros Eown; by rewrite (recipients_except_own _ _ _ Eown)].
    unfold audioData. cbn [JS.get JS.assoc String.eqb Ascii.eqb Bool.eqb JS.truthy].
    cbn [String.eqb Ascii.eqb Bool.eqb].
    apply String.eqb_neq in Hc. rewrite Hc. cbn [negb orb].
    rewrite bind_log by done.
    unfold bind at 1. cbn [get result next sent timers has_value].
    apply has_true in Hin. rewrite Hin. cbn [negb].
    assert (JS.startsWith "/uploads/" ("/uploads/" +:+ filename) = true) as Hpre
      by (unfold JS.startsWith; cbn; by destruct filename).
    unfold bind. cbn [JS.get JS.assoc String.eqb Ascii.eqb Bool.eqb JS.truthy andb negb].
    rewrite Hpre.
    assert (full_url PORT sid st ("/uploads/" +:+ filename) =
            fileUrl PORT hs ("/uploads/" +:+ filename)) as ->.
    { unfold full_url, fileUrl, headers_of_request in *. by rewrite Hhs. }
    reflexivity.
Qed.

Lemma X14_witness :
  status (upload "8080" [("host", "relay.example:8080")]
            (Stored "7-1.m4a" 2048 6) 5 7 8 "5-3" (MediaStore.mk_state [] [])).1 = 200.
Proof.
  destruct (X14_relay_delivers_the_uploaded_url "8080" (store (Demo.multi Demo.both_joined))
              "A" Demo.channel [("host", "relay.example:8080")]
              (Stored "7-1.m4a" 2048 6) 5 7 8 "5-3" (MediaStore.mk_state [] []))
    as (H & _).
  - exists Demo.both_joined. reflexivity.
  - reflexivity.
  - apply has_true. vm_compute. reflexivity.
  - exact H.
Defined.

End more_upload.

(** ** The health check *)

Section more_health.
Import Health.
Implicit Types (c : conn) (e : event).

Lemma life_closed ss c : connected c = false → life (map Check ss) c = c.
Proof.
  intros Hc. induction ss as [|s ss IH]; [done|].
  cbn [map life foldl]. fold (life (map Check ss) (handle c (Check s))).
  assert (handle c (Check s) = c) as ->; [|done].
  simpl. unfold healthCheck. by rewrite Hc.
Qed.

Lemma ordered_from from from' events :
  from' ≤ from → ordered from events → ordered from' events.
Proof. destruct events as [|e events]; [done|]. simpl. intros ? [? ?]. split; [lia|done]. Qed.

Lemma life_heard events c :
  connected c = true →
  ordered (lastActivity c) events →
  (∀ pre s post, events = pre ++ Check s :: post →
     ∃ a, (a ≤ lastActivity c ∨ Incoming a ∈ pre) ∧ s - a ≤ 60000) →
  connected (life events c) = true.
Proof.
  revert c. induction events as [|e events IH]; intros c Hc Hord Hheard; [done|].
  destruct Hord as [Hle Hord].
  cbn [life foldl]. fold (life events (handle c e)).
  destruct e as [now|s]; simpl in *.
  - unfold updateActivity. apply IH; [done | done |].
    intros pre s post ->.
    destruct (Hheard (Incoming now :: pre) s post eq_refl) as (a & Ha & Hs).
    destruct Ha as [Ha|[[= ->]|Ha]%elem_of_cons]; simpl.
    + exists a. split; [left; lia | done].
    + exists now. split; [by left | done].
    + exists a. split; [by right | done].
  - destruct (Hheard [] s events eq_refl) as (a & [Ha|Ha%elem_of_nil] & Hs); [|done].
    unfold healthCheck. rewrite Hc.
    assert ((s - lastActivity c >? 60000) = false) as ->.
    { destruct (Z.gtb_spec (s - lastActivity c) 60000); [lia|done]. }
    apply IH; [done | by apply (ordered_from s) |].
    intros pre s' post ->.
    destruct (Hheard (Check s :: pre) s' post eq_refl) as (a' & Ha' & Hs').
    exists a'. split; [|done].
    destruct Ha' as [?|[[=]|?]%elem_of_cons]; auto.
Qed.

(** X15.  The health check never closes a connection that keeps being
    heard from: if every run of the check comes at most 60 s after the
    connection was accepted or after some earlier message, the connection
    is still open after any such sequence of messages and checks. *)
Theorem X15_heard_connections_stay_open t0 events :
  ordered t0 events →
  (∀ pre s post, events = pre ++ Check s :: post →
     ∃ a, (a = t0 ∨ Incoming a ∈ pre) ∧ s - a ≤ 60000) →
  connected (life events (accept t0)) = true.
Proof.
  intros Hord Hheard. apply life_heard; [done | done |].
  intros pre s post E. destruct (Hheard pre s post E) as (a & [->|Ha] & Hs).
  - exists t0. split; [left; simpl; lia | done].
  - exists a. split; [by right | done].
Qed.

Lemma X15_witness :
  connected (life [Incoming 8000; Check 30000; Incoming 38000; Check 60000; Check 90000]
               (accept 0)) = true.
Proof.
  apply X15_heard_connections_stay_open.
  - simpl. lia.
  - intros pre s post E.
    destruct pre as [|e0 [|e1 [|e2 [|e3 [|e4 pre]]]]]; simplify_eq/=;
      try (by destruct pre).
    + exists 8000. split; [right; repeat constructor | lia].
    + exists 38000. split; [right; repeat constructor | lia].
    + exists 38000. split; [right; repeat constructor | lia].
Defined.

Lemma life_silent ss c :
  connected c = true →
  life (map Check ss) c =
  if existsb (λ s, s - lastActivity c >? 60000) ss
  then Conn (lastActivity c) false else c.
Proof.
  intros Hc. induction ss as [|s ss IH]; [done|].
  cbn [map life foldl existsb]. fold (life (map Check ss) (handle c (Check s))).
  simpl. unfold healthCheck. rewrite Hc.
  destruct (s - lastActivity c >? 60000); simpl; [|done].
  by apply life_closed.
Qed.

(** X16.  A connection that falls silent is closed by the health check
    more than 60 s and at most 90 s after it was last heard from: it is
    still open once the timer has run every check due within 60 s of the
    last message, and closed once it has run every check due within
    90 s. *)
Theorem X16_silent_connections_are_closed t0 c until :
  connected c = true → t0 ≤ lastActivity c →
  let c' := life (map Check (checks t0 until)) c in
  (until ≤ lastActivity c + 60000 → c' = c)
  ∧ (lastActivity c + 90000 ≤ until → connected c' = false)
  ∧ lastActivity c' = lastActivity c.
Proof.
  intros Hc Ht0 c'. subst c'. rewrite life_silent by done.
  set (a := lastActivity c).
  assert (0 < CHECK_INTERVAL_MS) as Hpos by done.
  split_and!.
  - intros Hu. destruct (existsb _ _) eqn:E; [|done].
    apply existsb_exists in E as (s & Hs & Hold). apply Z.gtb_lt in Hold.
    apply list_elem_of_In, list_elem_of_fmap in Hs as (k & -> & Hk).
    apply elem_of_seq in Hk as [_ Hk]. exfalso.
    pose proof (Z.mul_div_le (until - t0) CHECK_INTERVAL_MS Hpos) as Hlo.
    assert (Z.of_nat (S k) ≤ (until - t0) / CHECK_INTERVAL_MS) as Hk' by lia.
    assert (CHECK_INTERVAL_MS * Z.of_nat (S k)
            ≤ CHECK_INTERVAL_MS * ((until - t0) / CHECK_INTERVAL_MS)) as Hm
      by (apply Z.mul_le_mono_nonneg_l; lia).
    lia.
  - intros Hu.
    assert (existsb (λ s, s - a >? 60000) (checks t0 until) = true) as ->; [|done].
    apply existsb_exists.
    set (q := (a + 60000 - t0) / CHECK_INTERVAL_MS).
    assert (0 ≤ q) as Hq by (apply Z.div_pos; lia).
    pose proof (Z.mul_div_le (a + 60000 - t0) CHECK_INTERVAL_MS Hpos) as Hlo.
    pose proof (Z.mul_succ_div_gt (a + 60000 - t0) CHECK_INTERVAL_MS Hpos) as Hhi.
    fold q in Hlo, Hhi.
    exists (t0 + Z.of_nat (S (Z.to_nat q)) * CHECK_INTERVAL_MS). split.
    + apply list_elem_of_In, list_elem_of_fmap. exists (Z.to_nat q). split; [done|].
      apply elem_of_seq. split; [lia|]. simpl.
      assert (q + 1 ≤ (until - t0) / CHECK_INTERVAL_MS); [|lia].
      apply Z.div_le_lower_bound; [done|]. unfold CHECK_INTERVAL_MS in *. lia.
    + apply Z.gtb_lt. rewrite Nat2Z.inj_succ, Z2Nat.id by done. lia.
  - by destruct (existsb _ _).
Qed.

Lemma X16_witness :
  connected (life (map Check (checks 0 130000)) (life [Incoming 38000] (accept 0))) = false.
Proof.
  destruct (X16_silent_connections_are_closed 0 (life [Incoming 38000] (accept 0)) 130000)
    as (_ & H & _).
  - reflexivity.
  - simpl. lia.
  - apply H. simpl. lia.
Defined.

End more_health.

(** ** A client that goes through [SocketService] *)

Section more_client.
Import VariantA InvA.
Implicit Types (st : VariantA.state) (sid c : string) (cur : option string).

Lemma join_adds st sid c :
  c ≠ "" →
  channels_of (next (joinChannel sid (JS.Str c) st)) sid = JS.add c (channels_of st sid).
Proof.
  intros Hc. destruct (decide (c ∈ channels_of st sid)) as [Hin|Hout].
  - rewrite (joinChannel_again _ _ _ c) by (done || by apply valid_channel_Str).
    by rewrite add_member.
  - rewrite (joinChannel_first _ _ _ c) by (done || by apply valid_channel_Str).
    cbn [next]. unfold joined_state. by rewrite channels_of_insert, decide_True.
Qed.

Lemma leave_removes st sid c :
  channels_of (next (leaveChannel sid (JS.Str c) st)) sid = JS.remove c (channels_of st sid).
Proof.
  rewrite leaveChannel_outcome by done. cbn [next].
  by rewrite channels_of_insert, decide_True.
Qed.

Lemma dispatch_keeps PORT now sid m st :
  wf st → sid ∈ connected (io st) →
  wf (next (dispatch PORT now sid m st))
  ∧ sid ∈ connected (io (next (dispatch PORT now sid m st))).
Proof.
  intros W Hs. split.
  - apply (wf_listener PORT now (Message sid m) st); [done|].
    simpl. apply has_true in Hs. by rewrite Hs.
  - destruct m as [v|v|v|v|]; cbn [dispatch].
    + by rewrite joinChannel_connected.
    + destruct (JS.coercible v) eqn:Hv; [|by rewrite leaveChannel_throws].
      rewrite leaveChannel_outcome by done. cbn [next io].
      destruct v; simpl; try done. by rewrite connected_leave.
    + by rewrite pttStatus_next.
    + by rewrite audioData_next.
    + done.
Qed.

(** A connection that has just been accepted is live and has an empty
    channel set. *)
Lemma connect_fresh PORT t sid hs st fresh :
  wf st → listener (S := backend PORT) t (Connect sid hs) st = Some fresh →
  wf (next fresh) ∧ sid ∈ connected (io (next fresh)) ∧ channels_of (next fresh) sid = [].
Proof.
  intros W E. split; [by apply (wf_listener PORT t (Connect sid hs) st)|].
  simpl in E. destruct (JS.has sid _); [done|]. injection E as <-.
  unfold connection, modify. cbn [next io set_io get_io state_io userChannels headers].
  split.
  - unfold SocketIO.connect. cbn [connected]. apply elem_of_add. by left.
  - by rewrite channels_of_insert, decide_True.
Qed.

Lemma session_in_step PORT now sid cs cur st :
  wf st → sid ∈ connected (io st) →
  channels_of st sid = option_list cur → cur ≠ Some "" →
  (∀ c, Client.Join c ∈ cs → c ≠ "") →
  let r := Client.session PORT now sid cs (cur, st) in
  wf r.2 ∧ sid ∈ connected (io r.2)
  ∧ channels_of r.2 sid = option_list r.1 ∧ r.1 ≠ Some "".
Proof.
  cbv zeta. revert cur st. induction cs as [|call cs IH]; intros cur st W Hs Hsync Hcur Hnames.
  { done. }
  assert (∀ c, Client.Join c ∈ cs → c ≠ "") as Hnames' by (intros; apply Hnames; by right).
  cbn [Client.session fst snd].
  destruct call as [c|c]; cbn [Client.perform].
  - assert (c ≠ "") as Hc by (apply Hnames; by left).
    unfold Client.joinChannel. case_bool_decide as Hsame; [by apply IH|].
    destruct cur as [p|]; simpl in Hsync.
    + assert (p ≠ "") as Hp by congruence.
      apply String.eqb_neq in Hp as Hp'. rewrite Hp'. cbn [app foldl].
      destruct (dispatch_keeps PORT now sid (LeaveChannel (JS.Str p)) st W Hs) as [W1 Hs1].
      destruct (dispatch_keeps PORT now sid (JoinChannel (JS.Str c)) _ W1 Hs1) as [W2 Hs2].
      apply IH; [done | done | | congruence | done].
      cbn [dispatch]. rewrite join_adds by done. cbn [dispatch]. rewrite leave_removes, Hsync.
      unfold JS.remove. rewrite filter_cons_False, filter_nil by (by intros []).
      done.
    + cbn [app foldl].
      destruct (dispatch_keeps PORT now sid (JoinChannel (JS.Str c)) st W Hs) as [W1 Hs1].
      apply IH; [done | done | | congruence | done].
      cbn [dispatch]. rewrite join_adds by done. by rewrite Hsync.
  - unfold Client.leaveChannel. cbn [foldl].
    destruct (dispatch_keeps PORT now sid (LeaveChannel (JS.Str c)) st W Hs) as [W1 Hs1].
    apply IH; [done | done | | by case_bool_decide | done].
    cbn [dispatch]. rewrite leave_removes, Hsync.
    case_bool_decide as Hsame.
    + subst cur. simpl. unfold JS.remove.
      by rewrite filter_cons_False, filter_nil by (by intros []).
    + destruct cur as [p|]; [|done]. simpl. unfold JS.remove.
      rewrite filter_cons_True by congruence. done.
Qed.

Lemma session_last_join PORT now sid rest c cur st :
  wf st → sid ∈ connected (io st) →
  channels_of st sid = option_list cur → cur ≠ Some "" →
  (∀ c', Client.Join c' ∈ rest ++ [Client.Join c] → c' ≠ "") →
  (Client.session PORT now sid (rest ++ [Client.Join c]) (cur, st)).1 = Some c.
Proof.
  revert cur st.
  induction rest as [|call rest IH]; intros cur st W Hs Hsync Hcur Hnames.
  - cbn [app Client.session Client.perform fst snd]. unfold Client.joinChannel.
    case_bool_decide; [done|]. done.
  - cbn [app Client.session fst snd].
    destruct (Client.perform true call cur) as [msgs cur1] eqn:Ep.
    pose proof (session_in_step PORT now sid [call] cur st W Hs Hsync Hcur) as H1.
    cbn [Client.session fst snd] in H1. rewrite Ep in H1. cbn [Client.session fst snd] in H1.
    destruct H1 as (W1 & Hs1 & Hsync1 & Hcur1).
    { intros c' [<-|[]%elem_of_nil]%elem_of_cons. apply Hnames. by left. }
    apply IH; try done. intros c' Hin. apply Hnames. by right.
Qed.

(** X17.  The multi-channel backend lets one connection join many
    channels, but a client that joins and leaves through a
    [SocketService] whose [currentChannel] is still unset when its socket
    connects is in one channel at most: after any sequence of
    [joinChannel] and [leaveChannel] calls on the connected socket, the
    set of channels the server has for the connection is exactly the
    service's [currentChannel], and besides its own room the connection
    is in the room of that channel only.  A service that connects with
    [currentChannel] still set from an earlier connection is out of
    step: its [joinChannel] for that channel is skipped, and the server
    has no channel for the connection. *)
Theorem X17_client_occupies_its_current_channel PORT now t sid hs cs st0 fresh :
  reachable (backend PORT) VariantA.init st0 →
  listener (S := backend PORT) t (Connect sid hs) st0 = Some fresh →
  (∀ c, Client.Join c ∈ cs → c ≠ "") →
  let r := Client.session PORT now sid cs (None, next fresh) in
  channels_of r.2 sid = option_list r.1
  ∧ (length (channels_of r.2 sid) ≤ 1)%nat
  ∧ (∀ c, c ≠ sid → sid ∈ members (io r.2) c ↔ r.1 = Some c)
  ∧ (∀ c rest, cs = rest ++ [Client.Join c] → r.1 = Some c)
  ∧ (∀ c, let stale := Client.session PORT now sid [Client.Join c] (Some c, next fresh) in
          stale.1 = Some c ∧ channels_of stale.2 sid = []).
Proof.
  intros W0%wf_reachable Hfresh Hnames r.
  destruct (connect_fresh PORT t sid hs st0 fresh W0 Hfresh) as (W & Hs & Hsync).
  assert (None ≠ Some "") as Hcur by done.
  destruct (session_in_step PORT now sid cs None (next fresh) W Hs Hsync Hcur Hnames)
    as (W' & Hs' & Hsync' & Hcur').
  change (wf r.2) in W'. change (channels_of r.2 sid = option_list r.1) in Hsync'.
  split_and!.
  - done.
  - rewrite Hsync'. destruct r.1; simpl; lia.
  - intros c Hc. split.
    + intros Hin. destruct (wf_rooms _ W' _ _ Hin) as [?|Hj]; [done|].
      rewrite Hsync' in Hj. destruct r.1; simpl in Hj; set_solver.
    + intros E. apply (wf_joined _ W'). rewrite Hsync', E. simpl. set_solver.
  - intros c rest ->. by apply session_last_join.
  - intros c. cbn [Client.session Client.perform fst snd]. unfold Client.joinChannel.
    rewrite bool_decide_eq_true_2 by done. done.
Qed.

Lemma X17_witness :
  ∃ fresh,
    listener (S := backend "8080") 2 (Connect "C" [("host", "relay.example:8080")])
      (store (Demo.multi Demo.both_joined)) = Some fresh
    ∧ channels_of
        (Client.session "8080" 900 "C" [Client.Join "freq-446.05"; Client.Join "freq-446.10"]
           (None, next fresh)).2 "C"
      = ["freq-446.10"].
Proof.
  eexists. split; [reflexivity|].
  destruct (X17_client_occupies_its_current_channel "8080" 900 2 "C"
              [("host", "relay.example:8080")]
              [Client.Join "freq-446.05"; Client.Join "freq-446.10"]
              (store (Demo.multi Demo.both_joined)) _ ltac:(by exists Demo.both_joined)
              eq_refl)
    as (H & _ & _ & Hlast & _).
  - intros c [[= ->]|[[= ->]|[]%elem_of_nil]%elem_of_cons]%elem_of_cons; discriminate.
  - etrans; [exact H|].
    exact (f_equal option_list (Hlast "freq-446.10" [Client.Join "freq-446.05"] eq_refl)).
Defined.

End more_client.

